(** * upbc message layout: a shallow embedding of [upbc/message_layout.{h,cc}]

    The layout pass of the upb code generator decides, for one protobuf
    message, the byte offset of every field, the offset of every oneof
    discriminator, the presence-bit ("hasbit") index of every tracked field
    and the total size of the message, for a 32-bit and a 64-bit target at
    once.

    The C++ code is embedded as follows.
    - [int], [int64_t] and [size_t] values are integers of [Z]; every
      arithmetic operation of the source is followed by the wrap-around of
      its C++ type ([wrap_int], [wrap_int64], [wrap_size_t]).
    - The descriptors of the protobuf library (read-only input) are records;
      a descriptor pointer is the record together with the address of the
      object ([FieldDescriptor.addr]), and the three [flat_hash_map]s keyed by
      descriptor pointers are [gmap]s keyed by that address.
    - [MessageLayout] is a record of its data members; its member functions
      are computations in a state monad over that record whose results are
      an [outcome]: normal return, [exit(1)] after a diagnostic, [abort()],
      or a failed assertion.  [ABSL_ASSERT] is checked, as in a build
      without [NDEBUG].
    - The data members that the constructor leaves without a value start
      with indeterminate values, an argument of the constructor. *)

From Stdlib Require Import ZArith String Ascii Lia List Bool.
From stdpp Require Import base tactics option list gmap sorting strings.

Local Open Scope Z_scope.

(** ** Machine integers *)

Definition wrap_size_t (z : Z) : Z := z mod 2 ^ 64.

Definition wrap_int64 (z : Z) : Z := (z + 2 ^ 63) mod 2 ^ 64 - 2 ^ 63.

Definition wrap_int (z : Z) : Z := (z + 2 ^ 31) mod 2 ^ 32 - 2 ^ 31.

(** The newline character that ends the diagnostics. *)
Definition endl : string := String "010"%char EmptyString.

(** ** Outcomes of a call *)

Inductive outcome (A : Type) : Type :=
| Returns (a : A)
| Exits (status : Z) (cerr : string)
| Aborts (stderr : string)
| AssertionFails.

Arguments Returns {A} a.
Arguments Exits {A} status cerr.
Arguments Aborts {A} stderr.
Arguments AssertionFails {A}.

Global Instance outcome_ret : MRet outcome := λ A a, Returns a.

Global Instance outcome_bind : MBind outcome := λ A B k m,
  match m with
  | Returns a => k a
  | Exits st msg => Exits st msg
  | Aborts msg => Aborts msg
  | AssertionFails => AssertionFails
  end.

Definition ABSL_ASSERT (cond : bool) : outcome unit :=
  if cond then Returns tt else AssertionFails.

(** ** [static int64_t DivRoundUp(int64_t a, int64_t b)] *)

Definition DivRoundUp (a b : Z) : outcome Z :=
  ABSL_ASSERT (0 <=? a) ;;
  ABSL_ASSERT (0 <? b) ;;
  mret (Z.quot (wrap_int64 (wrap_int64 (a + b) - 1)) b).

(** ** The descriptors of the protobuf library

    Only the accessors that [message_layout.{h,cc}] calls are modelled.  A
    pointer to a descriptor is the descriptor's record; [addr] is the address
    of the object, the key under which the layout's hash maps store it.  The
    null pointer has address 0. *)

Inductive CppType : Type :=
| CPPTYPE_INT32 | CPPTYPE_INT64 | CPPTYPE_UINT32 | CPPTYPE_UINT64
| CPPTYPE_DOUBLE | CPPTYPE_FLOAT | CPPTYPE_BOOL | CPPTYPE_ENUM
| CPPTYPE_STRING | CPPTYPE_MESSAGE.

Inductive Label : Type := LABEL_OPTIONAL | LABEL_REQUIRED | LABEL_REPEATED.

Global Instance CppType_eq_dec : EqDecision CppType.
Proof. solve_decision. Defined.

Global Instance Label_eq_dec : EqDecision Label.
Proof. solve_decision. Defined.

Module FieldDescriptor.
Record t : Type := Make {
  addr : N;
  full_name : string;
  number : Z;
  label : Label;
  cpp_type : CppType;
  has_presence : bool;
  (* address of the containing oneof, synthetic or not; [None] is null *)
  containing_oneof : option N;
  (* the same, but null for a synthetic oneof *)
  real_containing_oneof : option N;
}.

Definition is_repeated (f : t) : bool := bool_decide (label f = LABEL_REPEATED).
Definition is_required (f : t) : bool := bool_decide (label f = LABEL_REQUIRED).

Global Instance eq_dec : EqDecision t.
Proof. solve_decision. Defined.
End FieldDescriptor.

Module OneofDescriptor.
Record t : Type := Make {
  addr : N;
  full_name : string;
  (* [field(0)], ..., [field(field_count() - 1)] *)
  fields : list FieldDescriptor.t;
}.
End OneofDescriptor.

Module Descriptor.
Record t : Type := Make {
  full_name : string;
  (* [options().map_entry()] *)
  map_entry : bool;
  (* [field(0)], ..., [field(field_count() - 1)], in declaration order *)
  fields : list FieldDescriptor.t;
  (* [oneof_decl(0)], ..., [oneof_decl(oneof_decl_count() - 1)] *)
  oneof_decls : list OneofDescriptor.t;
}.

Definition FindFieldByNumber (d : t) (n : Z) : option FieldDescriptor.t :=
  List.find (λ f, FieldDescriptor.number f =? n) (fields d).
End Descriptor.

(** The address a (possibly null) field pointer denotes. *)
Definition field_ptr (p : option FieldDescriptor.t) : N :=
  from_option FieldDescriptor.addr 0%N p.

(** ** [std::sort]

    The comparator is called on pairs of elements of the range and may not
    return (the comparator of [PlaceNonOneofFields] calls [FieldLayoutRank],
    which can abort).  The algorithm is insertion into the sorted tail; the
    order it gives to elements that compare equivalent is one of those
    [std::sort] may choose. *)

Section std_sort.
Context {A : Type} (comp : A → A → outcome bool).

Fixpoint sort_insert (x : A) (sorted : list A) : outcome (list A) :=
  match sorted with
  | [] => mret [x]
  | y :: rest =>
      lt ← comp x y ;
      if lt : bool then mret (x :: y :: rest)
      else (r ← sort_insert x rest ; mret (y :: r))
  end.

Fixpoint std_sort (l : list A) : outcome (list A) :=
  match l with
  | [] => mret []
  | x :: l => sorted ← std_sort l ; sort_insert x sorted
  end.
End std_sort.

(** ** [FieldHotnessOrder] ([message_layout.h])

    [std::make_pair(!a->is_required(), a->number()) < std::make_pair(...)] is
    the lexicographic order on pairs, with [false < true].  The result is an
    [outcome] because [std_sort] is; this comparator always returns. *)

Definition pair_less (a b : bool * Z) : bool :=
  let lt1 (x y : bool) := negb x && y in
  lt1 a.1 b.1 || (negb (lt1 b.1 a.1) && (a.2 <? b.2)).

Definition hotness_key (f : FieldDescriptor.t) : bool * Z :=
  (negb (FieldDescriptor.is_required f), FieldDescriptor.number f).

Definition hotness_less (a b : FieldDescriptor.t) : outcome bool :=
  mret (pair_less (hotness_key a) (hotness_key b)).

Definition FieldHotnessOrder (message : Descriptor.t)
  : outcome (list FieldDescriptor.t) :=
  std_sort hotness_less (Descriptor.fields message).

Module MessageLayout.

(** *** [struct Size] and [struct SizeAndAlign] *)

Record Size : Type := MkSize { size32 : Z; size64 : Z }.

Record SizeAndAlign : Type := MkSizeAndAlign { size : Size; align : Size }.

(** [static bool IsPowerOfTwo(size_t val)] *)
Definition IsPowerOfTwo (val : Z) : bool :=
  Z.land val (wrap_size_t (val - 1)) =? 0.

(** [static size_t Align(size_t val, size_t align)] *)
Definition Align (val align : Z) : outcome Z :=
  ABSL_ASSERT (IsPowerOfTwo align) ;;
  mret (Z.land (wrap_size_t (wrap_size_t (val + align) - 1))
               (wrap_size_t (Z.lnot (wrap_size_t (align - 1))))).

Module Size_.
(** [void Size::Add(const Size& other)] *)
Definition Add (this other : Size) : Size :=
  {| size32 := wrap_int64 (size32 this + size32 other);
     size64 := wrap_int64 (size64 this + size64 other) |}.

(** [void Size::MaxFrom(const Size& other)] *)
Definition MaxFrom (this other : Size) : Size :=
  {| size32 := Z.max (size32 this) (size32 other);
     size64 := Z.max (size64 this) (size64 other) |}.

(** [void Size::AlignUp(const Size& align)]: the [int64_t] members are
    converted to [size_t] for the call and back on assignment. *)
Definition AlignUp (this align : Size) : outcome Size :=
  a32 ← Align (wrap_size_t (size32 this)) (wrap_size_t (size32 align)) ;
  a64 ← Align (wrap_size_t (size64 this)) (wrap_size_t (size64 align)) ;
  mret {| size32 := wrap_int64 a32; size64 := wrap_int64 a64 |}.
End Size_.

Module SizeAndAlign_.
(** [void SizeAndAlign::MaxFrom(const SizeAndAlign& other)] *)
Definition MaxFrom (this other : SizeAndAlign) : SizeAndAlign :=
  {| size := Size_.MaxFrom (size this) (size other);
     align := Size_.MaxFrom (align this) (align other) |}.
End SizeAndAlign_.

(** *** The data members *)

Record t : Type := Make {
  field_offsets_ : gmap N Size;
  hasbit_indexes_ : gmap N Z;
  oneof_case_offsets_ : gmap N Size;
  maxalign_ : Size;
  size_ : Size;
  hasbit_count_ : Z;
  hasbit_bytes_ : Z;
  required_count_ : Z;
}.

Definition set_field_offsets_ (v : gmap N Size) (s : t) : t :=
  Make v (hasbit_indexes_ s) (oneof_case_offsets_ s) (maxalign_ s) (size_ s)
       (hasbit_count_ s) (hasbit_bytes_ s) (required_count_ s).
Definition set_hasbit_indexes_ (v : gmap N Z) (s : t) : t :=
  Make (field_offsets_ s) v (oneof_case_offsets_ s) (maxalign_ s) (size_ s)
       (hasbit_count_ s) (hasbit_bytes_ s) (required_count_ s).
Definition set_oneof_case_offsets_ (v : gmap N Size) (s : t) : t :=
  Make (field_offsets_ s) (hasbit_indexes_ s) v (maxalign_ s) (size_ s)
       (hasbit_count_ s) (hasbit_bytes_ s) (required_count_ s).
Definition set_maxalign_ (v : Size) (s : t) : t :=
  Make (field_offsets_ s) (hasbit_indexes_ s) (oneof_case_offsets_ s) v (size_ s)
       (hasbit_count_ s) (hasbit_bytes_ s) (required_count_ s).
Definition set_size_ (v : Size) (s : t) : t :=
  Make (field_offsets_ s) (hasbit_indexes_ s) (oneof_case_offsets_ s) (maxalign_ s) v
       (hasbit_count_ s) (hasbit_bytes_ s) (required_count_ s).
Definition set_hasbit_count_ (v : Z) (s : t) : t :=
  Make (field_offsets_ s) (hasbit_indexes_ s) (oneof_case_offsets_ s) (maxalign_ s)
       (size_ s) v (hasbit_bytes_ s) (required_count_ s).
Definition set_hasbit_bytes_ (v : Z) (s : t) : t :=
  Make (field_offsets_ s) (hasbit_indexes_ s) (oneof_case_offsets_ s) (maxalign_ s)
       (size_ s) (hasbit_count_ s) v (required_count_ s).
Definition set_required_count_ (v : Z) (s : t) : t :=
  Make (field_offsets_ s) (hasbit_indexes_ s) (oneof_case_offsets_ s) (maxalign_ s)
       (size_ s) (hasbit_count_ s) (hasbit_bytes_ s) v.

(** *** Member functions: state over [t], results in [outcome] *)

Definition M (A : Type) : Type := t → outcome (A * t).

Global Instance M_ret : MRet M := λ A a s, Returns (a, s).

Global Instance M_bind : MBind M := λ A B k m s,
  match m s with
  | Returns (a, s') => k a s'
  | Exits st msg => Exits st msg
  | Aborts msg => Aborts msg
  | AssertionFails => AssertionFails
  end.

Definition get {A} (member : t → A) : M A := λ s, Returns (member s, s).

Definition modify (f : t → t) : M unit := λ s, Returns (tt, f s).

Definition lift {A} (o : outcome A) : M A := λ s,
  match o with
  | Returns a => Returns (a, s)
  | Exits st msg => Exits st msg
  | Aborts msg => Aborts msg
  | AssertionFails => AssertionFails
  end.

(** A range-based [for] loop whose body runs in [M]. *)
Fixpoint for_each {A} (range : list A) (body : A → M unit) : M unit :=
  match range with
  | [] => mret tt
  | x :: rest => body x ;; for_each rest body
  end.

(** [Size MessageLayout::Place(SizeAndAlign size_and_align)] *)
Definition Place (size_and_align : SizeAndAlign) : M Size :=
  offset ← get size_ ;
  offset ← lift (Size_.AlignUp offset (align size_and_align)) ;
  modify (set_size_ offset) ;;
  modify (λ s, set_size_ (Size_.Add (size_ s) (size size_and_align)) s) ;;
  modify (λ s, set_maxalign_ (Size_.MaxFrom (maxalign_ s) (size size_and_align)) s) ;;
  mret offset.

(** [bool MessageLayout::HasHasbit(const FieldDescriptor* field)];
    [field->containing_type()] is the explicit first argument. *)
Definition HasHasbit (containing_type : Descriptor.t) (field : FieldDescriptor.t)
  : bool :=
  FieldDescriptor.has_presence field
  && negb (bool_decide (is_Some (FieldDescriptor.real_containing_oneof field)))
  && negb (Descriptor.map_entry containing_type).

(** [SizeAndAlign MessageLayout::SizeOfUnwrapped(const FieldDescriptor* field)].
    The [switch] covers the ten enumerators of [CppType]; the code after it
    is not reachable. *)
Definition SizeOfUnwrapped (field : FieldDescriptor.t) : SizeAndAlign :=
  match FieldDescriptor.cpp_type field with
  | CPPTYPE_MESSAGE => MkSizeAndAlign (MkSize 4 8) (MkSize 4 8)
  | CPPTYPE_STRING => MkSizeAndAlign (MkSize 8 16) (MkSize 4 8)
  | CPPTYPE_BOOL => MkSizeAndAlign (MkSize 1 1) (MkSize 1 1)
  | CPPTYPE_FLOAT | CPPTYPE_INT32 | CPPTYPE_UINT32 | CPPTYPE_ENUM =>
      MkSizeAndAlign (MkSize 4 4) (MkSize 4 4)
  | CPPTYPE_INT64 | CPPTYPE_UINT64 | CPPTYPE_DOUBLE =>
      MkSizeAndAlign (MkSize 8 8) (MkSize 8 8)
  end.

(** [SizeAndAlign MessageLayout::SizeOf(const FieldDescriptor* field)] *)
Definition SizeOf (field : FieldDescriptor.t) : SizeAndAlign :=
  if FieldDescriptor.is_repeated field
  then MkSizeAndAlign (MkSize 4 8) (MkSize 4 8)
  else SizeOfUnwrapped field.

(** The bucket that [FieldLayoutRank] assigns in its [else] branches. *)
Definition layout_bucket (field : FieldDescriptor.t) : Z :=
  if bool_decide (FieldDescriptor.label field = LABEL_REPEATED) then 6
  else match FieldDescriptor.cpp_type field with
       | CPPTYPE_MESSAGE => 5
       | CPPTYPE_STRING => 4
       | CPPTYPE_BOOL => 3
       | CPPTYPE_FLOAT | CPPTYPE_INT32 | CPPTYPE_UINT32 => 2
       | _ => 1
       end.

(** [int64_t MessageLayout::FieldLayoutRank(const FieldDescriptor* field)] *)
Definition FieldLayoutRank (field : FieldDescriptor.t) : outcome Z :=
  rank ← (if FieldDescriptor.containing_oneof field is Some _
          then Aborts ("shouldn't have oneofs here." +:+ endl)
          else mret (layout_bucket field)) ;
  mret (Z.lor (wrap_int64 (Z.shiftl rank 29)) (FieldDescriptor.number field)).

(** The comparator that [PlaceNonOneofFields] passes to [std::sort]. *)
Definition rank_less (a b : FieldDescriptor.t) : outcome bool :=
  ra ← FieldLayoutRank a ; rb ← FieldLayoutRank b ; mret (ra <? rb).

(** The diagnostic written to [std::cerr] before [exit(1)]. *)
Definition too_many_required (field : FieldDescriptor.t) : string :=
  "upb does not support messages with more than 63 required fields: "
  +:+ FieldDescriptor.full_name field +:+ endl.

(** The body of the loop of [PlaceNonOneofFields] that places and counts
    the hasbits. *)
Definition assign_hasbit (descriptor : Descriptor.t) (field : FieldDescriptor.t)
  : M unit :=
  if HasHasbit descriptor field then
    (* int index = ++hasbit_count_; *)
    modify (λ s, set_hasbit_count_ (wrap_int (hasbit_count_ s + 1)) s) ;;
    index ← get hasbit_count_ ;
    modify (λ s, set_hasbit_indexes_
                   (<[FieldDescriptor.addr field := index]> (hasbit_indexes_ s)) s) ;;
    if FieldDescriptor.is_required field then
      if 63 <? index then lift (Exits 1 (too_many_required field))
      else modify (λ s, set_required_count_ (wrap_int (required_count_ s + 1)) s)
    else mret tt
  else mret tt.

(** The body of the loop of [PlaceNonOneofFields] that places the fields. *)
Definition place_field (field : FieldDescriptor.t) : M unit :=
  offset ← Place (SizeOf field) ;
  modify (λ s, set_field_offsets_
                 (<[FieldDescriptor.addr field := offset]> (field_offsets_ s)) s).

(** [void MessageLayout::PlaceNonOneofFields(const Descriptor* descriptor)] *)
Definition PlaceNonOneofFields (descriptor : Descriptor.t) : M unit :=
  field_order ← lift (
    std_sort rank_less
      (filter (λ field, FieldDescriptor.containing_oneof field = None)
              (Descriptor.fields descriptor))) ;
  (* Place/count hasbits. *)
  modify (set_hasbit_count_ 0) ;;
  modify (set_required_count_ 0) ;;
  hotness_order ← lift (FieldHotnessOrder descriptor) ;
  for_each hotness_order (assign_hasbit descriptor) ;;
  (* Place hasbits at the beginning. *)
  hasbit_count ← get hasbit_count_ ;
  bytes ← lift (DivRoundUp hasbit_count 8) ;
  modify (set_hasbit_bytes_ (wrap_int bytes)) ;;
  hasbit_bytes ← get hasbit_bytes_ ;
  Place (MkSizeAndAlign (MkSize hasbit_bytes hasbit_bytes) (MkSize 1 1)) ;;
  (* Place non-oneof fields. *)
  for_each field_order place_field.

(** The inner loop of [PlaceOneofFields] that calculates the max size. *)
Definition oneof_maxsize (oneof : OneofDescriptor.t) : SizeAndAlign :=
  foldl (λ acc field, SizeAndAlign_.MaxFrom acc (SizeOf field))
        (MkSizeAndAlign (MkSize 0 0) (MkSize 0 0))
        (OneofDescriptor.fields oneof).

(** The comparator that [PlaceOneofFields] passes to [std::sort]:
    [operator<] of [std::string], which compares bytes as unsigned. *)
Definition name_less (a b : OneofDescriptor.t) : outcome bool :=
  mret (String.ltb (OneofDescriptor.full_name a) (OneofDescriptor.full_name b)).

(** The body of the outer loop of [PlaceOneofFields]. *)
Definition place_oneof (oneof : OneofDescriptor.t) : M unit :=
  (* Place discriminator enum and data. *)
  data ← Place (oneof_maxsize oneof) ;
  discriminator ← Place (MkSizeAndAlign (MkSize 4 4) (MkSize 4 4)) ;
  modify (λ s, set_oneof_case_offsets_
                 (<[OneofDescriptor.addr oneof := discriminator]>
                    (oneof_case_offsets_ s)) s) ;;
  for_each (OneofDescriptor.fields oneof) (λ field,
    modify (λ s, set_field_offsets_
                   (<[FieldDescriptor.addr field := data]> (field_offsets_ s)) s)).

(** [void MessageLayout::PlaceOneofFields(const Descriptor* descriptor)] *)
Definition PlaceOneofFields (descriptor : Descriptor.t) : M unit :=
  oneof_order ← lift (std_sort name_less (Descriptor.oneof_decls descriptor)) ;
  for_each oneof_order place_oneof.

(** The last statement of [ComputeLayout]: [size_.AlignUp(maxalign_)]. *)
Definition align_overall_size : M unit :=
  total ← get size_ ;
  maxalign ← get maxalign_ ;
  aligned ← lift (Size_.AlignUp total maxalign) ;
  modify (set_size_ aligned).

(** [void MessageLayout::ComputeLayout(const Descriptor* descriptor)] *)
Definition ComputeLayout (descriptor : Descriptor.t) : M unit :=
  modify (set_size_ (MkSize 0 0)) ;;
  modify (set_maxalign_ (MkSize 8 8)) ;;
  (if Descriptor.map_entry descriptor then
     let size := MkSizeAndAlign (MkSize 8 16) (MkSize 4 8) in
     offset ← Place size ;
     modify (λ s, set_field_offsets_
       (<[field_ptr (Descriptor.FindFieldByNumber descriptor 1) := offset]>
          (field_offsets_ s)) s) ;;
     offset ← Place size ;
     modify (λ s, set_field_offsets_
       (<[field_ptr (Descriptor.FindFieldByNumber descriptor 2) := offset]>
          (field_offsets_ s)) s)
   else
     PlaceNonOneofFields descriptor ;;
     PlaceOneofFields descriptor) ;;
  (* Align overall size up to max size. *)
  align_overall_size.

(** [MessageLayout(const Descriptor* descriptor)].  The three maps are
    default-constructed (empty); the other members have no initializer, so
    they start with the indeterminate values of [uninitialized]. *)
Definition default_initialized (uninitialized : t) : t :=
  set_field_offsets_ ∅
    (set_hasbit_indexes_ ∅ (set_oneof_case_offsets_ ∅ uninitialized)).

Definition constructor (uninitialized : t) (descriptor : Descriptor.t)
  : outcome t :=
  match ComputeLayout descriptor (default_initialized uninitialized) with
  | Returns (_, this) => Returns this
  | Exits st msg => Exits st msg
  | Aborts msg => Aborts msg
  | AssertionFails => AssertionFails
  end.

(** *** The queries *)

(** [static V GetMapValue(const flat_hash_map<K, V>& map, K key)] *)
Definition GetMapValue {V} (map : gmap N V) (key : N) : outcome V :=
  match map !! key with
  | None => Aborts ("No value for field." +:+ endl)
  | Some v => Returns v
  end.

Definition GetFieldOffset (this : t) (field : FieldDescriptor.t) : outcome Size :=
  GetMapValue (field_offsets_ this) (FieldDescriptor.addr field).

Definition GetOneofCaseOffset (this : t) (oneof : OneofDescriptor.t)
  : outcome Size :=
  GetMapValue (oneof_case_offsets_ this) (OneofDescriptor.addr oneof).

Definition GetHasbitIndex (this : t) (field : FieldDescriptor.t) : outcome Z :=
  GetMapValue (hasbit_indexes_ this) (FieldDescriptor.addr field).

Definition message_size (this : t) : Size := size_ this.
Definition hasbit_count (this : t) : Z := hasbit_count_ this.
Definition hasbit_bytes (this : t) : Z := hasbit_bytes_ this.
Definition required_count (this : t) : Z := required_count_ this.

End MessageLayout.

Import MessageLayout.

(** * Specification vocabulary *)

(** ** Component-wise relations on [Size] *)

Definition Size_le (a b : Size) : Prop :=
  size32 a ≤ size32 b ∧ size64 a ≤ size64 b.

Definition Size_lt (a b : Size) : Prop :=
  size32 a < size32 b ∧ size64 a < size64 b.

Definition Size_divides (a b : Size) : Prop :=
  (size32 a | size32 b) ∧ (size64 a | size64 b).

(** Both components lie in [lo, hi]. *)
Definition Size_in (lo hi : Z) (a : Size) : Prop :=
  (lo ≤ size32 a ≤ hi) ∧ (lo ≤ size64 a ≤ hi).

(** The sum of two sizes as integers, without wrap-around. *)
Definition Size_plus (a b : Size) : Size :=
  MkSize (size32 a + size32 b) (size64 a + size64 b).

(** ** Sorted ranges

    The result of [std_sort] for a comparator that always returns, as a
    function of the range. *)

Section insertion_sort.
Context {A : Type} (less : A → A → bool).

Fixpoint insert_sorted (x : A) (sorted : list A) : list A :=
  match sorted with
  | [] => [x]
  | y :: rest => if less x y then x :: y :: rest else y :: insert_sorted x rest
  end.

Definition insertion_sort (l : list A) : list A := foldr insert_sorted [] l.

(** [a] may stand before [b] in a sorted range. *)
Definition not_after (a b : A) : Prop := less b a = false.
End insertion_sort.

(** The value [FieldLayoutRank] returns for a field outside every oneof. *)
Definition rank_key (f : FieldDescriptor.t) : Z :=
  Z.lor (Z.shiftl (layout_bucket f) 29) (FieldDescriptor.number f).

Definition non_oneof_fields (d : Descriptor.t) : list FieldDescriptor.t :=
  filter (λ f, FieldDescriptor.containing_oneof f = None) (Descriptor.fields d).

(** The order in which [PlaceNonOneofFields] places the fields. *)
Definition field_order (d : Descriptor.t) : list FieldDescriptor.t :=
  insertion_sort (λ a b, rank_key a <? rank_key b) (non_oneof_fields d).

(** The order in which hasbits are assigned. *)
Definition hotness_order (d : Descriptor.t) : list FieldDescriptor.t :=
  insertion_sort (λ a b, pair_less (hotness_key a) (hotness_key b))
                 (Descriptor.fields d).

(** The fields that get a hasbit, in the order they get it. *)
Definition tracked_fields (d : Descriptor.t) : list FieldDescriptor.t :=
  filter (λ f, HasHasbit d f = true) (hotness_order d).

(** The order in which [PlaceOneofFields] places the oneofs. *)
Definition oneof_order (d : Descriptor.t) : list OneofDescriptor.t :=
  insertion_sort (λ a b, String.ltb (OneofDescriptor.full_name a)
                                    (OneofDescriptor.full_name b))
                 (Descriptor.oneof_decls d).

(** ** Validated schemas

    What the protobuf library guarantees of a message descriptor it built,
    as far as the layout depends on it. *)

Definition valid (d : Descriptor.t) : Prop :=
  (* [field_count()] and [oneof_decl_count()] are [int]s *)
  Z.of_nat (length (Descriptor.fields d)) < 2 ^ 31
  ∧ Z.of_nat (length (Descriptor.oneof_decls d)) < 2 ^ 31
  (* distinct descriptor objects *)
  ∧ NoDup (FieldDescriptor.addr <$> Descriptor.fields d)
  ∧ NoDup (OneofDescriptor.addr <$> Descriptor.oneof_decls d)
  (* field numbers are distinct and between 1 and 2^29 - 1 *)
  ∧ NoDup (FieldDescriptor.number <$> Descriptor.fields d)
  ∧ Forall (λ f, 1 ≤ FieldDescriptor.number f < 2 ^ 29) (Descriptor.fields d)
  (* oneof names are distinct *)
  ∧ NoDup (OneofDescriptor.full_name <$> Descriptor.oneof_decls d)
  (* the members of a oneof are the fields of the message that name it as
     their containing oneof, in declaration order; there is at least one *)
  ∧ Forall (λ o, OneofDescriptor.fields o
                 = filter (λ f, FieldDescriptor.containing_oneof f
                                = Some (OneofDescriptor.addr o))
                          (Descriptor.fields d)
                 ∧ OneofDescriptor.fields o ≠ [])
           (Descriptor.oneof_decls d).

Global Instance valid_dec d : Decision (valid d).
Proof. unfold valid. apply _. Defined.

(** ** Placed items

    An item is a pair of the offset and the size of a slot.  [chain lo items
    hi] says that the items lie between [lo] and [hi] one after the other,
    in both width components. *)

Fixpoint chain (lo : Size) (items : list (Size * Size)) (hi : Size) : Prop :=
  match items with
  | [] => Size_le lo hi
  | (offset, sz) :: rest =>
      Size_le lo offset ∧ Size_le (MkSize 0 0) sz
      ∧ chain (Size_plus offset sz) rest hi
  end.

(** What the maps of a layout hold for a field or a oneof ([0] when they
    hold nothing; the queries abort then). *)
Definition field_offset (L : t) (f : FieldDescriptor.t) : Size :=
  default (MkSize 0 0) (field_offsets_ L !! FieldDescriptor.addr f).

Definition case_offset (L : t) (o : OneofDescriptor.t) : Size :=
  default (MkSize 0 0) (oneof_case_offsets_ L !! OneofDescriptor.addr o).

(** The offset of the data slot of a oneof: that of its first member. *)
Definition data_offset (L : t) (o : OneofDescriptor.t) : Size :=
  from_option (field_offset L) (MkSize 0 0) (head (OneofDescriptor.fields o)).

Definition hasbit_item (L : t) : Size * Size :=
  (MkSize 0 0, MkSize (hasbit_bytes_ L) (hasbit_bytes_ L)).

Definition field_item (L : t) (f : FieldDescriptor.t) : Size * Size :=
  (field_offset L f, size (SizeOf f)).

Definition oneof_items (L : t) (o : OneofDescriptor.t) : list (Size * Size) :=
  [(data_offset L o, size (oneof_maxsize o)); (case_offset L o, MkSize 4 4)].

(** The items of an ordinary message, in the order they are placed. *)
Definition ordinary_items (d : Descriptor.t) (L : t) : list (Size * Size) :=
  hasbit_item L :: (field_item L <$> field_order d)
                ++ (oneof_order d ≫= oneof_items L).

(** The two items of a map entry. *)
Definition map_entry_items (d : Descriptor.t) (L : t) : list (Size * Size) :=
  (λ n, (default (MkSize 0 0)
           (field_offsets_ L !! field_ptr (Descriptor.FindFieldByNumber d n)),
         MkSize 8 16)) <$> [1; 2].

Definition placed_items (d : Descriptor.t) (L : t) : list (Size * Size) :=
  if Descriptor.map_entry d then map_entry_items d L else ordinary_items d L.

(** The addresses of the member fields of a oneof. *)
Definition member_addrs (o : OneofDescriptor.t) : list N :=
  FieldDescriptor.addr <$> OneofDescriptor.fields o.

(** ** Hasbits

    [first_overflow index tracked]: the first required field of [tracked]
    whose hasbit index exceeds 63, when the fields of [tracked] get the
    indices [index + 1], [index + 2], ... *)
Fixpoint first_overflow (index : Z) (tracked : list FieldDescriptor.t)
  : option FieldDescriptor.t :=
  match tracked with
  | [] => None
  | f :: rest =>
      if FieldDescriptor.is_required f && (63 <? index + 1) then Some f
      else first_overflow (index + 1) rest
  end.

(** The hasbit indices [index + 1], [index + 2], ... entered for [tracked]. *)
Fixpoint assign_indexes (index : Z) (tracked : list FieldDescriptor.t)
    (m : gmap N Z) : gmap N Z :=
  match tracked with
  | [] => m
  | f :: rest =>
      assign_indexes (index + 1) rest (<[FieldDescriptor.addr f := index + 1]> m)
  end.

(** The required fields that get a hasbit, in the order they get it. *)
Definition tracked_required (d : Descriptor.t) : list FieldDescriptor.t :=
  filter (λ f, FieldDescriptor.is_required f = true) (tracked_fields d).

(** The number of bytes of the hasbit region. *)
Definition hasbit_bytes_of (d : Descriptor.t) : Z :=
  Z.quot (Z.of_nat (length (tracked_fields d)) + 7) 8.

(** The state of [PlaceNonOneofFields] after it has placed the hasbits, when
    [ComputeLayout] started in [s0] and no required field overflowed. *)
Definition after_hasbits (d : Descriptor.t) (s0 : t) : t :=
  let bytes := MkSize (hasbit_bytes_of d) (hasbit_bytes_of d) in
  Make (field_offsets_ s0)
       (assign_indexes 0 (tracked_fields d) (hasbit_indexes_ s0))
       (oneof_case_offsets_ s0)
       (Size_.MaxFrom (MkSize 8 8) bytes)
       bytes
       (Z.of_nat (length (tracked_fields d)))
       (hasbit_bytes_of d)
       (Z.of_nat (length (tracked_required d))).

(** A call that neither exits nor aborts: it returns or fails an assertion. *)
Definition returns_or_asserts {A} (o : outcome A) : Prop :=
  match o with
  | Returns _ | AssertionFails => True
  | Exits _ _ | Aborts _ => False
  end.

(** ** Regions

    The region of a oneof is its data slot together with its discriminator
    (and the padding between them): it starts at the data offset and ends
    where the discriminator ends. *)

Definition Size_minus (a b : Size) : Size :=
  MkSize (size32 a - size32 b) (size64 a - size64 b).

Definition oneof_region (L : t) (o : OneofDescriptor.t) : Size * Size :=
  (data_offset L o,
   Size_minus (Size_plus (case_offset L o) (MkSize 4 4)) (data_offset L o)).

(** The regions of an ordinary message as (offset, size) pairs: the hasbits,
    the fields outside oneofs, the oneofs. *)
Definition layout_regions (d : Descriptor.t) (L : t) : list (Size * Size) :=
  hasbit_item L :: (field_item L <$> field_order d)
                ++ (oneof_region L <$> oneof_order d).

(** Two regions [offset, offset + size) do not overlap, in the 32-bit and in
    the 64-bit component. *)
Definition disjoint32 (r1 r2 : Size * Size) : Prop :=
  size32 r1.1 + size32 r1.2 ≤ size32 r2.1 ∨ size32 r2.1 + size32 r2.2 ≤ size32 r1.1.

Definition disjoint64 (r1 r2 : Size * Size) : Prop :=
  size64 r1.1 + size64 r1.2 ≤ size64 r2.1 ∨ size64 r2.1 + size64 r2.2 ≤ size64 r1.1.

(** The largest of a list of integers that are not negative. *)
Definition max_of (l : list Z) : Z := foldr Z.max 0 l.

(** The component-wise maximum of the shapes of the members of a oneof. *)
Definition max_member_shape (o : OneofDescriptor.t) : SizeAndAlign :=
  let shapes := SizeOf <$> OneofDescriptor.fields o in
  MkSizeAndAlign
    (MkSize (max_of ((λ sa, size32 (size sa)) <$> shapes))
            (max_of ((λ sa, size64 (size sa)) <$> shapes)))
    (MkSize (max_of ((λ sa, size32 (align sa)) <$> shapes))
            (max_of ((λ sa, size64 (align sa)) <$> shapes))).

(** ** Observable results and schemas up to declaration order *)

(** What a run of the constructor shows: the field offsets, the oneof
    discriminator offsets, the hasbit indices and the total size, or the way
    it failed. *)
Definition observable (o : outcome t)
  : outcome (gmap N Size * gmap N Size * gmap N Z * Size) :=
  L ← o ; mret (field_offsets_ L, oneof_case_offsets_ L, hasbit_indexes_ L, size_ L).

(** The identity and the name of a oneof. *)
Definition oneof_id (o : OneofDescriptor.t) : N * string :=
  (OneofDescriptor.addr o, OneofDescriptor.full_name o).

(** Two descriptors of one message that differ at most in the order in which
    the fields and the oneofs are declared. *)
Definition same_schema (d1 d2 : Descriptor.t) : Prop :=
  Descriptor.full_name d1 = Descriptor.full_name d2
  ∧ Descriptor.map_entry d1 = Descriptor.map_entry d2
  ∧ Descriptor.fields d1 ≡ₚ Descriptor.fields d2
  ∧ oneof_id <$> Descriptor.oneof_decls d1 ≡ₚ oneof_id <$> Descriptor.oneof_decls d2.

(** ** Alignments that pass the assertion of [Align] *)

Definition small_power_of_two (z : Z) : Prop :=
  z = 1 ∨ z = 2 ∨ z = 4 ∨ z = 8 ∨ z = 16.

Definition power_of_two_shape (sa : SizeAndAlign) : Prop :=
  small_power_of_two (size32 (size sa)) ∧ small_power_of_two (size64 (size sa))
  ∧ small_power_of_two (size32 (align sa)) ∧ small_power_of_two (size64 (align sa)).

(** The running maximum alignment is 8 or 16 in both components. *)
Definition good_maxalign (a : Size) : Prop :=
  (size32 a = 8 ∨ size32 a = 16) ∧ (size64 a = 8 ∨ size64 a = 16).

(** ** Example messages *)

Definition mk_field (n : Z) (name : string) (l : Label) (c : CppType)
    (presence : bool) (oneof : option N) : FieldDescriptor.t :=
  FieldDescriptor.Make (1000 + Z.to_N n) name n l c presence oneof oneof.

(** Two decimal digits. *)
Definition decimal (n : Z) : string :=
  String (ascii_of_N (48 + Z.to_N (n / 10)))
    (String (ascii_of_N (48 + Z.to_N (n mod 10))) EmptyString).

(** [message Big { required int32 f01 = 1; ...; required int32 f64 = 64; }] *)
Definition required64 : Descriptor.t :=
  Descriptor.Make "pkg.Big" false
    ((λ n, mk_field n ("pkg.Big.f" +:+ decimal n) LABEL_REQUIRED CPPTYPE_INT32
                    true None) <$> seqZ 1 64)
    [].

(** [message Wide { optional int32 f01 = 1; ...; optional int32 fNN = NN; }] *)
Definition optionals (count : Z) : Descriptor.t :=
  Descriptor.Make "pkg.Wide" false
    ((λ n, mk_field n ("pkg.Wide.f" +:+ decimal n) LABEL_OPTIONAL CPPTYPE_INT32
                    true None) <$> seqZ 1 count)
    [].

(** Indeterminate values for the members without initializer. *)
Definition junk : t :=
  Make ∅ ∅ ∅ (MkSize 77 (-3)) (MkSize 5 12345) 41 (-7) 99.

Definition junk2 : t :=
  Make ∅ ∅ ∅ (MkSize 0 1) (MkSize (-2) 3) (-5) 6 7.

(** A message with fields outside oneofs and two oneofs:
<<
    message M {
      required int32 id = 1;
      optional string name = 2;
      optional Kind kind = 3;       // an enum
      repeated int64 values = 4;
      oneof choice { int32 count = 5; Sub sub = 6; }
      optional bool flag = 7;
      oneof alt { string text = 8; }
    }
>> *)
Definition example_fields : list FieldDescriptor.t :=
  [ mk_field 1 "pkg.M.id" LABEL_REQUIRED CPPTYPE_INT32 true None;
    mk_field 2 "pkg.M.name" LABEL_OPTIONAL CPPTYPE_STRING true None;
    mk_field 3 "pkg.M.kind" LABEL_OPTIONAL CPPTYPE_ENUM true None;
    mk_field 4 "pkg.M.values" LABEL_REPEATED CPPTYPE_INT64 false None;
    mk_field 5 "pkg.M.count" LABEL_OPTIONAL CPPTYPE_INT32 true (Some 1%N);
    mk_field 6 "pkg.M.sub" LABEL_OPTIONAL CPPTYPE_MESSAGE true (Some 1%N);
    mk_field 7 "pkg.M.flag" LABEL_OPTIONAL CPPTYPE_BOOL true None;
    mk_field 8 "pkg.M.text" LABEL_OPTIONAL CPPTYPE_STRING true (Some 2%N) ].

Definition example_oneof (fields : list FieldDescriptor.t) (a : N)
    (name : string) : OneofDescriptor.t :=
  OneofDescriptor.Make a name
    (filter (λ f, FieldDescriptor.containing_oneof f = Some a) fields).

Definition example_message : Descriptor.t :=
  Descriptor.Make "pkg.M" false example_fields
    [example_oneof example_fields 1 "pkg.M.choice";
     example_oneof example_fields 2 "pkg.M.alt"].

(** The same message with its fields and its oneofs declared in the reverse
    order. *)
Definition example_message_reversed : Descriptor.t :=
  Descriptor.Make "pkg.M" false (reverse example_fields)
    [example_oneof (reverse example_fields) 2 "pkg.M.alt";
     example_oneof (reverse example_fields) 1 "pkg.M.choice"].

(** The map entry of [map<string, int32> tags]. *)
Definition example_map_entry : Descriptor.t :=
  Descriptor.Make "pkg.M.TagsEntry" true
    [ mk_field 1 "pkg.M.TagsEntry.key" LABEL_OPTIONAL CPPTYPE_STRING true None;
      mk_field 2 "pkg.M.TagsEntry.value" LABEL_OPTIONAL CPPTYPE_INT32 true None ]
    [].

(** The layout the constructor returns for a descriptor ([junk] when it does
    not return). *)
Definition layout_of (d : Descriptor.t) : t :=
  match constructor junk d with Returns L => L | _ => junk end.

(** What [Place] returns and the state it leaves ([s] unchanged when it
    does not return). *)
Definition place_result (sa : SizeAndAlign) (s : t) : Size * t :=
  match Place sa s with Returns r => r | _ => (MkSize 0 0, s) end.

(** ** Vocabulary of the further properties *)

(** What [GetMapValue] writes to [stderr] before it aborts. *)
Definition no_value : string := "No value for field." +:+ endl.

(** [f] comes before [g] in the order of (bucket, field number). *)
Definition rank_before (f g : FieldDescriptor.t) : Prop :=
  layout_bucket f < layout_bucket g
  ∨ (layout_bucket f = layout_bucket g
     ∧ FieldDescriptor.number f < FieldDescriptor.number g).

Global Instance rank_before_dec f g : Decision (rank_before f g).
Proof. unfold rank_before. apply _. Defined.

(** The alignments of [SizeOfUnwrapped]. *)
Definition field_alignment (z : Z) : Prop := z = 1 ∨ z = 4 ∨ z = 8.

(** ** The running state of the placement

    [maxalign_for bytes a]: the running maximum alignment [a] of a message
    whose hasbits take [bytes] bytes.  [wider64 a]: the 64-bit component of
    [a] is not below the 32-bit one. *)

Definition maxalign_for (bytes : Z) (a : Size) : Prop :=
  size32 a = Z.max 8 bytes
  ∧ (size64 a = Z.max 8 bytes ∨ size64 a = Z.max 16 bytes).

Definition wider64 (a : Size) : Prop := size32 a ≤ size64 a.

Definition placement_state (bytes : Z) (s : t) : Prop :=
  maxalign_for bytes (maxalign_ s)
  ∧ wider64 (size_ s)
  ∧ map_Forall (λ _, wider64) (field_offsets_ s)
  ∧ map_Forall (λ _, wider64) (oneof_case_offsets_ s).

(** ** Packed slots

    A slot is an offset together with the shape placed there.  [packed lo
    slots hi]: every slot starts at the first multiple of its alignment at
    or after the end of the slot before it ([lo] for the first slot), in
    both width components, and the last slot ends at [hi]. *)

Fixpoint packed (lo : Size) (slots : list (Size * SizeAndAlign)) (hi : Size)
  : Prop :=
  match slots with
  | [] => lo = hi
  | (offset, sa) :: rest =>
      Size_divides (align sa) offset
      ∧ Size_le lo offset
      ∧ Size_lt offset (Size_plus lo (align sa))
      ∧ packed (Size_plus offset (size sa)) rest hi
  end.

Definition field_slot (L : t) (f : FieldDescriptor.t) : Size * SizeAndAlign :=
  (field_offset L f, SizeOf f).

Definition oneof_slots (L : t) (o : OneofDescriptor.t)
  : list (Size * SizeAndAlign) :=
  [(data_offset L o, oneof_maxsize o);
   (case_offset L o, MkSizeAndAlign (MkSize 4 4) (MkSize 4 4))].

(** The slots of an ordinary message, in the order they are placed. *)
Definition ordinary_slots (d : Descriptor.t) (L : t)
  : list (Size * SizeAndAlign) :=
  (MkSize 0 0,
   MkSizeAndAlign (MkSize (hasbit_bytes_ L) (hasbit_bytes_ L)) (MkSize 1 1))
  :: (field_slot L <$> field_order d) ++ (oneof_order d ≫= oneof_slots L).

(** The sizes of the slots of an ordinary message, in the order they are
    placed. *)
Definition slot_sizes (d : Descriptor.t) (L : t) : list Size :=
  (λ slot, size slot.2) <$> ordinary_slots d L.

(** [message P { optional int32 x = 1; }] in proto3 syntax: the field is the
    only member of the synthetic oneof [_x]. *)
Definition example_proto3_optional : Descriptor.t :=
  let x := FieldDescriptor.Make 1001 "pkg.P.x" 1 LABEL_OPTIONAL CPPTYPE_INT32
             true (Some 1%N) None in
  Descriptor.Make "pkg.P" false [x] [OneofDescriptor.Make 1 "pkg.P._x" [x]].

(** * Properties *)

(** ** Machine arithmetic *)

Lemma wrap_size_t_small z : 0 ≤ z < 2 ^ 64 → wrap_size_t z = z.
Proof. intros. unfold wrap_size_t. by apply Z.mod_small. Qed.

Lemma wrap_int64_small z : - 2 ^ 63 ≤ z < 2 ^ 63 → wrap_int64 z = z.
Proof. intros. unfold wrap_int64. rewrite Z.mod_small; lia. Qed.

Lemma wrap_int_small z : - 2 ^ 31 ≤ z < 2 ^ 31 → wrap_int z = z.
Proof. intros. unfold wrap_int. rewrite Z.mod_small; lia. Qed.

Lemma IsPowerOfTwo_spec a :
  0 < a < 2 ^ 64 → IsPowerOfTwo a = true → ∃ k, 0 ≤ k < 64 ∧ a = 2 ^ k.
Proof.
  intros Ha Hp. unfold IsPowerOfTwo in Hp.
  rewrite wrap_size_t_small in Hp by lia.
  apply Z.eqb_eq in Hp.
  pose proof (Z.log2_spec a ltac:(lia)) as Hlog.
  pose proof (Z.log2_nonneg a) as Hnn.
  exists (Z.log2 a). split.
  - split; [done|]. apply Z.log2_lt_pow2; lia.
  - destruct (decide (a = 2 ^ Z.log2 a)) as [|Hne]; [done|exfalso].
    assert (Z.log2 (a - 1) = Z.log2 a) as Hl1.
    { apply Z.log2_unique; lia. }
    assert (Z.testbit (Z.land a (a - 1)) (Z.log2 a) = true) as Hbit.
    { rewrite Z.land_spec, Z.bit_log2 by lia.
      rewrite <- Hl1 at 1. rewrite Z.bit_log2 by lia. done. }
    rewrite Hp, Z.bits_0 in Hbit. done.
Qed.

Lemma IsPowerOfTwo_pow2 k : 0 ≤ k < 64 → IsPowerOfTwo (2 ^ k) = true.
Proof.
  intros Hk. unfold IsPowerOfTwo.
  assert (0 < 2 ^ k < 2 ^ 64).
  { split; [lia|]. apply Z.pow_lt_mono_r; lia. }
  rewrite wrap_size_t_small by lia.
  apply Z.eqb_eq. replace (2 ^ k - 1) with (Z.ones k) by (rewrite Z.ones_equiv; lia).
  rewrite Z.land_ones by lia. apply Z.mod_same. lia.
Qed.

(** On a power of two the bit trick of [Align] rounds up to a multiple. *)
Lemma Align_pow2 val k :
  0 ≤ k → 0 ≤ val → val + 2 ^ k < 2 ^ 64 →
  Align val (2 ^ k) = Returns (2 ^ k * ((val + 2 ^ k - 1) / 2 ^ k)).
Proof.
  intros Hk Hv Hlt.
  assert (0 < 2 ^ k) by lia.
  assert (k < 64).
  { apply (Z.pow_lt_mono_r_iff 2); lia. }
  unfold Align. rewrite IsPowerOfTwo_pow2 by lia. simpl.
  unfold mret, outcome_ret. f_equal.
  rewrite (wrap_size_t_small (val + 2 ^ k)) by lia.
  rewrite (wrap_size_t_small (val + 2 ^ k - 1)) by lia.
  rewrite (wrap_size_t_small (2 ^ k - 1)) by lia.
  set (x := val + 2 ^ k - 1).
  unfold wrap_size_t. rewrite <- Z.land_ones by lia.
  rewrite (Z.land_comm (Z.lnot _)), Z.land_assoc.
  rewrite (Z.land_ones x) by lia. rewrite (Z.mod_small x) by (unfold x; lia).
  replace (2 ^ k - 1) with (Z.ones k) by (rewrite Z.ones_equiv; lia).
  rewrite <- Z.ldiff_land, Z.ldiff_ones_r by lia.
  rewrite Z.shiftl_mul_pow2, Z.shiftr_div_pow2 by lia. lia.
Qed.

Lemma Align_returns val al r :
  0 ≤ val < 2 ^ 62 → 0 < al < 2 ^ 62 → Align val al = Returns r →
  (al | r) ∧ val ≤ r < val + al.
Proof.
  intros Hv Ha HA.
  destruct (IsPowerOfTwo al) eqn:Hp.
  - apply IsPowerOfTwo_spec in Hp as (k & Hk & ->); [|lia].
    rewrite Align_pow2 in HA by lia. injection HA as <-.
    split; [by apply Z.divide_factor_l|].
    pose proof (Z.div_mod (val + 2 ^ k - 1) (2 ^ k) ltac:(lia)).
    pose proof (Z.mod_pos_bound (val + 2 ^ k - 1) (2 ^ k) ltac:(lia)). lia.
  - unfold Align in HA. rewrite Hp in HA. done.
Qed.

(** ** Sorting *)

Section insertion_sort_facts.
Context {A : Type} (less : A → A → bool).

Local Abbreviation not_after := (not_after less).

Lemma insert_sorted_Permutation x l : insert_sorted less x l ≡ₚ x :: l.
Proof.
  induction l as [|y l IH]; simpl; [done|].
  destruct (less x y); [done|]. rewrite IH. apply Permutation_swap.
Qed.

Lemma insertion_sort_Permutation l : insertion_sort less l ≡ₚ l.
Proof.
  induction l as [|x l IH]; simpl; [done|].
  rewrite insert_sorted_Permutation. by rewrite IH.
Qed.

Lemma elem_of_insertion_sort x l : x ∈ insertion_sort less l ↔ x ∈ l.
Proof. by rewrite insertion_sort_Permutation. Qed.

Lemma insertion_sort_length l : length (insertion_sort less l) = length l.
Proof. by rewrite insertion_sort_Permutation. Qed.

Section ordered.
Hypothesis less_asym : ∀ a b, less a b = true → less b a = false.
Hypothesis not_after_trans : ∀ a b c,
not_after a b → not_after b c → not_after a c.

Lemma insert_sorted_StronglySorted x l :
StronglySorted not_after l → StronglySorted not_after (insert_sorted less x l).
Proof.
induction 1 as [|y l Hl IH Hy]; simpl.
- repeat constructor.
- destruct (less x y) eqn:Hxy.
  + constructor; [by constructor|].
    assert (not_after x y) as Hna by by apply less_asym.
    constructor; [done|].
    eapply Forall_impl; [exact Hy|]. intros z Hz. by eapply not_after_trans.
  + constructor; [done|].
    rewrite insert_sorted_Permutation. by constructor.
Qed.

Lemma insertion_sort_StronglySorted l :
StronglySorted not_after (insertion_sort less l).
Proof.
induction l as [|x l IH]; simpl; [constructor|].
by apply insert_sorted_StronglySorted.
Qed.

(** Two ranges with the same elements, no two of which compare
  equivalent, sort to the same range. *)
Lemma insertion_sort_unique l1 l2 :
(∀ a b, a ∈ l1 → b ∈ l1 → less a b = false → less b a = false → a = b) →
l1 ≡ₚ l2 → insertion_sort less l1 = insertion_sort less l2.
Proof.
intros Hinj Hperm.
apply (StronglySorted_unique_strong not_after);
  [|apply insertion_sort_StronglySorted..|].
- intros a b Ha Hb Hab Hba.
  apply (proj1 (elem_of_insertion_sort _ _)) in Ha.
  apply (proj1 (elem_of_insertion_sort _ _)) in Hb.
  unfold not_after in Hab, Hba. apply Hinj; [done| |done..]. by rewrite Hperm.
- by rewrite !insertion_sort_Permutation.
Qed.
End ordered.

(** [std_sort] returns the sorted range when the comparator returns on
    every pair of elements of the range. *)
Lemma sort_insert_returns (comp : A → A → outcome bool) x l :
  (∀ b, b ∈ l → comp x b = Returns (less x b)) →
  sort_insert comp x l = Returns (insert_sorted less x l).
Proof.
  induction l as [|y l IH]; intros Hc; simpl; [done|].
  rewrite Hc by left. simpl. destruct (less x y); [done|].
  rewrite IH; [done|]. intros b Hb. apply Hc. by right.
Qed.

Lemma std_sort_returns (comp : A → A → outcome bool) l :
  (∀ a b, a ∈ l → b ∈ l → comp a b = Returns (less a b)) →
  std_sort comp l = Returns (insertion_sort less l).
Proof.
  induction l as [|x l IH]; intros Hc; simpl; [done|].
  rewrite IH by (intros; apply Hc; by right). simpl.
  apply sort_insert_returns. intros b Hb. apply Hc; [left|right].
  by apply (proj1 (elem_of_insertion_sort _ _)).
Qed.
End insertion_sort_facts.

(** Sorting commutes with a map that respects the comparators. *)
Lemma insert_sorted_fmap {A B} (f : A → B) lessA lessB x l :
  (∀ a b, lessB (f a) (f b) = lessA a b) →
  f <$> insert_sorted lessA x l = insert_sorted lessB (f x) (f <$> l).
Proof.
  intros Hf. induction l as [|y l IH]; simpl; [done|].
  rewrite Hf. destruct (lessA x y); simpl; [done|]. f_equal. apply IH.
Qed.

Lemma insertion_sort_fmap {A B} (f : A → B) lessA lessB l :
  (∀ a b, lessB (f a) (f b) = lessA a b) →
  f <$> insertion_sort lessA l = insertion_sort lessB (f <$> l).
Proof.
  intros Hf. induction l as [|x l IH]; [done|].
  change (f <$> insert_sorted lessA x (insertion_sort lessA l)
          = insert_sorted lessB (f x) (insertion_sort lessB (f <$> l))).
  rewrite <- IH. by apply insert_sorted_fmap.
Qed.

(** ** The three orders *)

Lemma NoDup_fmap_inj_on {A B} (f : A → B) l a b :
  NoDup (f <$> l) → a ∈ l → b ∈ l → f a = f b → a = b.
Proof.
  induction l as [|x l IH]; simpl; intros Hnd Ha Hb Hf; [by inv Ha|].
  apply NoDup_cons in Hnd as [Hx Hnd].
  inv Ha; inv Hb; [done| | |by apply IH].
  - exfalso. apply Hx. rewrite Hf. by apply list_elem_of_fmap_2.
  - exfalso. apply Hx. rewrite <- Hf. by apply list_elem_of_fmap_2.
Qed.

(** *** The order of [FieldLayoutRank] *)

Lemma layout_bucket_range f : 1 ≤ layout_bucket f ≤ 6.
Proof.
  unfold layout_bucket. case_bool_decide; [lia|].
  destruct (FieldDescriptor.cpp_type f); lia.
Qed.

Lemma lor_shiftl_29 b n :
  0 ≤ b → 0 ≤ n < 2 ^ 29 → Z.lor (Z.shiftl b 29) n = b * 2 ^ 29 + n.
Proof.
  intros Hb Hn. rewrite <- Z.add_lor_land, Z.shiftl_mul_pow2 by lia.
  assert (Z.land (b * 2 ^ 29) n = 0) as ->; [|lia].
  rewrite <- (Z.mod_small n (2 ^ 29)) by lia.
  rewrite <- Z.land_ones, (Z.land_comm n), Z.land_assoc, Z.land_ones by lia.
  rewrite Z.mod_mul by lia. apply Z.land_0_l.
Qed.

Lemma rank_key_eq f :
  0 ≤ FieldDescriptor.number f < 2 ^ 29 →
  rank_key f = layout_bucket f * 2 ^ 29 + FieldDescriptor.number f.
Proof.
  intros. unfold rank_key. pose proof (layout_bucket_range f).
  apply lor_shiftl_29; lia.
Qed.

Lemma FieldLayoutRank_returns f :
  FieldDescriptor.containing_oneof f = None →
  FieldLayoutRank f = Returns (rank_key f).
Proof.
  intros Hf. unfold FieldLayoutRank, rank_key. rewrite Hf. simpl.
  unfold mret, outcome_ret. do 2 f_equal.
  pose proof (layout_bucket_range f).
  assert (layout_bucket f ∈ [1; 2; 3; 4; 5; 6]) as Hb.
  { rewrite !elem_of_cons. lia. }
  rewrite !elem_of_cons in Hb.
  destruct Hb as [->|[->|[->|[->|[->|[->|Hb]]]]]]; [done..|by inv Hb].
Qed.

Lemma rank_less_returns a b :
  FieldDescriptor.containing_oneof a = None →
  FieldDescriptor.containing_oneof b = None →
  rank_less a b = Returns (rank_key a <? rank_key b).
Proof. intros Ha Hb. unfold rank_less. by rewrite !FieldLayoutRank_returns. Qed.

Lemma elem_of_non_oneof_fields d f :
  f ∈ non_oneof_fields d ↔
  f ∈ Descriptor.fields d ∧ FieldDescriptor.containing_oneof f = None.
Proof. unfold non_oneof_fields. rewrite list_elem_of_filter. tauto. Qed.

Lemma std_sort_rank_less d :
  std_sort rank_less (non_oneof_fields d) = Returns (field_order d).
Proof.
  apply std_sort_returns. intros a b Ha Hb.
  apply elem_of_non_oneof_fields in Ha as [_ Ha], Hb as [_ Hb].
  by apply rank_less_returns.
Qed.

Lemma field_order_Permutation d : field_order d ≡ₚ non_oneof_fields d.
Proof. apply insertion_sort_Permutation. Qed.

Lemma elem_of_field_order d f :
  f ∈ field_order d ↔
  f ∈ Descriptor.fields d ∧ FieldDescriptor.containing_oneof f = None.
Proof. by rewrite field_order_Permutation, elem_of_non_oneof_fields. Qed.

(** *** The hotness order *)

Lemma FieldHotnessOrder_returns d :
  FieldHotnessOrder d = Returns (hotness_order d).
Proof. by apply std_sort_returns. Qed.

Lemma hotness_order_Permutation d : hotness_order d ≡ₚ Descriptor.fields d.
Proof. apply insertion_sort_Permutation. Qed.

Lemma pair_less_asym a b : pair_less a b = true → pair_less b a = false.
Proof. destruct a as [[] ?], b as [[] ?]; unfold pair_less; simpl; lia. Qed.

Lemma pair_less_trans a b c :
  pair_less b a = false → pair_less c b = false → pair_less c a = false.
Proof.
  destruct a as [[] ?], b as [[] ?], c as [[] ?]; unfold pair_less; simpl; lia.
Qed.

Lemma pair_less_total a b :
  pair_less a b = false → pair_less b a = false → a = b.
Proof.
  destruct a as [[] ?], b as [[] ?]; unfold pair_less; simpl; intros;
    try lia; f_equal; lia.
Qed.

(** *** The order of [std::string] *)

Lemma String_compare_not_Gt_trans a b c :
  String.compare a b ≠ Gt → String.compare b c ≠ Gt → String.compare a c ≠ Gt.
Proof.
  revert b c. induction a as [|x a IH]; intros [|y b] [|z c]; simpl; try done.
  unfold Ascii.compare.
  destruct (N.compare_spec (N_of_ascii x) (N_of_ascii y)) as [Hxy|Hxy|Hxy];
    destruct (N.compare_spec (N_of_ascii y) (N_of_ascii z)) as [Hyz|Hyz|Hyz];
    destruct (N.compare_spec (N_of_ascii x) (N_of_ascii z)) as [Hxz|Hxz|Hxz];
    try done; try lia.
  apply IH.
Qed.

Lemma String_ltb_asym a b : String.ltb a b = true → String.ltb b a = false.
Proof.
  unfold String.ltb. rewrite (String.compare_antisym b a).
  by destruct (String.compare a b).
Qed.

Lemma String_ltb_trans a b c :
  String.ltb b a = false → String.ltb c b = false → String.ltb c a = false.
Proof.
  unfold String.ltb. intros Hba Hcb.
  pose proof (String_compare_not_Gt_trans a b c) as Htr.
  rewrite (String.compare_antisym b a) in Hba.
  rewrite (String.compare_antisym c b) in Hcb.
  rewrite (String.compare_antisym c a).
  destruct (String.compare a b), (String.compare b c), (String.compare a c);
    simpl in *; try done; exfalso; by apply Htr.
Qed.

Lemma String_ltb_total a b :
  String.ltb a b = false → String.ltb b a = false → a = b.
Proof.
  unfold String.ltb. rewrite (String.compare_antisym b a).
  destruct (String.compare a b) eqn:Hc; simpl; try done.
  intros _ _. by apply String.compare_eq_iff.
Qed.

Lemma std_sort_name_less l :
  std_sort name_less l
  = Returns (insertion_sort (λ a b, String.ltb (OneofDescriptor.full_name a)
                                               (OneofDescriptor.full_name b)) l).
Proof. by apply std_sort_returns. Qed.

Lemma oneof_order_Permutation d : oneof_order d ≡ₚ Descriptor.oneof_decls d.
Proof. apply insertion_sort_Permutation. Qed.

(** ** The bump allocator *)

Ltac unfold_M :=
  unfold mbind, M_bind, mret, M_ret, get, modify, lift in *.

Lemma Size_eq a b : size32 a = size32 b → size64 a = size64 b → a = b.
Proof. destruct a, b; simpl; congruence. Qed.

Lemma Size_le_refl a : Size_le a a.
Proof. unfold Size_le; lia. Qed.

Lemma Size_le_trans a b c : Size_le a b → Size_le b c → Size_le a c.
Proof. unfold Size_le; lia. Qed.

Lemma AlignUp_returns this al r :
  Size_in 0 (2 ^ 60) this → Size_in 1 (2 ^ 60) al →
  Size_.AlignUp this al = Returns r →
  Size_divides al r ∧ Size_le this r ∧ Size_lt r (Size_plus this al).
Proof.
  intros [H32 H64] [A32 A64] Hr. unfold Size_.AlignUp in Hr.
  rewrite !wrap_size_t_small in Hr by lia.
  destruct (Align (size32 this) (size32 al)) as [a32| | |] eqn:E32; try done.
  destruct (Align (size64 this) (size64 al)) as [a64| | |] eqn:E64; try done.
  apply Align_returns in E32 as [D32 R32]; [|lia..].
  apply Align_returns in E64 as [D64 R64]; [|lia..].
  simpl in Hr. injection Hr as <-.
  rewrite !wrap_int64_small by lia.
  unfold Size_divides, Size_le, Size_lt; simpl. repeat split; (done || lia).
Qed.

(** The state after [Place] has returned [offset] for a slot of [sz] bytes. *)
Lemma Place_unfold sa s :
  Place sa s =
  match Size_.AlignUp (size_ s) (align sa) with
  | Returns offset =>
      Returns (offset,
               Make (field_offsets_ s) (hasbit_indexes_ s) (oneof_case_offsets_ s)
                    (Size_.MaxFrom (maxalign_ s) (size sa))
                    (Size_.Add offset (size sa))
                    (hasbit_count_ s) (hasbit_bytes_ s) (required_count_ s))
  | Exits st msg => Exits st msg
  | Aborts msg => Aborts msg
  | AssertionFails => AssertionFails
  end.
Proof. unfold Place. unfold_M. by destruct (Size_.AlignUp _ _). Qed.

Lemma Place_returns sa s offset s' :
  Size_in 0 (2 ^ 60) (size_ s) →
  Size_in 1 (2 ^ 60) (align sa) →
  Size_in 0 (2 ^ 60) (size sa) →
  Place sa s = Returns (offset, s') →
  s' = Make (field_offsets_ s) (hasbit_indexes_ s) (oneof_case_offsets_ s)
            (Size_.MaxFrom (maxalign_ s) (size sa))
            (Size_plus offset (size sa))
            (hasbit_count_ s) (hasbit_bytes_ s) (required_count_ s)
  ∧ Size_divides (align sa) offset
  ∧ Size_le (size_ s) offset
  ∧ Size_lt offset (Size_plus (size_ s) (align sa)).
Proof.
  intros Hs Ha Hsz HP. rewrite Place_unfold in HP.
  destruct (Size_.AlignUp _ _) as [off| | |] eqn:EA; try done.
  injection HP as -> <-.
  apply AlignUp_returns in EA as (Hd & Hle & Hlt); [|done..].
  split; [|done]. f_equal.
  destruct Hs as [], Ha as [], Hsz as [], Hle as [], Hlt as []; simpl in *.
  unfold Size_.Add, Size_plus. f_equal; apply wrap_int64_small; lia.
Qed.

(** *** Shapes *)

Lemma SizeOf_shape f :
  Size_in 1 16 (size (SizeOf f)) ∧ Size_in 1 8 (align (SizeOf f)).
Proof.
  unfold SizeOf, SizeOfUnwrapped, Size_in.
  destruct (FieldDescriptor.is_repeated f); [simpl; lia|].
  destruct (FieldDescriptor.cpp_type f); simpl; lia.
Qed.

Lemma foldl_MaxFrom_shape acc l :
  Size_in 0 16 (size acc) → Size_in 0 8 (align acc) →
  let r := foldl (λ acc f, SizeAndAlign_.MaxFrom acc (SizeOf f)) acc l in
  Size_in 0 16 (size r) ∧ Size_in 0 8 (align r)
  ∧ Size_le (size acc) (size r) ∧ Size_le (align acc) (align r).
Proof.
  revert acc. induction l as [|f l IH]; intros acc Hs Ha; simpl.
  { unfold Size_le, Size_in in *. lia. }
  pose proof (SizeOf_shape f) as [Hfs Hfa].
  specialize (IH (SizeAndAlign_.MaxFrom acc (SizeOf f))).
  destruct IH as (? & ? & Hls & Hla).
  - unfold Size_in in *; simpl; lia.
  - unfold Size_in in *; simpl; lia.
  - do 2 (split; [done|]).
    unfold Size_le, Size_in in *; simpl in *. lia.
Qed.

Lemma oneof_maxsize_shape o :
  OneofDescriptor.fields o ≠ [] →
  Size_in 1 16 (size (oneof_maxsize o)) ∧ Size_in 1 8 (align (oneof_maxsize o)).
Proof.
  unfold oneof_maxsize. destruct (OneofDescriptor.fields o) as [|f l]; [done|].
  intros _. simpl.
  pose proof (SizeOf_shape f) as [Hfs Hfa].
  pose proof (foldl_MaxFrom_shape
    (SizeAndAlign_.MaxFrom (MkSizeAndAlign (MkSize 0 0) (MkSize 0 0)) (SizeOf f)) l)
    as H. simpl in H.
  destruct H as (? & ? & Hls & Hla).
  - unfold Size_in in *; simpl; lia.
  - unfold Size_in in *; simpl; lia.
  - unfold Size_le, Size_in in *; simpl in *. lia.
Qed.

(** *** Chains *)

Lemma chain_le lo items hi : chain lo items hi → Size_le lo hi.
Proof.
  revert lo. induction items as [|[off sz] items IH]; intros lo; simpl; [done|].
  intros (Hlo & Hsz & Hc). apply IH in Hc.
  unfold Size_le, Size_plus in *; simpl in *. lia.
Qed.

Lemma chain_weaken lo lo' items hi hi' :
  Size_le lo' lo → Size_le hi hi' → chain lo items hi → chain lo' items hi'.
Proof.
  revert lo lo'. induction items as [|[off sz] items IH]; intros lo lo'; simpl.
  - unfold Size_le; lia.
  - intros Hlo Hhi (H1 & H2 & H3). split; [by eapply Size_le_trans|].
    split; [done|]. eapply IH; [apply Size_le_refl|done..].
Qed.

Lemma chain_app lo l1 mid l2 hi :
  chain lo l1 mid → chain mid l2 hi → chain lo (l1 ++ l2) hi.
Proof.
  revert lo. induction l1 as [|[off sz] l1 IH]; intros lo; simpl.
  - intros. eapply chain_weaken; [done|apply Size_le_refl|done].
  - intros (H1 & H2 & H3) Hc. eauto.
Qed.

Lemma chain_lookup lo items hi i off sz :
  chain lo items hi → items !! i = Some (off, sz) →
  Size_le lo off ∧ Size_le (MkSize 0 0) sz ∧ Size_le (Size_plus off sz) hi.
Proof.
  revert lo i. induction items as [|[off' sz'] items IH]; intros lo i; [done|].
  simpl. intros (H1 & H2 & H3). destruct i as [|i]; simpl.
  - intros [= -> ->]. apply chain_le in H3. done.
  - intros Hi. destruct (IH _ _ H3 Hi) as (? & ? & ?).
    split; [|done]. unfold Size_le, Size_plus in *; simpl in *. lia.
Qed.

(** Two items of a chain do not overlap: the earlier one ends before the
    later one starts. *)
Lemma chain_ordered lo items hi i j o1 s1 o2 s2 :
  chain lo items hi → (i < j)%nat →
  items !! i = Some (o1, s1) → items !! j = Some (o2, s2) →
  Size_le (Size_plus o1 s1) o2.
Proof.
  revert lo i j. induction items as [|[off' sz'] items IH]; intros lo i j; [done|].
  simpl. intros (H1 & H2 & H3) Hij. destruct j as [|j]; [lia|].
  destruct i as [|i]; simpl.
  - intros [= -> ->] Hj. by destruct (chain_lookup _ _ _ _ _ _ H3 Hj).
  - intros Hi Hj. eapply IH; [done| |done..]. lia.
Qed.

(** ** Placing the fields outside oneofs *)

Lemma place_field_returns f s s' :
  Size_in 0 (2 ^ 60) (size_ s) →
  place_field f s = Returns (tt, s') →
  ∃ offset,
    s' = Make (<[FieldDescriptor.addr f := offset]> (field_offsets_ s))
              (hasbit_indexes_ s) (oneof_case_offsets_ s)
              (Size_.MaxFrom (maxalign_ s) (size (SizeOf f)))
              (Size_plus offset (size (SizeOf f)))
              (hasbit_count_ s) (hasbit_bytes_ s) (required_count_ s)
    ∧ Size_divides (align (SizeOf f)) offset
    ∧ Size_le (size_ s) offset
    ∧ Size_lt offset (Size_plus (size_ s) (align (SizeOf f))).
Proof.
  intros Hs Hp. unfold place_field in Hp. unfold_M.
  destruct (Place (SizeOf f) s) as [[off s1]| | |] eqn:EP; try done.
  injection Hp as <-.
  pose proof (SizeOf_shape f) as [Hsz Hal].
  apply Place_returns in EP as (-> & Hd & Hle & Hlt); [|done|..].
  - by exists off.
  - unfold Size_in in *; lia.
  - unfold Size_in in *; lia.
Qed.

Lemma place_fields_returns l : ∀ s s' B,
  NoDup (FieldDescriptor.addr <$> l) →
  Size_in 0 B (size_ s) → B + 32 * Z.of_nat (length l) ≤ 2 ^ 60 →
  for_each l place_field s = Returns (tt, s') →
  ∃ fo ma sz,
    s' = Make fo (hasbit_indexes_ s) (oneof_case_offsets_ s) ma sz
              (hasbit_count_ s) (hasbit_bytes_ s) (required_count_ s)
    ∧ chain (size_ s) (field_item s' <$> l) sz
    ∧ Size_in 0 (B + 32 * Z.of_nat (length l)) sz
    ∧ (∀ k, k ∉ FieldDescriptor.addr <$> l → fo !! k = field_offsets_ s !! k)
    ∧ (∀ f, f ∈ l → is_Some (fo !! FieldDescriptor.addr f))
    ∧ (∀ f, f ∈ l → Size_divides (align (SizeOf f)) (field_offset s' f))
    ∧ Size_le (maxalign_ s) ma
    ∧ Size_le ma (Size_.MaxFrom (maxalign_ s) (MkSize 16 16)).
Proof.
  induction l as [|f l IH]; intros s s' B Hnd Hs HB Hrun.
  { injection Hrun as <-. exists (field_offsets_ s), (maxalign_ s), (size_ s).
    split; [by destruct s|]. split; [apply Size_le_refl|].
    split; [unfold Size_in in *; simpl in *; lia|]. split; [done|].
    split; [intros f Hf; by inv Hf|]. split; [intros f Hf; by inv Hf|].
    unfold Size_le; simpl; lia. }
  rewrite fmap_cons in Hnd. apply NoDup_cons in Hnd as [Hf Hnd].
  simpl in Hrun. unfold mbind at 1 in Hrun. unfold M_bind in Hrun.
  destruct (place_field f s) as [[[] s1]| | |] eqn:E1; try done.
  rewrite length_cons, Nat2Z.inj_succ in *.
  pose proof (SizeOf_shape f) as [Hsz Hal].
  apply place_field_returns in E1 as (off & -> & Hd & Hle & Hlt);
    [|unfold Size_in in *; lia].
  eapply (IH _ _ (B + 32)) in Hrun as (fo & ma & sz & -> & Hch & Hsz' & Hfr & Hin & Hdiv & Hma1 & Hma2);
    [|done| |lia].
  2:{ unfold Size_in, Size_le, Size_lt, Size_plus in *; simpl in *. lia. }
  simpl in Hch, Hsz', Hfr, Hin, Hdiv, Hma1, Hma2.
  exists fo, ma, sz.
  assert (fo !! FieldDescriptor.addr f = Some off) as Hoff.
  { rewrite (Hfr _ Hf). apply lookup_insert_eq. }
  split; [done|].
  match goal with |- chain _ (field_item ?S <$> _) _ ∧ _ => set (L := S) in * end.
  assert (field_offset L f = off) as Hfo.
  { unfold field_offset, L. simpl. by rewrite Hoff. }
  split.
  { rewrite fmap_cons.
    change (field_item L f) with (field_offset L f, size (SizeOf f)).
    cbn [chain]. rewrite Hfo.
    split; [apply Hle|]. split; [|apply Hch].
    unfold Size_in, Size_le in *; simpl; lia. }
  split; [unfold Size_in in *; lia|].
  split.
  { intros k Hk. apply not_elem_of_cons in Hk as [Hk1 Hk2].
    rewrite Hfr by done. by apply lookup_insert_ne. }
  split.
  { intros g Hg. inv Hg; [by rewrite Hoff|by apply Hin]. }
  split.
  { intros g Hg. inv Hg; [|by apply Hdiv]. by rewrite Hfo. }
  unfold Size_in, Size_le in *; simpl in *. lia.
Qed.

(** ** Placing the oneofs *)

Lemma set_members_returns (data : Size) l : ∀ s,
  for_each l (λ field,
    modify (λ s, set_field_offsets_
                   (<[FieldDescriptor.addr field := data]> (field_offsets_ s)) s)) s
  = Returns (tt, set_field_offsets_
                   (foldl (λ m f, <[FieldDescriptor.addr f := data]> m)
                          (field_offsets_ s) l) s).
Proof.
  induction l as [|f l IH]; intros s; simpl.
  { by destruct s. }
  unfold mbind at 1. unfold M_bind, modify at 1. by rewrite IH.
Qed.

Lemma lookup_foldl_insert (data : Size) l : ∀ (m : gmap N Size) k,
  foldl (λ m f, <[FieldDescriptor.addr f := data]> m) m l !! k
  = if decide (k ∈ FieldDescriptor.addr <$> l) then Some data else m !! k.
Proof.
  induction l as [|f l IH]; intros m k; cbn [foldl].
  { destruct (decide _) as [Hk|]; [by inv Hk|done]. }
  rewrite IH. rewrite fmap_cons.
  destruct (decide (k = FieldDescriptor.addr f)) as [->|Hne].
  - rewrite lookup_insert_eq.
    destruct (decide (_ ∈ _ :: _)) as [|Hn]; [by destruct (decide _)|].
    exfalso. apply Hn. left.
  - rewrite lookup_insert_ne by done.
    destruct (decide (k ∈ FieldDescriptor.addr <$> l)) as [Hin|Hnin],
             (decide (k ∈ _ :: _)) as [Hc|Hnc]; try done; exfalso.
    + apply Hnc. by right.
    + apply Hnin. by inv Hc.
Qed.

Lemma place_oneof_returns o s s' :
  Size_in 0 (2 ^ 60 - 32) (size_ s) →
  OneofDescriptor.fields o ≠ [] →
  place_oneof o s = Returns (tt, s') →
  ∃ data disc,
    s' = Make (foldl (λ m f, <[FieldDescriptor.addr f := data]> m)
                     (field_offsets_ s) (OneofDescriptor.fields o))
              (hasbit_indexes_ s)
              (<[OneofDescriptor.addr o := disc]> (oneof_case_offsets_ s))
              (Size_.MaxFrom (Size_.MaxFrom (maxalign_ s) (size (oneof_maxsize o)))
                             (MkSize 4 4))
              (Size_plus disc (MkSize 4 4))
              (hasbit_count_ s) (hasbit_bytes_ s) (required_count_ s)
    ∧ Size_divides (align (oneof_maxsize o)) data
    ∧ Size_le (size_ s) data
    ∧ Size_lt data (Size_plus (size_ s) (align (oneof_maxsize o)))
    ∧ Size_divides (MkSize 4 4) disc
    ∧ Size_le (Size_plus data (size (oneof_maxsize o))) disc
    ∧ Size_lt disc (Size_plus (Size_plus data (size (oneof_maxsize o))) (MkSize 4 4)).
Proof.
  intros Hs Hne Hp. unfold place_oneof in Hp.
  pose proof (oneof_maxsize_shape o Hne) as [Hsz Hal].
  unfold mbind at 1 in Hp. unfold M_bind in Hp.
  destruct (Place (oneof_maxsize o) s) as [[data s1]| | |] eqn:E1; try done.
  apply Place_returns in E1 as (-> & Hd1 & Hle1 & Hlt1);
    [|unfold Size_in in *; lia..].
  unfold mbind at 1 in Hp.
  destruct (Place _ _) as [[disc s2]| | |] eqn:E2; try done.
  apply Place_returns in E2 as (-> & Hd2 & Hle2 & Hlt2); simpl in *.
  2-4: unfold Size_in, Size_le, Size_lt, Size_plus in *; simpl in *; lia.
  unfold mbind at 1 in Hp. unfold modify at 1 in Hp.
  rewrite set_members_returns in Hp. injection Hp as <-.
  by exists data, disc.
Qed.

Lemma place_oneofs_returns l : ∀ s s' B,
  NoDup (OneofDescriptor.addr <$> l) →
  NoDup (l ≫= member_addrs) →
  Forall (λ o, OneofDescriptor.fields o ≠ []) l →
  Size_in 0 B (size_ s) → B + 32 * Z.of_nat (length l) ≤ 2 ^ 60 →
  for_each l place_oneof s = Returns (tt, s') →
  ∃ fo co ma sz,
    s' = Make fo (hasbit_indexes_ s) co ma sz
              (hasbit_count_ s) (hasbit_bytes_ s) (required_count_ s)
    ∧ chain (size_ s) (l ≫= oneof_items s') sz
    ∧ Size_in 0 (B + 32 * Z.of_nat (length l)) sz
    ∧ (∀ k, k ∉ l ≫= member_addrs → fo !! k = field_offsets_ s !! k)
    ∧ (∀ k, k ∉ OneofDescriptor.addr <$> l → co !! k = oneof_case_offsets_ s !! k)
    ∧ (∀ o f, o ∈ l → f ∈ OneofDescriptor.fields o →
         fo !! FieldDescriptor.addr f = Some (data_offset s' o))
    ∧ (∀ o, o ∈ l → is_Some (co !! OneofDescriptor.addr o))
    ∧ (∀ o, o ∈ l →
         Size_divides (align (oneof_maxsize o)) (data_offset s' o)
         ∧ Size_divides (MkSize 4 4) (case_offset s' o)
         ∧ Size_lt (case_offset s' o)
             (Size_plus (Size_plus (data_offset s' o) (size (oneof_maxsize o)))
                        (MkSize 4 4)))
    ∧ Size_le (maxalign_ s) ma
    ∧ Size_le ma (Size_.MaxFrom (maxalign_ s) (MkSize 16 16)).
Proof.
  induction l as [|o l IH]; intros s s' B Hnd Hmem Hne Hs HB Hrun.
  { injection Hrun as <-.
    exists (field_offsets_ s), (oneof_case_offsets_ s), (maxalign_ s), (size_ s).
    split; [by destruct s|]. split; [apply Size_le_refl|].
    split; [unfold Size_in in *; simpl in *; lia|]. do 2 (split; [done|]).
    split; [intros o f Ho; by inv Ho|]. do 2 (split; [intros o Ho; by inv Ho|]).
    unfold Size_le; simpl; lia. }
  rewrite fmap_cons in Hnd. apply NoDup_cons in Hnd as [Ho Hnd].
  rewrite bind_cons in Hmem. apply NoDup_app in Hmem as (Hm1 & Hm2 & Hm3).
  apply Forall_cons in Hne as [Hne1 Hne].
  simpl in Hrun. unfold mbind at 1 in Hrun. unfold M_bind in Hrun.
  destruct (place_oneof o s) as [[[] s1]| | |] eqn:E1; try done.
  rewrite length_cons, Nat2Z.inj_succ in *.
  pose proof (oneof_maxsize_shape o Hne1) as [Hsz Hal].
  apply place_oneof_returns in E1
    as (data & disc & -> & Hd1 & Hle1 & Hlt1 & Hd2 & Hle2 & Hlt2);
    [|unfold Size_in in *; lia|done].
  eapply (IH _ _ (B + 32)) in Hrun
    as (fo & co & ma & sz & -> & Hch & Hsz' & Hfr & Hcfr & Hdat & Hcs & Hal' & Hma1 & Hma2);
    [|done..| |lia].
  2:{ unfold Size_in, Size_le, Size_lt, Size_plus in *; simpl in *. lia. }
  simpl in Hch, Hsz', Hfr, Hcfr, Hdat, Hcs, Hal', Hma1, Hma2.
  exists fo, co, ma, sz.
  split; [done|].
  match goal with |- chain _ (_ ≫= oneof_items ?S) _ ∧ _ => set (L := S) in * end.
  assert (∀ f, f ∈ OneofDescriptor.fields o →
               fo !! FieldDescriptor.addr f = Some data) as Hmine.
  { intros f Hf. rewrite Hfr.
    - rewrite lookup_foldl_insert. rewrite decide_True; [done|].
      by apply list_elem_of_fmap_2.
    - apply Hm2. by apply list_elem_of_fmap_2. }
  assert (data_offset L o = data) as Hdata.
  { unfold data_offset. destruct (OneofDescriptor.fields o) as [|f0 fs] eqn:Ef; [done|].
    simpl. unfold field_offset, L. simpl. rewrite Hmine; [done|left]. }
  assert (co !! OneofDescriptor.addr o = Some disc) as Hdisc.
  { rewrite Hcfr by done. apply lookup_insert_eq. }
  assert (case_offset L o = disc) as Hcase.
  { unfold case_offset, L. simpl. by rewrite Hdisc. }
  split.
  { rewrite bind_cons. unfold oneof_items at 1. rewrite Hdata, Hcase.
    cbn [app chain]. split; [done|].
    split; [unfold Size_in, Size_le in *; simpl; lia|].
    split; [done|]. split; [unfold Size_le; simpl; lia|done]. }
  split; [unfold Size_in in *; lia|].
  split.
  { intros k Hk. rewrite bind_cons in Hk. apply not_elem_of_app in Hk as [Hk1 Hk2].
    rewrite Hfr by done. rewrite lookup_foldl_insert. by rewrite decide_False. }
  split.
  { intros k Hk. apply not_elem_of_cons in Hk as [Hk1 Hk2].
    rewrite Hcfr by done. by apply lookup_insert_ne. }
  split.
  { intros o' f Ho' Hf. inv Ho'; [|by eapply Hdat].
    rewrite Hdata. by apply Hmine. }
  split.
  { intros o' Ho'. inv Ho'; [by rewrite Hdisc|by apply Hcs]. }
  split.
  { intros o' Ho'. inv Ho'; [|by apply Hal'].
    rewrite Hdata, Hcase. done. }
  unfold Size_in, Size_le in *; simpl in *. lia.
Qed.

(** ** Assigning the hasbits *)

Ltac simpl_state :=
  unfold set_field_offsets_, set_hasbit_indexes_, set_oneof_case_offsets_,
    set_maxalign_, set_size_, set_hasbit_count_, set_hasbit_bytes_,
    set_required_count_ in *;
  cbn [field_offsets_ hasbit_indexes_ oneof_case_offsets_ maxalign_ size_
       hasbit_count_ hasbit_bytes_ required_count_] in *.

Lemma assign_hasbit_unfold d f s :
  assign_hasbit d f s =
  if HasHasbit d f then
    let index := wrap_int (hasbit_count_ s + 1) in
    let s1 := Make (field_offsets_ s)
                   (<[FieldDescriptor.addr f := index]> (hasbit_indexes_ s))
                   (oneof_case_offsets_ s) (maxalign_ s) (size_ s)
                   index (hasbit_bytes_ s) (required_count_ s) in
    if FieldDescriptor.is_required f then
      if 63 <? index then Exits 1 (too_many_required f)
      else Returns (tt, set_required_count_ (wrap_int (required_count_ s + 1)) s1)
    else Returns (tt, s1)
  else Returns (tt, s).
Proof.
  unfold assign_hasbit. destruct (HasHasbit d f); [|done].
  unfold_M. simpl. destruct (FieldDescriptor.is_required f); [|done].
  by destruct (63 <? _).
Qed.

Lemma hasbit_loop_spec d l : ∀ s,
  0 ≤ hasbit_count_ s →
  hasbit_count_ s + Z.of_nat (length l) < 2 ^ 31 →
  0 ≤ required_count_ s ≤ hasbit_count_ s →
  let tracked := filter (λ f, HasHasbit d f = true) l in
  for_each l (assign_hasbit d) s =
  match first_overflow (hasbit_count_ s) tracked with
  | Some f => Exits 1 (too_many_required f)
  | None =>
      Returns (tt, Make (field_offsets_ s)
                        (assign_indexes (hasbit_count_ s) tracked (hasbit_indexes_ s))
                        (oneof_case_offsets_ s) (maxalign_ s) (size_ s)
                        (hasbit_count_ s + Z.of_nat (length tracked))
                        (hasbit_bytes_ s)
                        (required_count_ s + Z.of_nat (length
                           (filter (λ f, FieldDescriptor.is_required f = true)
                                   tracked))))
  end.
Proof.
  induction l as [|f l IH]; intros s Hc Hlen Hr; cbn zeta.
  { simpl. unfold mret, M_ret. rewrite !Z.add_0_r. by destruct s. }
  rewrite length_cons, Nat2Z.inj_succ in Hlen.
  cbn [for_each]. unfold mbind, M_bind. rewrite assign_hasbit_unfold.
  rewrite filter_cons.
  destruct (HasHasbit d f) eqn:Hh.
  2:{ rewrite decide_False by done. apply IH; lia. }
  rewrite decide_True by done. cbn zeta. cbn [first_overflow assign_indexes].
  rewrite (wrap_int_small (hasbit_count_ s + 1)) by lia.
  rewrite filter_cons.
  destruct (FieldDescriptor.is_required f) eqn:Hreq.
  - rewrite decide_True by done. cbn [andb].
    destruct (63 <? hasbit_count_ s + 1) eqn:H63; [done|].
    rewrite (wrap_int_small (required_count_ s + 1)) by lia.
    rewrite IH; simpl_state; [|lia..].
    destruct (first_overflow _ _); [done|].
    rewrite !length_cons, !Nat2Z.inj_succ. do 3 f_equal; lia.
  - rewrite decide_False by done. cbn [andb].
    rewrite IH; simpl_state; [|lia..].
    destruct (first_overflow _ _); [done|].
    rewrite !length_cons, !Nat2Z.inj_succ. do 3 f_equal; lia.
Qed.

(** The indices entered for the tracked fields are consecutive. *)
Lemma lookup_assign_indexes tracked : ∀ index (m : gmap N Z),
  NoDup (FieldDescriptor.addr <$> tracked) →
  (∀ i f, tracked !! i = Some f →
     assign_indexes index tracked m !! FieldDescriptor.addr f
     = Some (index + Z.of_nat i + 1))
  ∧ (∀ k, k ∉ FieldDescriptor.addr <$> tracked →
     assign_indexes index tracked m !! k = m !! k).
Proof.
  induction tracked as [|f l IH]; intros index m Hnd; simpl.
  { split; [done|done]. }
  rewrite fmap_cons in Hnd. apply NoDup_cons in Hnd as [Hf Hnd].
  destruct (IH (index + 1) (<[FieldDescriptor.addr f := index + 1]> m) Hnd)
    as [IH1 IH2].
  split.
  - intros [|i] g; simpl.
    + intros [= <-]. rewrite IH2 by done. rewrite lookup_insert_eq. f_equal. lia.
    + intros Hg. rewrite (IH1 _ _ Hg). f_equal. lia.
  - intros k Hk. apply not_elem_of_cons in Hk as [Hk1 Hk2].
    rewrite IH2 by done. by apply lookup_insert_ne.
Qed.

(** *** Required fields come first in the hotness order *)

Local Abbreviation hot_less :=
  (λ a b, pair_less (hotness_key a) (hotness_key b)).

Lemma hotness_order_StronglySorted d :
  StronglySorted (not_after hot_less) (hotness_order d).
Proof.
  apply insertion_sort_StronglySorted.
  - intros a b. apply pair_less_asym.
  - intros a b c. unfold not_after. apply pair_less_trans.
Qed.

Lemma required_first_split l :
  StronglySorted (not_after hot_less) l →
  ∃ rs os, l = rs ++ os
    ∧ Forall (λ f, FieldDescriptor.is_required f = true) rs
    ∧ Forall (λ f, FieldDescriptor.is_required f = false) os.
Proof.
  induction 1 as [|x l Hl (rs & os & -> & Hrs & Hos) Hx].
  { by exists [], []. }
  destruct (FieldDescriptor.is_required x) eqn:Hreq.
  - exists (x :: rs), os. by repeat constructor.
  - exists [], (x :: rs ++ os). split; [done|]. split; [constructor|].
    constructor; [done|].
    eapply Forall_impl; [exact Hx|]. intros y Hy. unfold not_after in Hy.
    unfold hotness_key, pair_less in Hy. rewrite Hreq in Hy. simpl in Hy.
    destruct (FieldDescriptor.is_required y); [|done]. done.
Qed.

Lemma first_overflow_optional l index :
  Forall (λ f, FieldDescriptor.is_required f = false) l →
  first_overflow index l = None.
Proof.
  intros Hl. revert index. induction Hl as [|f l Hf Hl IH]; intros index; [done|].
  simpl. rewrite Hf. simpl. apply IH.
Qed.

Lemma first_overflow_required_first rs os : ∀ index,
  Forall (λ f, FieldDescriptor.is_required f = true) rs →
  Forall (λ f, FieldDescriptor.is_required f = false) os →
  0 ≤ index ≤ 63 →
  first_overflow index (rs ++ os) = rs !! Z.to_nat (63 - index).
Proof.
  induction rs as [|r rs IH]; intros index Hrs Hos Hi.
  { simpl. by apply first_overflow_optional. }
  apply Forall_cons in Hrs as [Hr Hrs]. simpl. rewrite Hr. simpl.
  destruct (63 <? index + 1) eqn:H63.
  - assert (index = 63) as -> by lia. done.
  - rewrite IH by (done || lia).
    replace (Z.to_nat (63 - index)) with (S (Z.to_nat (63 - (index + 1)))) by lia.
    done.
Qed.

Lemma filter_required_first rs os :
  Forall (λ f, FieldDescriptor.is_required f = true) rs →
  Forall (λ f, FieldDescriptor.is_required f = false) os →
  filter (λ f, FieldDescriptor.is_required f = true) (rs ++ os) = rs.
Proof.
  intros Hrs Hos. induction Hrs as [|r rs Hr Hrs IH]; simpl.
  - induction Hos as [|o os Ho Hos IH]; [done|].
    rewrite filter_cons_False; [done|]. by rewrite Ho.
  - rewrite filter_cons_True by done. by rewrite IH.
Qed.

Lemma tracked_fields_split d :
  ∃ rs os, tracked_fields d = rs ++ os
    ∧ Forall (λ f, FieldDescriptor.is_required f = true) rs
    ∧ Forall (λ f, FieldDescriptor.is_required f = false) os.
Proof.
  destruct (required_first_split _ (hotness_order_StronglySorted d))
    as (rs & os & Heq & Hrs & Hos).
  exists (filter (λ f, HasHasbit d f = true) rs),
         (filter (λ f, HasHasbit d f = true) os).
  unfold tracked_fields. rewrite Heq, filter_app.
  split; [done|].
  split; apply Forall_forall; intros f Hf;
    apply list_elem_of_filter in Hf as [_ Hf];
    revert f Hf; by apply Forall_forall.
Qed.

(** The loop exits at the 64th required field that gets a hasbit. *)
Lemma first_overflow_tracked d :
  first_overflow 0 (tracked_fields d) = tracked_required d !! 63%nat.
Proof.
  destruct (tracked_fields_split d) as (rs & os & Heq & Hrs & Hos).
  unfold tracked_required. rewrite Heq.
  rewrite filter_required_first by done.
  by rewrite first_overflow_required_first.
Qed.

(** ** The layout of an ordinary message *)

Lemma M_bind_modify {B} f (k : unit → M B) s : (modify f ≫= k) s = k tt (f s).
Proof. done. Qed.

Lemma M_bind_get {A B} (member : t → A) (k : A → M B) s :
  (get member ≫= k) s = k (member s) s.
Proof. done. Qed.

Lemma M_bind_lift {A B} (a : A) (k : A → M B) s :
  (lift (Returns a) ≫= k) s = k a s.
Proof. done. Qed.

Lemma M_bind_run {A B} (m : M A) (k : A → M B) s :
  (m ≫= k) s =
  match m s with
  | Returns (a, s') => k a s'
  | Exits st msg => Exits st msg
  | Aborts msg => Aborts msg
  | AssertionFails => AssertionFails
  end.
Proof. done. Qed.

Lemma DivRoundUp_8 n :
  0 ≤ n < 2 ^ 31 → DivRoundUp n 8 = Returns (Z.quot (n + 7) 8).
Proof.
  intros Hn. unfold DivRoundUp.
  replace (0 <=? n) with true by lia. simpl.
  unfold mret, outcome_ret. f_equal.
  rewrite (wrap_int64_small (n + 8)) by lia.
  rewrite wrap_int64_small by lia. f_equal. lia.
Qed.

Lemma hasbit_bytes_of_range d :
  Z.of_nat (length (Descriptor.fields d)) < 2 ^ 31 →
  0 ≤ hasbit_bytes_of d < 2 ^ 29
  ∧ 8 * (hasbit_bytes_of d - 1) < Z.of_nat (length (tracked_fields d))
    ≤ 8 * hasbit_bytes_of d.
Proof.
  intros Hlen. unfold hasbit_bytes_of.
  assert (length (tracked_fields d) ≤ length (Descriptor.fields d))%nat as Hle.
  { unfold tracked_fields. etrans; [apply length_filter|].
    unfold hotness_order. by rewrite insertion_sort_length. }
  assert (0 ≤ Z.of_nat (length (tracked_fields d)) < 2 ^ 31) by lia.
  clear Hle. revert H. generalize (Z.of_nat (length (tracked_fields d))).
  intros n Hn.
  rewrite Z.quot_div_nonneg by lia.
  pose proof (Z.div_mod (n + 7) 8 ltac:(lia)).
  pose proof (Z.mod_pos_bound (n + 7) 8 ltac:(lia)). lia.
Qed.

Lemma Place_hasbits s bytes :
  size_ s = MkSize 0 0 → 0 ≤ bytes < 2 ^ 62 →
  Place (MkSizeAndAlign (MkSize bytes bytes) (MkSize 1 1)) s
  = Returns (MkSize 0 0,
             Make (field_offsets_ s) (hasbit_indexes_ s) (oneof_case_offsets_ s)
                  (Size_.MaxFrom (maxalign_ s) (MkSize bytes bytes))
                  (MkSize bytes bytes)
                  (hasbit_count_ s) (hasbit_bytes_ s) (required_count_ s)).
Proof.
  intros Hs Hb. rewrite Place_unfold, Hs.
  change (Size_.AlignUp (MkSize 0 0) (align (MkSizeAndAlign (MkSize bytes bytes) (MkSize 1 1))))
    with (Returns (A:=Size) (MkSize 0 0)).
  do 3 f_equal. unfold Size_.Add. simpl.
  rewrite wrap_int64_small by lia. done.
Qed.

Lemma PlaceNonOneofFields_unfold d s :
  Z.of_nat (length (Descriptor.fields d)) < 2 ^ 31 →
  size_ s = MkSize 0 0 → maxalign_ s = MkSize 8 8 →
  PlaceNonOneofFields d s =
  match tracked_required d !! 63%nat with
  | Some f => Exits 1 (too_many_required f)
  | None => for_each (field_order d) place_field (after_hasbits d s)
  end.
Proof.
  intros Hlen Hsz Hma. unfold PlaceNonOneofFields.
  change (filter _ (Descriptor.fields d)) with (non_oneof_fields d).
  rewrite std_sort_rank_less, FieldHotnessOrder_returns.
  rewrite M_bind_lift, !M_bind_modify, M_bind_lift, M_bind_run.
  assert (length (hotness_order d) = length (Descriptor.fields d)) as Hhot.
  { unfold hotness_order. by rewrite insertion_sort_length. }
  rewrite hasbit_loop_spec; simpl_state; [|lia..].
  fold (tracked_fields d). rewrite first_overflow_tracked.
  destruct (tracked_required d !! 63%nat) as [f|]; [done|].
  pose proof (hasbit_bytes_of_range d Hlen) as [Hb _].
  assert (length (tracked_fields d) ≤ length (Descriptor.fields d))%nat as Hle.
  { unfold tracked_fields. etrans; [apply length_filter|]. by rewrite Hhot. }
  rewrite M_bind_get. simpl_state.
  rewrite !Z.add_0_l, DivRoundUp_8 by lia. fold (hasbit_bytes_of d).
  rewrite M_bind_lift, M_bind_modify, M_bind_get. simpl_state.
  rewrite (wrap_int_small (hasbit_bytes_of d)) by lia.
  rewrite M_bind_run, Place_hasbits; simpl_state; [|done|lia].
  by rewrite Hma.
Qed.

Lemma ComputeLayout_ordinary d s0 :
  Descriptor.map_entry d = false →
  Z.of_nat (length (Descriptor.fields d)) < 2 ^ 31 →
  ComputeLayout d s0 =
  match tracked_required d !! 63%nat with
  | Some f => Exits 1 (too_many_required f)
  | None =>
      (for_each (field_order d) place_field ;;
       for_each (oneof_order d) place_oneof ;;
       align_overall_size) (after_hasbits d s0)
  end.
Proof.
  intros Hme Hlen. unfold ComputeLayout. rewrite Hme.
  rewrite !M_bind_modify, M_bind_run, M_bind_run.
  rewrite PlaceNonOneofFields_unfold by done.
  destruct (tracked_required d !! 63%nat) as [f|]; [done|].
  rewrite (M_bind_run (for_each _ place_field)).
  unfold after_hasbits. simpl_state.
  destruct (for_each (field_order d) place_field _) as [[[] s3]| | |]; try done.
  unfold PlaceOneofFields. rewrite std_sort_name_less. fold (oneof_order d).
  rewrite M_bind_lift. by rewrite (M_bind_run (for_each _ place_oneof)).
Qed.

(** ** Placement never exits *)

Lemma AlignUp_returns_or_asserts this al :
  returns_or_asserts (Size_.AlignUp this al).
Proof.
  unfold Size_.AlignUp, Align.
  destruct (IsPowerOfTwo (wrap_size_t (size32 al))); [|done].
  by destruct (IsPowerOfTwo (wrap_size_t (size64 al))).
Qed.

Lemma M_bind_returns_or_asserts {A B} (m : M A) (k : A → M B) s :
  returns_or_asserts (m s) → (∀ a s', returns_or_asserts (k a s')) →
  returns_or_asserts ((m ≫= k) s).
Proof. intros Hm Hk. rewrite M_bind_run. by destruct (m s) as [[a s']| | |]. Qed.

Lemma Place_returns_or_asserts sa s : returns_or_asserts (Place sa s).
Proof.
  rewrite Place_unfold. pose proof (AlignUp_returns_or_asserts (size_ s) (align sa)).
  by destruct (Size_.AlignUp _ _).
Qed.

Lemma for_each_returns_or_asserts {A} (body : A → M unit) l :
  (∀ x s, returns_or_asserts (body x s)) →
  ∀ s, returns_or_asserts (for_each l body s).
Proof.
  intros Hb. induction l as [|x l IH]; intros s; [done|].
  apply M_bind_returns_or_asserts; [apply Hb|]. intros _. apply IH.
Qed.

Lemma place_field_returns_or_asserts f s : returns_or_asserts (place_field f s).
Proof.
  apply M_bind_returns_or_asserts; [apply Place_returns_or_asserts|done].
Qed.

Lemma place_oneof_returns_or_asserts o s : returns_or_asserts (place_oneof o s).
Proof.
  apply M_bind_returns_or_asserts; [apply Place_returns_or_asserts|]. intros data s1.
  apply M_bind_returns_or_asserts; [apply Place_returns_or_asserts|]. intros disc s2.
  rewrite M_bind_modify. by rewrite set_members_returns.
Qed.

Lemma align_overall_size_returns_or_asserts s :
  returns_or_asserts (align_overall_size s).
Proof.
  unfold align_overall_size. rewrite !M_bind_get, M_bind_run. unfold lift.
  pose proof (AlignUp_returns_or_asserts (size_ s) (maxalign_ s)).
  by destruct (Size_.AlignUp _ _).
Qed.

Lemma placement_returns_or_asserts d s :
  returns_or_asserts
    ((for_each (field_order d) place_field ;;
      for_each (oneof_order d) place_oneof ;;
      align_overall_size) s).
Proof.
  apply M_bind_returns_or_asserts.
  { apply for_each_returns_or_asserts, place_field_returns_or_asserts. }
  intros _ s1. apply M_bind_returns_or_asserts.
  { apply for_each_returns_or_asserts, place_oneof_returns_or_asserts. }
  intros _ s2. apply align_overall_size_returns_or_asserts.
Qed.

(** ** The limit of 63 required fields *)

Lemma constructor_Exits u d st msg :
  constructor u d = Exits st msg ↔
  ComputeLayout d (default_initialized u) = Exits st msg.
Proof.
  unfold constructor.
  destruct (ComputeLayout d _) as [[[] L]| | |]; split; congruence.
Qed.

Lemma constructor_Returns u d L :
  constructor u d = Returns L ↔
  ComputeLayout d (default_initialized u) = Returns (tt, L).
Proof.
  unfold constructor.
  destruct (ComputeLayout d _) as [[[] L']| | |]; split; congruence.
Qed.

(** The required fields that get a hasbit, counted in declaration order. *)
Lemma tracked_required_length d :
  length (tracked_required d)
  = length (filter (λ f, FieldDescriptor.is_required f = true
                         ∧ HasHasbit d f = true) (Descriptor.fields d)).
Proof.
  unfold tracked_required, tracked_fields. rewrite list_filter_filter.
  apply Permutation_length. by rewrite hotness_order_Permutation.
Qed.

Lemma tracked_required_overflow d :
  (63 < length (tracked_required d))%nat ↔
  ∃ i f, tracked_fields d !! i = Some f
         ∧ FieldDescriptor.is_required f = true ∧ 63 < Z.of_nat i + 1.
Proof.
  destruct (tracked_fields_split d) as (rs & os & Heq & Hrs & Hos).
  unfold tracked_required. rewrite Heq, filter_required_first by done.
  split.
  - intros Hlen. destruct (lookup_lt_is_Some_2 rs 63) as [f Hf]; [done|].
    exists 63%nat, f. split; [by apply lookup_app_l_Some|].
    split; [|lia]. rewrite Forall_forall in Hrs. apply Hrs.
    by eapply list_elem_of_lookup_2.
  - intros (i & f & Hi & Hreq & H63).
    apply lookup_app_Some in Hi as [Hi|[_ Hi]].
    + apply lookup_lt_Some in Hi. lia.
    + rewrite Forall_forall in Hos. apply list_elem_of_lookup_2, Hos in Hi.
      congruence.
Qed.

(** C1 (as amended).  For an ordinary message the constructor exits with a
    diagnostic if and only if more than 63 required fields get a hasbit,
    that is, if and only if some required field gets a hasbit index above
    63.  The exit status is 1 and the diagnostic names the 64th required
    field with a hasbit in hotness order, by the full name of the field.  A
    field that is not required can get index 64 and the constructor
    returns. *)
Theorem required_limit_exit d u :
  Descriptor.map_entry d = false →
  Z.of_nat (length (Descriptor.fields d)) < 2 ^ 31 →
  let required_with_hasbit :=
    filter (λ f, FieldDescriptor.is_required f = true ∧ HasHasbit d f = true)
           (Descriptor.fields d) in
  ((∃ st msg, constructor u d = Exits st msg)
     ↔ (63 < length required_with_hasbit)%nat)
  ∧ ((63 < length required_with_hasbit)%nat
     ↔ ∃ i f, tracked_fields d !! i = Some f
              ∧ FieldDescriptor.is_required f = true ∧ 63 < Z.of_nat i + 1)
  ∧ (∀ st msg, constructor u d = Exits st msg →
       ∃ f, tracked_required d !! 63%nat = Some f
            ∧ st = 1 ∧ msg = too_many_required f)
  ∧ (∃ L f, constructor u (optionals 64) = Returns L
            ∧ f ∈ Descriptor.fields (optionals 64)
            ∧ FieldDescriptor.is_required f = false
            ∧ GetHasbitIndex L f = Returns 64).
Proof.
  intros Hme Hlen. cbn zeta. rewrite <- tracked_required_length.
  assert (∀ st msg, constructor u d = Exits st msg →
            ∃ f, tracked_required d !! 63%nat = Some f
                 ∧ st = 1 ∧ msg = too_many_required f) as Hexit.
  { intros st msg. rewrite constructor_Exits, ComputeLayout_ordinary by done.
    destruct (tracked_required d !! 63%nat) as [f|] eqn:E.
    - intros [= <- <-]. by exists f.
    - intros Hex.
      pose proof (placement_returns_or_asserts d
                    (after_hasbits d (default_initialized u))) as Hp.
      by rewrite Hex in Hp. }
  split; [|split; [apply tracked_required_overflow|split; [done|]]].
  - split.
    + intros (st & msg & Hex). destruct (Hexit _ _ Hex) as (f & Hf & _).
      by apply lookup_lt_Some in Hf.
    + intros Hlt. destruct (lookup_lt_is_Some_2 _ _ Hlt) as [f Hf].
      exists 1, (too_many_required f).
      rewrite constructor_Exits, ComputeLayout_ordinary by done. by rewrite Hf.
  - assert (∃ L, constructor u (optionals 64) = Returns L
                 ∧ hasbit_indexes_ L !! 1064%N = Some 64) as (L & HL & Hi).
    { unfold constructor. destruct u.
      vm_compute. eexists. split; [reflexivity|]. reflexivity. }
    exists L, (mk_field 64 ("pkg.Wide.f" +:+ decimal 64) LABEL_OPTIONAL
                        CPPTYPE_INT32 true None).
    split; [done|]. split.
    { unfold optionals. cbn [Descriptor.fields]. apply list_elem_of_fmap.
      exists 64. split; [done|]. apply elem_of_seqZ. lia. }
    split; [done|]. unfold GetHasbitIndex, GetMapValue.
    change (FieldDescriptor.addr _) with 1064%N. by rewrite Hi.
Qed.

Lemma required_limit_exit_witness :
  Descriptor.map_entry required64 = false
  ∧ Z.of_nat (length (Descriptor.fields required64)) < 2 ^ 31
  ∧ ∃ st msg, constructor junk required64 = Exits st msg.
Proof.
  split; [reflexivity|]. split; [vm_compute; reflexivity|].
  apply (required_limit_exit required64 junk); [reflexivity|by vm_compute|].
  vm_compute. lia.
Defined.

(** C1 (as stated) fails: for the message [pkg.Big] with 64 required fields
    the diagnostic ends with the name of the field [pkg.Big.f64], not with
    the name of the message. *)
Lemma required64_diagnostic_names_field :
  Descriptor.map_entry required64 = false
  ∧ ∃ msg, constructor junk required64 = Exits 1 msg
           ∧ msg = "upb does not support messages with more than 63 required fields: pkg.Big.f64" +:+ endl
           ∧ msg ≠ "upb does not support messages with more than 63 required fields: "
                   +:+ Descriptor.full_name required64 +:+ endl.
Proof.
  split; [reflexivity|]. eexists. split; [vm_compute; reflexivity|].
  split; [reflexivity|]. vm_compute. discriminate.
Qed.

(** ** What a validated schema gives the placement *)

Lemma NoDup_fmap_subset {A B} (f : A → B) l l' :
  NoDup (f <$> l) → NoDup l' → (∀ x, x ∈ l' → x ∈ l) → NoDup (f <$> l').
Proof.
  intros Hnd Hnd' Hsub. apply NoDup_fmap_2_strong; [|done].
  intros x y Hx Hy. apply (NoDup_fmap_inj_on f l); auto.
Qed.

Section valid_facts.
Context (d : Descriptor.t) (Hvalid : valid d).

Lemma valid_field_count : Z.of_nat (length (Descriptor.fields d)) < 2 ^ 31.
Proof. apply Hvalid. Qed.

Lemma valid_oneof_count : Z.of_nat (length (Descriptor.oneof_decls d)) < 2 ^ 31.
Proof. apply Hvalid. Qed.

Lemma valid_field_addrs : NoDup (FieldDescriptor.addr <$> Descriptor.fields d).
Proof. apply Hvalid. Qed.

Lemma valid_oneof_addrs :
  NoDup (OneofDescriptor.addr <$> Descriptor.oneof_decls d).
Proof. apply Hvalid. Qed.

Lemma valid_oneof_members o :
  o ∈ Descriptor.oneof_decls d →
  OneofDescriptor.fields o
  = filter (λ f, FieldDescriptor.containing_oneof f = Some (OneofDescriptor.addr o))
           (Descriptor.fields d)
  ∧ OneofDescriptor.fields o ≠ [].
Proof.
  destruct Hvalid as (_ & _ & _ & _ & _ & _ & _ & Hm).
  rewrite Forall_forall in Hm. apply Hm.
Qed.

Lemma valid_member o f :
  o ∈ Descriptor.oneof_decls d → f ∈ OneofDescriptor.fields o →
  f ∈ Descriptor.fields d
  ∧ FieldDescriptor.containing_oneof f = Some (OneofDescriptor.addr o).
Proof.
  intros Ho Hf. destruct (valid_oneof_members o Ho) as [Heq _].
  rewrite Heq in Hf. apply list_elem_of_filter in Hf. tauto.
Qed.

Lemma field_addr_inj f g :
  f ∈ Descriptor.fields d → g ∈ Descriptor.fields d →
  FieldDescriptor.addr f = FieldDescriptor.addr g → f = g.
Proof. apply NoDup_fmap_inj_on, valid_field_addrs. Qed.

Lemma field_order_addrs : NoDup (FieldDescriptor.addr <$> field_order d).
Proof.
  pose proof valid_field_addrs as Hnd.
  apply (NoDup_fmap_subset _ (Descriptor.fields d)); [done| |].
  - rewrite field_order_Permutation. apply NoDup_filter.
    by apply NoDup_fmap_1 in Hnd.
  - intros f Hf. by apply elem_of_field_order in Hf as [? _].
Qed.

Lemma hotness_order_addrs : NoDup (FieldDescriptor.addr <$> hotness_order d).
Proof. rewrite hotness_order_Permutation. apply valid_field_addrs. Qed.

Lemma tracked_fields_addrs : NoDup (FieldDescriptor.addr <$> tracked_fields d).
Proof.
  pose proof hotness_order_addrs as Hnd.
  apply (NoDup_fmap_subset _ (hotness_order d)); [done| |].
  - apply NoDup_filter. by apply NoDup_fmap_1 in Hnd.
  - intros f Hf. by apply list_elem_of_filter in Hf as [_ ?].
Qed.

Lemma oneof_order_addrs : NoDup (OneofDescriptor.addr <$> oneof_order d).
Proof. rewrite oneof_order_Permutation. apply valid_oneof_addrs. Qed.

Lemma elem_of_oneof_order o : o ∈ oneof_order d ↔ o ∈ Descriptor.oneof_decls d.
Proof. by rewrite oneof_order_Permutation. Qed.

Lemma oneof_order_nonempty :
  Forall (λ o, OneofDescriptor.fields o ≠ []) (oneof_order d).
Proof.
  apply Forall_forall. intros o Ho. apply elem_of_oneof_order in Ho.
  by destruct (valid_oneof_members o Ho).
Qed.

Lemma oneof_order_member_addrs : NoDup (oneof_order d ≫= member_addrs).
Proof.
  pose proof valid_oneof_addrs as Hoa.
  apply NoDup_bind.
  - intros o1 o2 a Ho1 Ho2 Ha1 Ha2.
    apply elem_of_oneof_order in Ho1, Ho2.
    apply list_elem_of_fmap in Ha1 as (f1 & -> & Hf1).
    apply list_elem_of_fmap in Ha2 as (f2 & Heq & Hf2).
    destruct (valid_member _ _ Ho1 Hf1) as [Hd1 Hc1].
    destruct (valid_member _ _ Ho2 Hf2) as [Hd2 Hc2].
    apply field_addr_inj in Heq; [subst f2|done..].
    rewrite Hc1 in Hc2. injection Hc2 as Hc2.
    by apply (NoDup_fmap_inj_on OneofDescriptor.addr (Descriptor.oneof_decls d)).
  - intros o Ho. apply elem_of_oneof_order in Ho.
    destruct (valid_oneof_members o Ho) as [Heq _].
    unfold member_addrs. rewrite Heq.
    pose proof valid_field_addrs as Hnd.
    apply (NoDup_fmap_subset _ (Descriptor.fields d)); [done| |].
    + apply NoDup_filter. by apply NoDup_fmap_1 in Hnd.
    + intros f Hf. by apply list_elem_of_filter in Hf as [_ ?].
  - rewrite oneof_order_Permutation. by apply NoDup_fmap_1 in Hoa.
Qed.

(** A field outside every oneof is not a member of a oneof. *)
Lemma field_order_not_member f :
  f ∈ field_order d →
  FieldDescriptor.addr f ∉ oneof_order d ≫= member_addrs.
Proof.
  intros Hf Hin. apply elem_of_field_order in Hf as [Hfd Hnone].
  apply list_elem_of_bind in Hin as (o & Ha & Ho).
  apply elem_of_oneof_order in Ho.
  apply list_elem_of_fmap in Ha as (g & Heq & Hg).
  destruct (valid_member _ _ Ho Hg) as [Hgd Hsome].
  apply field_addr_inj in Heq; [subst g|done..]. congruence.
Qed.

Lemma field_order_length :
  (length (field_order d) ≤ length (Descriptor.fields d))%nat.
Proof.
  unfold field_order. rewrite insertion_sort_length. apply length_filter.
Qed.

Lemma oneof_order_length :
  length (oneof_order d) = length (Descriptor.oneof_decls d).
Proof. unfold oneof_order. by rewrite insertion_sort_length. Qed.
End valid_facts.

(** ** The layout of an ordinary message, item by item *)

Lemma align_overall_size_returns s L :
  Size_in 0 (2 ^ 60) (size_ s) → Size_in 1 (2 ^ 60) (maxalign_ s) →
  align_overall_size s = Returns (tt, L) →
  ∃ aligned, L = set_size_ aligned s
    ∧ Size_divides (maxalign_ s) aligned ∧ Size_le (size_ s) aligned.
Proof.
  intros Hs Hm. unfold align_overall_size.
  rewrite !M_bind_get, M_bind_run. unfold lift.
  destruct (Size_.AlignUp _ _) as [a| | |] eqn:EA; try done.
  unfold modify. intros [= <-].
  apply AlignUp_returns in EA as (? & ? & _); [|done..]. by exists a.
Qed.

Lemma ordinary_layout_inv d s0 L :
  valid d → Descriptor.map_entry d = false →
  ComputeLayout d s0 = Returns (tt, L) →
  tracked_required d !! 63%nat = None
  ∧ hasbit_indexes_ L = assign_indexes 0 (tracked_fields d) (hasbit_indexes_ s0)
  ∧ hasbit_count_ L = Z.of_nat (length (tracked_fields d))
  ∧ hasbit_bytes_ L = hasbit_bytes_of d
  ∧ required_count_ L = Z.of_nat (length (tracked_required d))
  ∧ (∃ unaligned, chain (MkSize 0 0) (ordinary_items d L) unaligned
                  ∧ Size_le unaligned (size_ L))
  ∧ Size_divides (maxalign_ L) (size_ L)
  ∧ Size_in 8 (2 ^ 60) (maxalign_ L)
  ∧ (∀ f, f ∈ field_order d →
       is_Some (field_offsets_ L !! FieldDescriptor.addr f)
       ∧ Size_divides (align (SizeOf f)) (field_offset L f))
  ∧ (∀ o f, o ∈ oneof_order d → f ∈ OneofDescriptor.fields o →
       field_offsets_ L !! FieldDescriptor.addr f = Some (data_offset L o))
  ∧ (∀ o, o ∈ oneof_order d →
       is_Some (oneof_case_offsets_ L !! OneofDescriptor.addr o)
       ∧ Size_divides (align (oneof_maxsize o)) (data_offset L o)
       ∧ Size_divides (MkSize 4 4) (case_offset L o)
       ∧ Size_lt (case_offset L o)
           (Size_plus (Size_plus (data_offset L o) (size (oneof_maxsize o)))
                      (MkSize 4 4)))
  ∧ (∀ k, k ∉ FieldDescriptor.addr <$> field_order d →
          k ∉ oneof_order d ≫= member_addrs →
          field_offsets_ L !! k = field_offsets_ s0 !! k)
  ∧ (∀ k, k ∉ OneofDescriptor.addr <$> oneof_order d →
          oneof_case_offsets_ L !! k = oneof_case_offsets_ s0 !! k).
Proof.
  intros Hvalid Hme Hrun.
  pose proof (valid_field_count d Hvalid) as Hfc.
  pose proof (valid_oneof_count d Hvalid) as Hoc.
  pose proof (field_order_length d) as Hfl.
  pose proof (oneof_order_length d) as Hol.
  pose proof (hasbit_bytes_of_range d Hfc) as [Hhb _].
  rewrite ComputeLayout_ordinary in Hrun by done.
  destruct (tracked_required d !! 63%nat) as [f|]; [done|]. split; [done|].
  rewrite M_bind_run in Hrun.
  destruct (for_each (field_order d) place_field _) as [[[] s3]| | |] eqn:E3;
    try done.
  rewrite M_bind_run in Hrun.
  destruct (for_each (oneof_order d) place_oneof s3) as [[[] s4]| | |] eqn:E4;
    try done.
  apply (place_fields_returns _ _ _ (2 ^ 29)) in E3
    as (fo3 & ma3 & sz3 & -> & Hch3 & Hsz3 & Hfr3 & Hin3 & Hdiv3 & Hma3 & Hma3');
    [|by apply field_order_addrs|unfold after_hasbits, Size_in; simpl; lia|lia].
  unfold after_hasbits in Hch3, Hfr3, Hma3, Hma3', E4. simpl_state.
  apply (place_oneofs_returns _ _ _ (2 ^ 29 + 32 * Z.of_nat (length (field_order d))))
    in E4
    as (fo4 & co4 & ma4 & sz4 & -> & Hch4 & Hsz4 & Hfr4 & Hcfr4 & Hdat4 & Hcs4
        & Hal4 & Hma4 & Hma4');
    [|by apply oneof_order_addrs|by apply oneof_order_member_addrs
     |by apply oneof_order_nonempty|done|lia].
  simpl_state.
  apply align_overall_size_returns in Hrun as (aligned & -> & Hdiv & Hle);
    simpl_state.
  2:{ unfold Size_in in *; lia. }
  2:{ unfold Size_in, Size_le in *; simpl in *; lia. }
  do 4 (split; [done|]).
  (* the maps of the result are those after the oneof pass *)
  set (L := Make fo4 _ co4 ma4 aligned _ _ _).
  set (L4 := Make fo4 _ co4 ma4 sz4 _ _ _) in *.
  set (L3 := Make fo3 _ _ ma3 sz3 _ _ _) in *.
  assert (∀ f, field_offset L f = field_offset L4 f) as HfoL by done.
  assert (∀ o, data_offset L o = data_offset L4 o) as HdoL by done.
  assert (∀ o, case_offset L o = case_offset L4 o) as HcoL by done.
  assert (∀ f, f ∈ field_order d → field_offset L f = field_offset L3 f) as Hsame.
  { intros f Hf. unfold field_offset. simpl.
    rewrite Hfr4; [done|]. by apply field_order_not_member. }
  split.
  { exists sz4. split; [|done].
    unfold ordinary_items, hasbit_item. simpl_state. cbn [chain].
    split; [apply Size_le_refl|]. split; [unfold Size_le; simpl; lia|].
    eapply chain_app.
    - replace (field_item L <$> field_order d)
        with (field_item L3 <$> field_order d); [exact Hch3|].
      apply Forall_fmap_ext, Forall_forall. intros f Hf.
      unfold field_item. by rewrite Hsame.
    - exact Hch4. }
  split; [done|].
  split; [unfold Size_in, Size_le in *; simpl in *; lia|].
  split.
  { intros f Hf. split.
    - simpl. rewrite Hfr4 by (by apply field_order_not_member). by apply Hin3.
    - rewrite Hsame by done. by apply Hdiv3. }
  split; [exact Hdat4|]. split; [intros o Ho; split; [by apply Hcs4|by apply Hal4]|].
  split.
  - intros k Hk1 Hk2. simpl. rewrite Hfr4 by done. by rewrite Hfr3.
  - intros k Hk. simpl. by rewrite Hcfr4.
Qed.

(** ** Regions of an ordinary message *)

(** The two items of a oneof make one region. *)
Lemma chain_oneof_regions L l : ∀ lo hi,
  chain lo (l ≫= oneof_items L) hi → chain lo (oneof_region L <$> l) hi.
Proof.
  induction l as [|o l IH]; intros lo hi; [done|].
  rewrite bind_cons, fmap_cons. unfold oneof_items at 1, oneof_region at 1.
  cbn [app chain]. intros (H1 & H2 & H3 & H4 & H5).
  split; [done|]. split.
  { unfold Size_le, Size_plus, Size_minus in *; simpl in *. lia. }
  apply IH. eapply chain_weaken; [|apply Size_le_refl|exact H5].
  unfold Size_le, Size_plus, Size_minus; simpl. lia.
Qed.

Lemma chain_layout_regions d L unaligned :
  chain (MkSize 0 0) (ordinary_items d L) unaligned →
  chain (MkSize 0 0) (layout_regions d L) unaligned.
Proof.
  unfold ordinary_items, layout_regions, hasbit_item. cbn [chain].
  intros (H1 & H2 & H3). do 2 (split; [done|]).
  revert H3. generalize (Size_plus (MkSize 0 0)
                           (MkSize (hasbit_bytes_ L) (hasbit_bytes_ L))).
  induction (field_order d) as [|f l IH]; intros lo; simpl.
  - apply chain_oneof_regions.
  - intros (? & ? & ?). auto.
Qed.

Lemma layout_regions_hasbits d L :
  layout_regions d L !! 0%nat = Some (hasbit_item L).
Proof. done. Qed.

Lemma layout_regions_S d L n :
  layout_regions d L !! S n
  = ((field_item L <$> field_order d) ++ (oneof_region L <$> oneof_order d)) !! n.
Proof. done. Qed.

Lemma layout_regions_field d L i f :
  field_order d !! i = Some f →
  layout_regions d L !! S i = Some (field_item L f).
Proof.
  intros Hi. rewrite layout_regions_S.
  apply lookup_app_l_Some. by rewrite list_lookup_fmap, Hi.
Qed.

Lemma layout_regions_oneof d L j o :
  oneof_order d !! j = Some o →
  layout_regions d L !! S (length (field_order d) + j) = Some (oneof_region L o).
Proof.
  intros Hj. rewrite layout_regions_S.
  rewrite lookup_app_r by (rewrite length_fmap; lia).
  rewrite length_fmap.
  replace (length (field_order d) + j - length (field_order d))%nat with j by lia.
  by rewrite list_lookup_fmap, Hj.
Qed.

(** Regions at different positions do not overlap. *)
Lemma chain_disjoint lo items hi i j r1 r2 :
  chain lo items hi → i ≠ j →
  items !! i = Some r1 → items !! j = Some r2 →
  disjoint32 r1 r2 ∧ disjoint64 r1 r2.
Proof.
  intros Hch Hij H1 H2. destruct r1 as [o1 s1], r2 as [o2 s2].
  unfold disjoint32, disjoint64. simpl.
  destruct (decide (i < j)%nat) as [Hlt|Hge].
  - pose proof (chain_ordered _ _ _ _ _ _ _ _ _ Hch Hlt H1 H2) as [??].
    simpl in *. lia.
  - assert (j < i)%nat as Hlt by lia.
    pose proof (chain_ordered _ _ _ _ _ _ _ _ _ Hch Hlt H2 H1) as [??].
    simpl in *. lia.
Qed.

(** ** The shape of a oneof *)

Lemma max_of_nonneg l : 0 ≤ max_of l.
Proof. induction l; simpl; lia. Qed.

Lemma foldl_MaxFrom_max l : ∀ acc,
  Size_le (MkSize 0 0) (size acc) → Size_le (MkSize 0 0) (align acc) →
  foldl (λ acc f, SizeAndAlign_.MaxFrom acc (SizeOf f)) acc l
  = SizeAndAlign_.MaxFrom acc (max_member_shape (OneofDescriptor.Make 0 "" l)).
Proof.
  induction l as [|f l IH]; intros acc Hs Ha.
  { destruct acc as [[] []]. unfold Size_le in *; simpl in *.
    unfold SizeAndAlign_.MaxFrom, Size_.MaxFrom, max_member_shape; simpl.
    by rewrite !Z.max_l by lia. }
  cbn [foldl]. rewrite IH.
  - unfold SizeAndAlign_.MaxFrom, Size_.MaxFrom, max_member_shape; simpl.
    by rewrite !Z.max_assoc.
  - unfold Size_le in *; simpl in *; lia.
  - unfold Size_le in *; simpl in *; lia.
Qed.

Lemma oneof_maxsize_max o : oneof_maxsize o = max_member_shape o.
Proof.
  unfold oneof_maxsize. rewrite foldl_MaxFrom_max by (unfold Size_le; simpl; lia).
  unfold SizeAndAlign_.MaxFrom, Size_.MaxFrom, max_member_shape; simpl.
  by rewrite !Z.max_r by apply max_of_nonneg.
Qed.

(** ** Packed slots of an ordinary message *)

Lemma fmap_list_bind {A B C} (f : B → C) (g : A → list B) (l : list A) :
  f <$> (l ≫= g) = l ≫= (λ x, f <$> g x).
Proof.
  induction l as [|x l IH]; [done|]. by rewrite !bind_cons, fmap_app, IH.
Qed.

Lemma packed_app lo l1 mid l2 hi :
  packed lo l1 mid → packed mid l2 hi → packed lo (l1 ++ l2) hi.
Proof.
  revert lo. induction l1 as [|[off sa] l1 IH]; intros lo; simpl.
  - by intros ->.
  - intros (? & ? & ? & ?) ?. split_and!; [done..|]. by apply IH.
Qed.

(** Two consecutive slots of a packed range. *)
Lemma packed_consecutive lo slots hi i o1 sa1 o2 sa2 :
  packed lo slots hi →
  slots !! i = Some (o1, sa1) → slots !! S i = Some (o2, sa2) →
  Size_divides (align sa2) o2
  ∧ Size_le (Size_plus o1 (size sa1)) o2
  ∧ Size_lt o2 (Size_plus (Size_plus o1 (size sa1)) (align sa2)).
Proof.
  revert lo i. induction slots as [|[off sa] slots IH]; intros lo i; [done|].
  intros (Hd & Hle & Hlt & Hrest). destruct i as [|i]; simpl.
  - intros [= -> ->] H2. destruct slots as [|[off' sa'] slots]; [done|].
    injection H2 as -> ->. by destruct Hrest as (? & ? & ? & _).
  - intros H1 H2. by apply (IH _ i Hrest).
Qed.

Lemma place_fields_packed l : ∀ s s' B,
  NoDup (FieldDescriptor.addr <$> l) →
  Size_in 0 B (size_ s) → B + 32 * Z.of_nat (length l) ≤ 2 ^ 60 →
  for_each l place_field s = Returns (tt, s') →
  packed (size_ s) (field_slot s' <$> l) (size_ s').
Proof.
  induction l as [|f l IH]; intros s s' B Hnd Hs HB Hrun.
  { by injection Hrun as <-. }
  rewrite fmap_cons in Hnd. apply NoDup_cons in Hnd as [Hf Hnd].
  cbn [for_each] in Hrun. rewrite M_bind_run in Hrun.
  destruct (place_field f s) as [[[] s1]| | |] eqn:E1; try done.
  rewrite length_cons, Nat2Z.inj_succ in *.
  pose proof (SizeOf_shape f) as [Hsz Hal].
  apply place_field_returns in E1 as (off & -> & Hd & Hle & Hlt);
    [|unfold Size_in in *; lia].
  assert (Size_in 0 (B + 32) (Size_plus off (size (SizeOf f)))) as Hs1.
  { unfold Size_in, Size_le, Size_lt, Size_plus in *; simpl in *. lia. }
  pose proof Hrun as Hpacked.
  apply (IH _ _ (B + 32)) in Hpacked; [|done|exact Hs1|lia]. simpl_state.
  apply (place_fields_returns _ _ _ (B + 32)) in Hrun
    as (fo & ma & sz & -> & _ & _ & Hfr & _); [|done|done|lia].
  simpl_state.
  rewrite fmap_cons. unfold field_slot at 1. cbn [packed].
  assert (field_offset (Make fo (hasbit_indexes_ s) (oneof_case_offsets_ s) ma sz
                             (hasbit_count_ s) (hasbit_bytes_ s) (required_count_ s)) f
          = off) as ->.
  { unfold field_offset. simpl. rewrite (Hfr _ Hf). by rewrite lookup_insert_eq. }
  done.
Qed.

Lemma place_oneofs_packed l : ∀ s s' B,
  NoDup (OneofDescriptor.addr <$> l) →
  NoDup (l ≫= member_addrs) →
  Forall (λ o, OneofDescriptor.fields o ≠ []) l →
  Size_in 0 B (size_ s) → B + 32 * Z.of_nat (length l) ≤ 2 ^ 60 →
  for_each l place_oneof s = Returns (tt, s') →
  packed (size_ s) (l ≫= oneof_slots s') (size_ s').
Proof.
  induction l as [|o l IH]; intros s s' B Hnd Hmem Hne Hs HB Hrun.
  { by injection Hrun as <-. }
  rewrite fmap_cons in Hnd. apply NoDup_cons in Hnd as [Ho Hnd].
  rewrite bind_cons in Hmem. apply NoDup_app in Hmem as (Hm1 & Hm2 & Hm3).
  apply Forall_cons in Hne as [Hne1 Hne].
  cbn [for_each] in Hrun. rewrite M_bind_run in Hrun.
  destruct (place_oneof o s) as [[[] s1]| | |] eqn:E1; try done.
  rewrite length_cons, Nat2Z.inj_succ in *.
  pose proof (oneof_maxsize_shape o Hne1) as [Hsz Hal].
  apply place_oneof_returns in E1
    as (data & disc & -> & Hd1 & Hle1 & Hlt1 & Hd2 & Hle2 & Hlt2);
    [|unfold Size_in in *; lia|done].
  assert (Size_in 0 (B + 32) (Size_plus disc (MkSize 4 4))) as Hs1.
  { unfold Size_in, Size_le, Size_lt, Size_plus in *; simpl in *. lia. }
  pose proof Hrun as Hpacked.
  apply (IH _ _ (B + 32)) in Hpacked; [|done|done|done|exact Hs1|lia]. simpl_state.
  apply (place_oneofs_returns _ _ _ (B + 32)) in Hrun
    as (fo & co & ma & sz & -> & _ & _ & Hfr & Hcfr & _); [|done..|lia].
  simpl_state.
  match goal with |- packed _ (_ ≫= oneof_slots ?S) _ => set (L := S) in * end.
  assert (∀ f, f ∈ OneofDescriptor.fields o →
               fo !! FieldDescriptor.addr f = Some data) as Hmine.
  { intros f Hf. rewrite Hfr.
    - rewrite lookup_foldl_insert. rewrite decide_True; [done|].
      by apply list_elem_of_fmap_2.
    - apply Hm2. by apply list_elem_of_fmap_2. }
  assert (data_offset L o = data) as Hdata.
  { unfold data_offset. destruct (OneofDescriptor.fields o) as [|f0 fs] eqn:Ef; [done|].
    simpl. unfold field_offset, L. simpl. rewrite Hmine; [done|left]. }
  assert (case_offset L o = disc) as Hcase.
  { unfold case_offset, L. simpl. rewrite Hcfr by done. by rewrite lookup_insert_eq. }
  rewrite bind_cons. unfold oneof_slots at 1. rewrite Hdata, Hcase.
  cbn [app packed align size].
  split_and!; done.
Qed.

Lemma align_overall_size_tight s L :
  Size_in 0 (2 ^ 60) (size_ s) → Size_in 1 (2 ^ 60) (maxalign_ s) →
  align_overall_size s = Returns (tt, L) →
  L = set_size_ (size_ L) s
  ∧ Size_divides (maxalign_ s) (size_ L) ∧ Size_le (size_ s) (size_ L)
  ∧ Size_lt (size_ L) (Size_plus (size_ s) (maxalign_ s)).
Proof.
  intros Hs Hm. unfold align_overall_size.
  rewrite !M_bind_get, M_bind_run. unfold lift.
  destruct (Size_.AlignUp _ _) as [a| | |] eqn:EA; try done.
  unfold modify. intros [= <-].
  apply AlignUp_returns in EA as (? & ? & ?); [|done..]. done.
Qed.

Lemma ordinary_slots_packed d s0 L :
  valid d → Descriptor.map_entry d = false →
  ComputeLayout d s0 = Returns (tt, L) →
  ∃ unaligned,
    packed (MkSize 0 0) (ordinary_slots d L) unaligned
    ∧ Size_divides (maxalign_ L) (message_size L)
    ∧ Size_le unaligned (message_size L)
    ∧ Size_lt (message_size L) (Size_plus unaligned (maxalign_ L)).
Proof.
  intros Hvalid Hme Hrun.
  pose proof (valid_field_count d Hvalid) as Hfc.
  pose proof (valid_oneof_count d Hvalid) as Hoc.
  pose proof (field_order_length d) as Hfl.
  pose proof (oneof_order_length d) as Hol.
  pose proof (hasbit_bytes_of_range d Hfc) as [Hhb _].
  rewrite ComputeLayout_ordinary in Hrun by done.
  destruct (tracked_required d !! 63%nat) as [f|]; [done|].
  rewrite M_bind_run in Hrun.
  destruct (for_each (field_order d) place_field _) as [[[] s3]| | |] eqn:E3;
    try done.
  rewrite M_bind_run in Hrun.
  destruct (for_each (oneof_order d) place_oneof s3) as [[[] s4]| | |] eqn:E4;
    try done.
  pose proof E3 as Hp3.
  apply (place_fields_packed _ _ _ (2 ^ 29)) in Hp3;
    [|by apply field_order_addrs|unfold after_hasbits, Size_in; simpl; lia|lia].
  apply (place_fields_returns _ _ _ (2 ^ 29)) in E3
    as (fo3 & ma3 & sz3 & -> & _ & Hsz3 & Hfr3 & _ & _ & Hma3 & Hma3');
    [|by apply field_order_addrs|unfold after_hasbits, Size_in; simpl; lia|lia].
  unfold after_hasbits in Hp3, Hfr3, Hma3, Hma3', E4. simpl_state.
  pose proof E4 as Hp4.
  apply (place_oneofs_packed _ _ _
           (2 ^ 29 + 32 * Z.of_nat (length (field_order d)))) in Hp4;
    [|by apply oneof_order_addrs|by apply oneof_order_member_addrs
     |by apply oneof_order_nonempty|done|lia].
  apply (place_oneofs_returns _ _ _ (2 ^ 29 + 32 * Z.of_nat (length (field_order d))))
    in E4
    as (fo4 & co4 & ma4 & sz4 & -> & _ & Hsz4 & Hfr4 & _ & _ & _ & _ & Hma4 & Hma4');
    [|by apply oneof_order_addrs|by apply oneof_order_member_addrs
     |by apply oneof_order_nonempty|done|lia].
  simpl_state.
  apply align_overall_size_tight in Hrun as (HLeq & Hdiv & Hle & Hlt); simpl_state.
  2:{ unfold Size_in in *; lia. }
  2:{ unfold Size_in, Size_le in *; simpl in *; lia. }
  set (L4 := Make fo4 _ co4 ma4 sz4 _ _ _) in *.
  set (L3 := Make fo3 _ _ ma3 sz3 _ _ _) in *.
  assert (field_offsets_ L = fo4 ∧ oneof_case_offsets_ L = co4
          ∧ maxalign_ L = ma4 ∧ hasbit_bytes_ L = hasbit_bytes_of d)
    as (HLfo & HLco & HLma & HLhb).
  { rewrite HLeq. done. }
  assert (∀ f, field_offset L f = field_offset L4 f) as HfoL.
  { intros f. unfold field_offset. by rewrite HLfo. }
  assert (∀ o, data_offset L o = data_offset L4 o) as HdoL.
  { intros o. unfold data_offset. destruct (head _); simpl; [apply HfoL|done]. }
  assert (∀ o, case_offset L o = case_offset L4 o) as HcoL.
  { intros o. unfold case_offset. by rewrite HLco. }
  assert (∀ f, f ∈ field_order d → field_offset L f = field_offset L3 f) as Hsame.
  { intros f Hf. rewrite HfoL. unfold field_offset. simpl.
    rewrite Hfr4; [done|]. by apply field_order_not_member. }
  exists sz4. unfold message_size. rewrite HLma. split_and!; [|done..].
  unfold ordinary_slots. rewrite HLhb. cbn [packed align size].
  split_and!.
  - unfold Size_divides. simpl. split; apply Z.divide_1_l.
  - apply Size_le_refl.
  - unfold Size_lt. simpl. lia.
  - eapply packed_app.
    + replace (field_slot L <$> field_order d)
        with (field_slot L3 <$> field_order d); [exact Hp3|].
      apply Forall_fmap_ext, Forall_forall. intros f Hf.
      unfold field_slot. by rewrite Hsame.
    + replace (oneof_order d ≫= oneof_slots L)
        with (oneof_order d ≫= oneof_slots L4); [exact Hp4|].
      apply list_bind_ext; [|done]. intros o. unfold oneof_slots.
      by rewrite HdoL, HcoL.
Qed.

(** The last slot of a packed range ends where the range ends. *)
Lemma packed_last lo slots hi :
  packed lo slots hi →
  hi = from_option (λ slot, Size_plus slot.1 (size slot.2)) lo (last slots).
Proof.
  revert lo. induction slots as [|[off sa] slots IH]; intros lo; [by intros ->|].
  intros (_ & _ & _ & Hrest). apply IH in Hrest.
  rewrite last_cons. by destruct (last slots).
Qed.

(** The placed items of an ordinary message are its slots without the
    alignments. *)
Lemma ordinary_items_slots d L :
  ordinary_items d L = (λ slot, (slot.1, size slot.2)) <$> ordinary_slots d L.
Proof.
  unfold ordinary_items, ordinary_slots.
  rewrite fmap_cons, fmap_app, <- list_fmap_compose, fmap_list_bind. done.
Qed.

(** The total size of an ordinary message is less than one maximum
    alignment behind the end of the last placed item. *)
Lemma ordinary_size_tight d s0 L :
  valid d → Descriptor.map_entry d = false →
  ComputeLayout d s0 = Returns (tt, L) →
  ∃ item, last (ordinary_items d L) = Some item
    ∧ Size_lt (message_size L)
              (Size_plus (Size_plus item.1 item.2) (maxalign_ L)).
Proof.
  intros Hvalid Hme Hrun.
  destruct (ordinary_slots_packed d s0 L Hvalid Hme Hrun)
    as (unaligned & Hp & _ & _ & Hlt).
  apply packed_last in Hp. rewrite ordinary_items_slots, fmap_last.
  destruct (last (ordinary_slots d L)) as [slot|] eqn:Hlast.
  - exists (slot.1, size slot.2). split; [done|]. simpl in *. by subst.
  - by apply last_None in Hlast.
Qed.

(** ** The layout of a map entry *)

Lemma ComputeLayout_map_entry d s0 :
  Descriptor.map_entry d = true →
  ComputeLayout d s0 =
  Returns (tt,
    Make (<[field_ptr (Descriptor.FindFieldByNumber d 2) := MkSize 8 16]>
            (<[field_ptr (Descriptor.FindFieldByNumber d 1) := MkSize 0 0]>
               (field_offsets_ s0)))
         (hasbit_indexes_ s0) (oneof_case_offsets_ s0)
         (MkSize 8 16) (MkSize 16 32)
         (hasbit_count_ s0) (hasbit_bytes_ s0) (required_count_ s0)).
Proof.
  intros Hme. unfold ComputeLayout. rewrite Hme.
  rewrite !M_bind_modify, M_bind_run, M_bind_run, Place_unfold.
  simpl_state.
  change (Size_.AlignUp (MkSize 0 0) _) with (Returns (MkSize 0 0)).
  cbn match. rewrite M_bind_modify, M_bind_run, Place_unfold. simpl_state.
  change (Size_.AlignUp _ _) with (Returns (MkSize 8 16)).
  cbn match. unfold modify at 1.
  unfold align_overall_size. rewrite !M_bind_get, M_bind_run. simpl_state.
  change (Size_.AlignUp _ _) with (Returns (MkSize 16 32)).
  done.
Qed.

Lemma chain_Forall lo items hi :
  chain lo items hi →
  Forall (λ item, Size_le (Size_plus item.1 item.2) hi) items.
Proof.
  revert lo. induction items as [|[off sz] items IH]; intros lo; [done|].
  cbn [chain]. intros (H1 & H2 & H3). constructor; [|by eapply IH].
  by apply chain_le in H3.
Qed.

(** C3.  [Place] returns the running size aligned up to the alignment of the
    shape (the least multiple of the alignment that is not below the running
    size), the running size becomes that offset plus the size of the shape,
    and the running maximum alignment becomes its maximum with the size of
    the shape (not with its alignment).  The total size of a layout is the
    end of the last placed item aligned up to the running maximum
    alignment: a multiple of that maximum, not below the end of any placed
    item, and less than the end of the last placed item plus that maximum.
    All of this holds in the 32-bit and in the 64-bit component. *)
Theorem place_and_total_size d u L sa s offset s' :
  valid d → constructor u d = Returns L →
  Size_in 0 (2 ^ 60) (size_ s) →
  Size_in 1 (2 ^ 60) (align sa) →
  Size_in 0 (2 ^ 60) (size sa) →
  Place sa s = Returns (offset, s') →
  (Size_divides (align sa) offset
   ∧ Size_le (size_ s) offset
   ∧ Size_lt offset (Size_plus (size_ s) (align sa)))
  ∧ size_ s' = Size_plus offset (size sa)
  ∧ maxalign_ s' = MkSize (Z.max (size32 (maxalign_ s)) (size32 (size sa)))
                          (Z.max (size64 (maxalign_ s)) (size64 (size sa)))
  ∧ Size_divides (maxalign_ L) (message_size L)
  ∧ Forall (λ item, Size_le (Size_plus item.1 item.2) (message_size L))
           (placed_items d L)
  ∧ (∃ item, last (placed_items d L) = Some item
       ∧ Size_lt (message_size L)
                 (Size_plus (Size_plus item.1 item.2) (maxalign_ L))).
Proof.
  intros Hvalid HL Hs Ha Hsz HP.
  apply Place_returns in HP as (-> & Hd & Hle & Hlt); [|done..].
  split; [done|]. do 2 (split; [done|]).
  apply constructor_Returns in HL. unfold placed_items, message_size.
  destruct (Descriptor.map_entry d) eqn:Hme.
  - rewrite ComputeLayout_map_entry in HL by done. injection HL as <-.
    simpl_state. split.
    { split; simpl; [by exists 2|by exists 2]. }
    unfold map_entry_items. simpl_state.
    set (k1 := field_ptr (Descriptor.FindFieldByNumber d 1)).
    set (k2 := field_ptr (Descriptor.FindFieldByNumber d 2)).
    set (m := <[k2 := _]> _).
    assert (∀ k, k = k1 ∨ k = k2 →
              Size_le (Size_plus (default (MkSize 0 0) (m !! k)) (MkSize 8 16))
                      (MkSize 16 32)) as Hm.
    { intros k Hk. unfold m. destruct (decide (k = k2)) as [->|Hne].
      - rewrite lookup_insert_eq. unfold Size_le; simpl; lia.
      - destruct Hk as [-> | ->]; [|done].
        rewrite lookup_insert_ne, lookup_insert_eq by done.
        unfold Size_le; simpl; lia. }
    cbn [fmap list_fmap]. split; [repeat constructor; apply Hm; auto|].
    eexists. split; [reflexivity|]. cbn [fst snd]. unfold m.
    rewrite lookup_insert_eq. unfold Size_lt; simpl; lia.
  - destruct (ordinary_layout_inv d _ L Hvalid Hme HL)
      as (_ & _ & _ & _ & _ & (unaligned & Hch & Hun) & Hdiv & _).
    split; [done|]. split.
    + apply chain_Forall in Hch. eapply Forall_impl; [exact Hch|].
      intros item Hitem. simpl in Hitem.
      eapply Size_le_trans; [exact Hitem|exact Hun].
    + by apply (ordinary_size_tight d (default_initialized u)).
Qed.

Lemma place_and_total_size_witness :
  let sa := MkSizeAndAlign (MkSize 8 16) (MkSize 4 8) in
  let L := layout_of example_message in
  (Size_divides (align sa) (place_result sa junk).1
   ∧ Size_le (size_ junk) (place_result sa junk).1
   ∧ Size_lt (place_result sa junk).1 (Size_plus (size_ junk) (align sa)))
  ∧ size_ (place_result sa junk).2 = Size_plus (place_result sa junk).1 (size sa)
  ∧ maxalign_ (place_result sa junk).2
    = MkSize (Z.max (size32 (maxalign_ junk)) (size32 (size sa)))
             (Z.max (size64 (maxalign_ junk)) (size64 (size sa)))
  ∧ Size_divides (maxalign_ L) (message_size L)
  ∧ Forall (λ item, Size_le (Size_plus item.1 item.2) (message_size L))
           (placed_items example_message L)
  ∧ (∃ item, last (placed_items example_message L) = Some item
       ∧ Size_lt (message_size L)
                 (Size_plus (Size_plus item.1 item.2) (maxalign_ L))).
Proof.
  cbn zeta.
  apply (place_and_total_size example_message junk).
  - apply (bool_decide_unpack _). vm_compute. exact I.
  - vm_compute. reflexivity.
  - vm_compute. intuition discriminate.
  - vm_compute. intuition discriminate.
  - vm_compute. intuition discriminate.
  - vm_compute. reflexivity.
Defined.

(** C7.  For a map entry whose key has number 1 and whose value has number
    2, whatever the types of the two fields: exactly these two fields get an
    offset, the key [{0,0}] and the value [{8,16}], and the total size is
    [{16,32}] (two slots of size [{8,16}] aligned to [{4,8}]); no oneof gets
    a discriminator offset and no field gets a hasbit index. *)
Theorem map_entry_uniformity d u key value :
  Descriptor.map_entry d = true →
  Descriptor.FindFieldByNumber d 1 = Some key →
  Descriptor.FindFieldByNumber d 2 = Some value →
  FieldDescriptor.addr key ≠ FieldDescriptor.addr value →
  ∃ L, constructor u d = Returns L
    ∧ field_offsets_ L
      = <[FieldDescriptor.addr value := MkSize 8 16]>
          {[FieldDescriptor.addr key := MkSize 0 0]}
    ∧ dom (field_offsets_ L)
      = ({[FieldDescriptor.addr key; FieldDescriptor.addr value]} : gset N)
    ∧ GetFieldOffset L key = Returns (MkSize 0 0)
    ∧ GetFieldOffset L value = Returns (MkSize 8 16)
    ∧ message_size L = MkSize 16 32
    ∧ maxalign_ L = MkSize 8 16
    ∧ oneof_case_offsets_ L = ∅
    ∧ hasbit_indexes_ L = ∅.
Proof.
  intros Hme Hk Hv Hne. eexists. split.
  { apply constructor_Returns. by apply ComputeLayout_map_entry. }
  rewrite Hk, Hv. unfold default_initialized. simpl_state. cbn [field_ptr from_option].
  split; [done|]. split.
  { rewrite !dom_insert_L, dom_empty_L, (right_id_L ∅ (∪)). apply (comm_L (∪)). }
  unfold GetFieldOffset, GetMapValue. simpl_state.
  rewrite lookup_insert_eq, lookup_insert_ne, lookup_insert_eq by done. done.
Qed.

Lemma map_entry_uniformity_witness :
  ∃ L, constructor junk example_map_entry = Returns L
    ∧ field_offsets_ L = <[1002%N := MkSize 8 16]> {[1001%N := MkSize 0 0]}
    ∧ dom (field_offsets_ L) = ({[1001%N; 1002%N]} : gset N)
    ∧ GetFieldOffset L
        (mk_field 1 "pkg.M.TagsEntry.key" LABEL_OPTIONAL CPPTYPE_STRING true None)
      = Returns (MkSize 0 0)
    ∧ GetFieldOffset L
        (mk_field 2 "pkg.M.TagsEntry.value" LABEL_OPTIONAL CPPTYPE_INT32 true None)
      = Returns (MkSize 8 16)
    ∧ message_size L = MkSize 16 32
    ∧ maxalign_ L = MkSize 8 16
    ∧ oneof_case_offsets_ L = ∅
    ∧ hasbit_indexes_ L = ∅.
Proof.
  apply (map_entry_uniformity example_map_entry junk
           (mk_field 1 "pkg.M.TagsEntry.key" LABEL_OPTIONAL CPPTYPE_STRING true None)
           (mk_field 2 "pkg.M.TagsEntry.value" LABEL_OPTIONAL CPPTYPE_INT32 true None)).
  - reflexivity.
  - reflexivity.
  - reflexivity.
  - vm_compute. discriminate.
Defined.

(** C10.  For a map entry the constructor writes the two field offsets, the
    running size and the running maximum alignment, and nothing else:
    [hasbit_count_], [hasbit_bytes_] and [required_count_] keep the
    indeterminate values they had before the constructor ran, so the three
    queries can return any value. *)
Theorem map_entry_counters_uninitialized d u :
  Descriptor.map_entry d = true →
  ∃ L, constructor u d = Returns L
    ∧ L = set_size_ (MkSize 16 32)
            (set_maxalign_ (MkSize 8 16)
               (set_field_offsets_
                  (<[field_ptr (Descriptor.FindFieldByNumber d 2) := MkSize 8 16]>
                     {[field_ptr (Descriptor.FindFieldByNumber d 1) := MkSize 0 0]})
                  (default_initialized u)))
    ∧ hasbit_count L = hasbit_count_ u
    ∧ hasbit_bytes L = hasbit_bytes_ u
    ∧ required_count L = required_count_ u
    ∧ (∀ h b r, ∃ u' L', constructor u' d = Returns L'
                         ∧ hasbit_count L' = h ∧ hasbit_bytes L' = b
                         ∧ required_count L' = r).
Proof.
  intros Hme. eexists. split.
  { apply constructor_Returns. by apply ComputeLayout_map_entry. }
  split; [done|]. do 3 (split; [done|]).
  intros h b r. exists (Make ∅ ∅ ∅ (MkSize 0 0) (MkSize 0 0) h b r). eexists.
  split; [apply constructor_Returns; by apply ComputeLayout_map_entry|done].
Qed.

Lemma map_entry_counters_uninitialized_witness :
  ∃ L, constructor junk example_map_entry = Returns L
    ∧ hasbit_count L = 41 ∧ hasbit_bytes L = -7 ∧ required_count L = 99.
Proof.
  destruct (map_entry_counters_uninitialized example_map_entry junk eq_refl)
    as (L & HL & _ & H1 & H2 & H3 & _).
  exists L. repeat split; assumption.
Defined.

(** ** Positions in sorted ranges *)

Lemma StronglySorted_lookup {A} (R : relation A) l i j x y :
  StronglySorted R l → (i < j)%nat → l !! i = Some x → l !! j = Some y → R x y.
Proof.
  intros Hl. revert i j. induction Hl as [|z l Hl IH Hz]; intros i j Hij; [done|].
  destruct j as [|j]; [lia|]. destruct i as [|i]; simpl.
  - intros [= ->] Hy. rewrite Forall_forall in Hz.
    by eapply Hz, list_elem_of_lookup_2.
  - apply IH. lia.
Qed.

Lemma oneof_order_StronglySorted d :
  StronglySorted
    (not_after (λ a b, String.ltb (OneofDescriptor.full_name a)
                                  (OneofDescriptor.full_name b)))
    (oneof_order d).
Proof.
  apply insertion_sort_StronglySorted.
  - intros a b. apply String_ltb_asym.
  - intros a b c. unfold not_after. apply String_ltb_trans.
Qed.

Lemma String_ltb_irrefl a : String.ltb a a = false.
Proof.
  destruct (String.ltb a a) eqn:E; [|done]. by rewrite (String_ltb_asym _ _ E) in E.
Qed.

(** A oneof with the smaller name is placed first. *)
Lemma oneof_order_position d o o' :
  o ∈ Descriptor.oneof_decls d → o' ∈ Descriptor.oneof_decls d →
  String.ltb (OneofDescriptor.full_name o) (OneofDescriptor.full_name o') = true →
  ∃ i j, (i < j)%nat ∧ oneof_order d !! i = Some o ∧ oneof_order d !! j = Some o'.
Proof.
  intros Ho Ho' Hlt.
  rewrite <- oneof_order_Permutation in Ho, Ho'.
  apply list_elem_of_lookup_1 in Ho as [i Hi], Ho' as [j Hj].
  exists i, j. split; [|done].
  destruct (decide (i < j)%nat) as [|Hge]; [done|exfalso].
  destruct (decide (i = j)) as [->|Hne].
  - rewrite Hi in Hj. injection Hj as ->. by rewrite String_ltb_irrefl in Hlt.
  - assert (j < i)%nat as Hji by lia.
    pose proof (StronglySorted_lookup _ _ _ _ _ _
                  (oneof_order_StronglySorted d) Hji Hj Hi) as Hna.
    unfold not_after in Hna. congruence.
Qed.

(** ** What the queries return for an ordinary message *)

Section ordinary_queries.
Context (d : Descriptor.t) (u L : t).
Context (Hvalid : valid d) (Hme : Descriptor.map_entry d = false).
Context (HL : constructor u d = Returns L).

Lemma ordinary_inv :
  ComputeLayout d (default_initialized u) = Returns (tt, L).
Proof. by apply constructor_Returns. Qed.

Lemma ordinary_regions_chain :
  ∃ unaligned, chain (MkSize 0 0) (layout_regions d L) unaligned
               ∧ Size_le unaligned (size_ L).
Proof.
  destruct (ordinary_layout_inv d _ L Hvalid Hme ordinary_inv)
    as (_ & _ & _ & _ & _ & (unaligned & Hch & Hun) & _).
  exists unaligned. split; [by apply chain_layout_regions|done].
Qed.

Lemma GetFieldOffset_non_oneof f :
  f ∈ field_order d → GetFieldOffset L f = Returns (field_offset L f).
Proof.
  intros Hf.
  destruct (ordinary_layout_inv d _ L Hvalid Hme ordinary_inv)
    as (_ & _ & _ & _ & _ & _ & _ & _ & Hfields & _).
  destruct (Hfields f Hf) as [[off Hoff] _].
  unfold GetFieldOffset, GetMapValue, field_offset. by rewrite Hoff.
Qed.

Lemma GetFieldOffset_member o f :
  o ∈ Descriptor.oneof_decls d → f ∈ OneofDescriptor.fields o →
  GetFieldOffset L f = Returns (data_offset L o).
Proof.
  intros Ho Hf.
  destruct (ordinary_layout_inv d _ L Hvalid Hme ordinary_inv)
    as (_ & _ & _ & _ & _ & _ & _ & _ & _ & Hdata & _).
  apply (elem_of_oneof_order d) in Ho.
  unfold GetFieldOffset, GetMapValue. by rewrite (Hdata o f Ho Hf).
Qed.

Lemma GetOneofCaseOffset_returns o :
  o ∈ Descriptor.oneof_decls d →
  GetOneofCaseOffset L o = Returns (case_offset L o).
Proof.
  intros Ho.
  destruct (ordinary_layout_inv d _ L Hvalid Hme ordinary_inv)
    as (_ & _ & _ & _ & _ & _ & _ & _ & _ & _ & Hcase & _).
  apply (elem_of_oneof_order d) in Ho. destruct (Hcase o Ho) as [[off Hoff] _].
  unfold GetOneofCaseOffset, GetMapValue, case_offset. by rewrite Hoff.
Qed.

(** A field that no placed oneof has as a member and that is inside some
    oneof has no offset. *)
Lemma field_offsets_unplaced f :
  f ∈ Descriptor.fields d →
  FieldDescriptor.containing_oneof f ≠ None →
  FieldDescriptor.addr f ∉ oneof_order d ≫= member_addrs →
  field_offsets_ L !! FieldDescriptor.addr f = None.
Proof.
  intros Hf Hsome Hnot.
  destruct (ordinary_layout_inv d _ L Hvalid Hme ordinary_inv)
    as (_ & _ & _ & _ & _ & _ & _ & _ & _ & _ & _ & Hframe & _).
  rewrite Hframe; [done| |done].
  intros Hin. apply list_elem_of_fmap in Hin as (g & Heq & Hg).
  apply elem_of_field_order in Hg as [Hgd Hnone].
  apply (field_addr_inj d Hvalid) in Heq; [|done..]. congruence.
Qed.

(** The member of a placed oneof with a given address. *)
Lemma member_of_addr f :
  f ∈ Descriptor.fields d →
  FieldDescriptor.addr f ∈ oneof_order d ≫= member_addrs →
  ∃ o, o ∈ Descriptor.oneof_decls d ∧ f ∈ OneofDescriptor.fields o.
Proof.
  intros Hf Hin. apply list_elem_of_bind in Hin as (o & Ha & Ho).
  apply (elem_of_oneof_order d) in Ho.
  apply list_elem_of_fmap in Ha as (g & Heq & Hg).
  destruct (valid_member d Hvalid _ _ Ho Hg) as [Hgd _].
  apply (field_addr_inj d Hvalid) in Heq; [|done..]. subst g. by exists o.
Qed.

(** Every region after the first starts behind the hasbits. *)
Lemma region_behind_hasbits i r :
  layout_regions d L !! S i = Some r →
  Size_le (MkSize (hasbit_bytes L) (hasbit_bytes L)) r.1.
Proof.
  intros Hr. destruct ordinary_regions_chain as (unaligned & Hch & _).
  destruct r as [off sz].
  pose proof (chain_ordered _ _ _ 0%nat (S i) _ _ _ _ Hch ltac:(lia)
                (layout_regions_hasbits d L) Hr) as Hle.
  unfold hasbit_item in Hle. done.
Qed.

Lemma field_behind_hasbits f offset :
  f ∈ Descriptor.fields d → GetFieldOffset L f = Returns offset →
  Size_le (MkSize (hasbit_bytes L) (hasbit_bytes L)) offset.
Proof.
  intros Hf Hoff.
  destruct (FieldDescriptor.containing_oneof f) as [a|] eqn:Hc.
  - destruct (decide (FieldDescriptor.addr f ∈ oneof_order d ≫= member_addrs))
      as [Hin|Hnot].
    + destruct (member_of_addr f Hf Hin) as (o & Ho & Hfo).
      rewrite (GetFieldOffset_member o f Ho Hfo) in Hoff. injection Hoff as <-.
      apply (elem_of_oneof_order d) in Ho.
      apply list_elem_of_lookup_1 in Ho as [j Hj].
      by apply (region_behind_hasbits _ _ (layout_regions_oneof d L j o Hj)).
    + unfold GetFieldOffset, GetMapValue in Hoff.
      rewrite field_offsets_unplaced in Hoff; [done..|congruence|done].
  - assert (f ∈ field_order d) as Hfo by by apply elem_of_field_order.
    rewrite (GetFieldOffset_non_oneof f Hfo) in Hoff. injection Hoff as <-.
    apply list_elem_of_lookup_1 in Hfo as [i Hi].
    by apply (region_behind_hasbits _ _ (layout_regions_field d L i f Hi)).
Qed.
End ordinary_queries.

Lemma chain_app_r lo l1 l2 hi :
  chain lo (l1 ++ l2) hi → ∃ mid, chain mid l2 hi.
Proof.
  revert lo. induction l1 as [|[off sz] l1 IH]; intros lo; simpl.
  - intros Hc. by exists lo.
  - intros (_ & _ & Hc). by eapply IH.
Qed.

(** In a chain of items the discriminator of a oneof follows its data slot. *)
Lemma chain_oneof_adjacent L o l : ∀ lo hi,
  chain lo (l ≫= oneof_items L) hi → o ∈ l →
  Size_le (Size_plus (data_offset L o) (size (oneof_maxsize o))) (case_offset L o).
Proof.
  induction l as [|o1 l IH]; intros lo hi Hc Hin; [by inv Hin|].
  rewrite bind_cons in Hc. unfold oneof_items at 1 in Hc.
  cbn [app chain] in Hc. destruct Hc as (_ & _ & H3 & _ & H5).
  inv Hin; [done|]. by eapply IH.
Qed.

(** C4.  In the layout of an ordinary message, for every oneof: every member
    field has the same offset, that of the data slot; the shape of the data
    slot is the component-wise maximum of the shapes [SizeOf] gives the
    members, and the data offset is a multiple of its alignment; the
    discriminator offset is the data offset plus the size of the data slot,
    aligned up to 4; the data slot starts behind every field outside oneofs;
    and a oneof with a smaller full name lies before one with a larger full
    name. *)
Theorem oneof_sharing d u L o :
  valid d → Descriptor.map_entry d = false →
  constructor u d = Returns L →
  o ∈ Descriptor.oneof_decls d →
  let data := data_offset L o in
  let discriminator := case_offset L o in
  (∀ f, f ∈ OneofDescriptor.fields o → GetFieldOffset L f = Returns data)
  ∧ oneof_maxsize o = max_member_shape o
  ∧ Size_divides (align (oneof_maxsize o)) data
  ∧ GetOneofCaseOffset L o = Returns discriminator
  ∧ (Size_divides (MkSize 4 4) discriminator
     ∧ Size_le (Size_plus data (size (oneof_maxsize o))) discriminator
     ∧ Size_lt discriminator
         (Size_plus (Size_plus data (size (oneof_maxsize o))) (MkSize 4 4)))
  ∧ (∀ f, f ∈ Descriptor.fields d → FieldDescriptor.containing_oneof f = None →
       ∃ offset, GetFieldOffset L f = Returns offset
                 ∧ Size_le (Size_plus offset (size (SizeOf f))) data)
  ∧ (∀ o', o' ∈ Descriptor.oneof_decls d →
       String.ltb (OneofDescriptor.full_name o) (OneofDescriptor.full_name o') = true →
       Size_le (Size_plus discriminator (MkSize 4 4)) (data_offset L o')).
Proof.
  intros Hvalid Hme HL Ho. cbn zeta.
  pose proof (ordinary_inv d u L HL) as Hrun.
  destruct (ordinary_layout_inv d _ L Hvalid Hme Hrun)
    as (_ & _ & _ & _ & _ & (unaligned & Hitems & _) & _ & _ & _ & _ & Hcase & _).
  destruct (ordinary_regions_chain d u L Hvalid Hme HL) as (un & Hch & _).
  pose proof Ho as Ho'. apply (elem_of_oneof_order d) in Ho'.
  destruct (Hcase o Ho') as (_ & Hdata & Hdisc & Hlt).
  pose proof Ho' as Hpos. apply list_elem_of_lookup_1 in Hpos as [j Hj].
  split; [intros f Hf; by eapply GetFieldOffset_member|].
  split; [apply oneof_maxsize_max|]. split; [done|].
  split; [by eapply GetOneofCaseOffset_returns|].
  split.
  { split; [done|]. split; [|done].
    (* the discriminator follows the data slot in the chain of items *)
    unfold ordinary_items in Hitems. cbn [chain] in Hitems.
    destruct Hitems as (_ & _ & Hitems).
    apply chain_app_r in Hitems as [mid Hitems].
    by eapply chain_oneof_adjacent. }
  split.
  - intros f Hf Hnone.
    assert (f ∈ field_order d) as Hfo by by apply elem_of_field_order.
    exists (field_offset L f). split; [by eapply GetFieldOffset_non_oneof|].
    apply list_elem_of_lookup_1 in Hfo as [i Hi].
    pose proof (lookup_lt_Some _ _ _ Hi) as Hlen.
    assert (S i < S (length (field_order d) + j))%nat as Hij by lia.
    exact (chain_ordered _ _ _ _ _ _ _ _ _ Hch Hij
             (layout_regions_field d L i f Hi) (layout_regions_oneof d L j o Hj)).
  - intros o' Ho2 Hname.
    destruct (oneof_order_position d o o' Ho Ho2 Hname) as (i & k & Hik & Hi & Hk).
    assert (S (length (field_order d) + i) < S (length (field_order d) + k))%nat
      as Hlt' by lia.
    pose proof (chain_ordered _ _ _ _ _ _ _ _ _ Hch Hlt'
                  (layout_regions_oneof d L i o Hi)
                  (layout_regions_oneof d L k o' Hk)) as Hle.
    unfold Size_le, Size_plus, Size_minus in *; simpl in *. lia.
Qed.

Lemma oneof_sharing_witness :
  let L := layout_of example_message in
  let o := example_oneof example_fields 1 "pkg.M.choice" in
  let data := data_offset L o in
  let discriminator := case_offset L o in
  (∀ f, f ∈ OneofDescriptor.fields o → GetFieldOffset L f = Returns data)
  ∧ oneof_maxsize o = max_member_shape o
  ∧ Size_divides (align (oneof_maxsize o)) data
  ∧ GetOneofCaseOffset L o = Returns discriminator
  ∧ (Size_divides (MkSize 4 4) discriminator
     ∧ Size_le (Size_plus data (size (oneof_maxsize o))) discriminator
     ∧ Size_lt discriminator
         (Size_plus (Size_plus data (size (oneof_maxsize o))) (MkSize 4 4)))
  ∧ (∀ f, f ∈ Descriptor.fields example_message →
       FieldDescriptor.containing_oneof f = None →
       ∃ offset, GetFieldOffset L f = Returns offset
                 ∧ Size_le (Size_plus offset (size (SizeOf f))) data)
  ∧ (∀ o', o' ∈ Descriptor.oneof_decls example_message →
       String.ltb (OneofDescriptor.full_name o) (OneofDescriptor.full_name o') = true →
       Size_le (Size_plus discriminator (MkSize 4 4)) (data_offset L o')).
Proof.
  apply (oneof_sharing example_message junk).
  - apply (bool_decide_unpack _). vm_compute. exact I.
  - reflexivity.
  - vm_compute. reflexivity.
  - apply list_elem_of_here.
Defined.

(** C5.  In the layout of an ordinary message, the region of the hasbits,
    the regions of the fields outside oneofs and the regions of the oneofs
    (data slot through discriminator) are pairwise disjoint, in the 32-bit
    and in the 64-bit component.  The regions are those of all fields
    outside oneofs and of all oneofs of the message, at the offsets the
    queries return. *)
Theorem regions_disjoint d u L :
  valid d → Descriptor.map_entry d = false →
  constructor u d = Returns L →
  field_order d ≡ₚ non_oneof_fields d
  ∧ oneof_order d ≡ₚ Descriptor.oneof_decls d
  ∧ (∀ f, f ∈ field_order d → GetFieldOffset L f = Returns (field_offset L f))
  ∧ (∀ o, o ∈ oneof_order d →
       GetOneofCaseOffset L o = Returns (case_offset L o)
       ∧ ∀ f, f ∈ OneofDescriptor.fields o →
              GetFieldOffset L f = Returns (data_offset L o))
  ∧ (∀ i j r1 r2, i ≠ j →
       layout_regions d L !! i = Some r1 → layout_regions d L !! j = Some r2 →
       disjoint32 r1 r2 ∧ disjoint64 r1 r2).
Proof.
  intros Hvalid Hme HL.
  split; [apply field_order_Permutation|].
  split; [apply oneof_order_Permutation|].
  split; [intros f Hf; by eapply GetFieldOffset_non_oneof|].
  split.
  { intros o Ho. apply (elem_of_oneof_order d) in Ho.
    split; [by eapply GetOneofCaseOffset_returns|].
    intros f Hf. by eapply GetFieldOffset_member. }
  destruct (ordinary_regions_chain d u L Hvalid Hme HL) as (un & Hch & _).
  intros i j r1 r2. by eapply chain_disjoint.
Qed.

Lemma regions_disjoint_witness :
  let L := layout_of example_message in
  field_order example_message ≡ₚ non_oneof_fields example_message
  ∧ oneof_order example_message ≡ₚ Descriptor.oneof_decls example_message
  ∧ (∀ f, f ∈ field_order example_message →
       GetFieldOffset L f = Returns (field_offset L f))
  ∧ (∀ o, o ∈ oneof_order example_message →
       GetOneofCaseOffset L o = Returns (case_offset L o)
       ∧ ∀ f, f ∈ OneofDescriptor.fields o →
              GetFieldOffset L f = Returns (data_offset L o))
  ∧ (∀ i j r1 r2, i ≠ j →
       layout_regions example_message L !! i = Some r1 →
       layout_regions example_message L !! j = Some r2 →
       disjoint32 r1 r2 ∧ disjoint64 r1 r2).
Proof.
  apply (regions_disjoint example_message junk).
  - apply (bool_decide_unpack _). vm_compute. exact I.
  - reflexivity.
  - vm_compute. reflexivity.
Defined.

(** ** The hotness order, position by position *)

Lemma hotness_order_positions d i j f g :
  NoDup (FieldDescriptor.number <$> Descriptor.fields d) →
  (i < j)%nat → hotness_order d !! i = Some f → hotness_order d !! j = Some g →
  (FieldDescriptor.is_required g = true → FieldDescriptor.is_required f = true)
  ∧ (FieldDescriptor.is_required f = FieldDescriptor.is_required g →
     FieldDescriptor.number f < FieldDescriptor.number g).
Proof.
  intros Hnd Hij Hi Hj.
  pose proof (StronglySorted_lookup _ _ _ _ _ _
                (hotness_order_StronglySorted d) Hij Hi Hj) as Hna.
  unfold not_after, pair_less, hotness_key in Hna. simpl in Hna.
  assert (FieldDescriptor.number f ≠ FieldDescriptor.number g) as Hne.
  { intros Heq. rewrite <- hotness_order_Permutation in Hnd.
    assert (i = j); [|lia].
    eapply NoDup_lookup; [exact Hnd| |];
      rewrite list_lookup_fmap; [by rewrite Hi|by rewrite Hj, Heq]. }
  destruct (FieldDescriptor.is_required f), (FieldDescriptor.is_required g);
    simpl in Hna; split; intros; try done; lia.
Qed.

(** The required fields are the first [length (tracked_required d)] of the
    tracked fields. *)
Lemma tracked_required_prefix d i f :
  tracked_fields d !! i = Some f →
  (FieldDescriptor.is_required f = true ↔ (i < length (tracked_required d))%nat).
Proof.
  destruct (tracked_fields_split d) as (rs & os & Heq & Hrs & Hos).
  unfold tracked_required. rewrite Heq, filter_required_first by done.
  rewrite Forall_forall in Hrs, Hos. intros Hi.
  apply lookup_app_Some in Hi as [Hi|[Hlen Hi]].
  - pose proof (lookup_lt_Some _ _ _ Hi).
    apply list_elem_of_lookup_2, Hrs in Hi. tauto.
  - apply list_elem_of_lookup_2, Hos in Hi. split; [congruence|lia].
Qed.

(** C6.  In the layout of an ordinary message: the hotness order lists all
    fields, required fields before the others and each group by ascending
    field number; the fields that get a hasbit get, in that order, the
    indices 1, 2, 3, ... (0 is never assigned) and the other fields get
    none; the required ones among them are exactly those with the lowest
    indices, 1 to [required_count]; the hasbit region has ceil(count / 8)
    bytes; the first call of [Place], on a running size of 0, puts it at
    offset 0 with alignment 1; and every field offset lies behind it. *)
Theorem hasbit_assignment d u L :
  valid d → Descriptor.map_entry d = false →
  constructor u d = Returns L →
  (hotness_order d ≡ₚ Descriptor.fields d
   ∧ ∀ i j f g, (i < j)%nat →
       hotness_order d !! i = Some f → hotness_order d !! j = Some g →
       (FieldDescriptor.is_required g = true → FieldDescriptor.is_required f = true)
       ∧ (FieldDescriptor.is_required f = FieldDescriptor.is_required g →
          FieldDescriptor.number f < FieldDescriptor.number g))
  ∧ (∀ i f, tracked_fields d !! i = Some f →
       GetHasbitIndex L f = Returns (Z.of_nat i + 1))
  ∧ (∀ f, f ∈ Descriptor.fields d → HasHasbit d f = false →
       hasbit_indexes_ L !! FieldDescriptor.addr f = None)
  ∧ hasbit_count L = Z.of_nat (length (tracked_fields d))
  ∧ (∀ i f, tracked_fields d !! i = Some f →
       (FieldDescriptor.is_required f = true ↔ Z.of_nat i + 1 ≤ required_count L))
  ∧ (8 * (hasbit_bytes L - 1) < hasbit_count L ≤ 8 * hasbit_bytes L)
  ∧ (∀ s, size_ s = MkSize 0 0 →
       ∃ s', Place (MkSizeAndAlign (MkSize (hasbit_bytes L) (hasbit_bytes L))
                                   (MkSize 1 1)) s
             = Returns (MkSize 0 0, s')
             ∧ size_ s' = MkSize (hasbit_bytes L) (hasbit_bytes L))
  ∧ (∀ f offset, f ∈ Descriptor.fields d → GetFieldOffset L f = Returns offset →
       Size_le (MkSize (hasbit_bytes L) (hasbit_bytes L)) offset).
Proof.
  intros Hvalid Hme HL.
  pose proof (ordinary_inv d u L HL) as Hrun.
  destruct (ordinary_layout_inv d _ L Hvalid Hme Hrun)
    as (_ & Hidx & Hcount & Hbytes & Hreq & _).
  pose proof (hasbit_bytes_of_range d (valid_field_count d Hvalid)) as [Hb1 Hb2].
  destruct (lookup_assign_indexes (tracked_fields d) 0 ∅
              (tracked_fields_addrs d Hvalid)) as [Hin Hout].
  unfold hasbit_count, hasbit_bytes, required_count.
  rewrite Hcount, Hbytes, Hreq.
  split.
  { split; [apply hotness_order_Permutation|].
    intros i j f g. apply hotness_order_positions, Hvalid. }
  split.
  { intros i f Hi. unfold GetHasbitIndex, GetMapValue.
    rewrite Hidx. change (hasbit_indexes_ (default_initialized u)) with (∅ : gmap N Z).
    rewrite (Hin i f Hi). do 2 f_equal. }
  split.
  { intros f Hf Hno. rewrite Hidx.
    change (hasbit_indexes_ (default_initialized u)) with (∅ : gmap N Z).
    rewrite Hout; [done|]. intros Hmem.
    apply list_elem_of_fmap in Hmem as (g & Heq & Hg).
    apply list_elem_of_filter in Hg as [Hyes Hg].
    rewrite hotness_order_Permutation in Hg.
    apply (field_addr_inj d Hvalid) in Heq; [|done..]. congruence. }
  split; [done|]. split.
  { intros i f Hi. rewrite (tracked_required_prefix d i f Hi). lia. }
  split; [lia|]. split.
  { intros s Hs. eexists. split; [apply Place_hasbits; [done|lia]|done]. }
  intros f offset Hf Hoff.
  pose proof (field_behind_hasbits d u L Hvalid Hme HL f offset Hf Hoff) as Hle.
  unfold hasbit_bytes in Hle. by rewrite Hbytes in Hle.
Qed.

Lemma hasbit_assignment_witness :
  let d := example_message in
  let L := layout_of example_message in
  (hotness_order d ≡ₚ Descriptor.fields d
   ∧ ∀ i j f g, (i < j)%nat →
       hotness_order d !! i = Some f → hotness_order d !! j = Some g →
       (FieldDescriptor.is_required g = true → FieldDescriptor.is_required f = true)
       ∧ (FieldDescriptor.is_required f = FieldDescriptor.is_required g →
          FieldDescriptor.number f < FieldDescriptor.number g))
  ∧ (∀ i f, tracked_fields d !! i = Some f →
       GetHasbitIndex L f = Returns (Z.of_nat i + 1))
  ∧ (∀ f, f ∈ Descriptor.fields d → HasHasbit d f = false →
       hasbit_indexes_ L !! FieldDescriptor.addr f = None)
  ∧ hasbit_count L = Z.of_nat (length (tracked_fields d))
  ∧ (∀ i f, tracked_fields d !! i = Some f →
       (FieldDescriptor.is_required f = true ↔ Z.of_nat i + 1 ≤ required_count L))
  ∧ (8 * (hasbit_bytes L - 1) < hasbit_count L ≤ 8 * hasbit_bytes L)
  ∧ (∀ s, size_ s = MkSize 0 0 →
       ∃ s', Place (MkSizeAndAlign (MkSize (hasbit_bytes L) (hasbit_bytes L))
                                   (MkSize 1 1)) s
             = Returns (MkSize 0 0, s')
             ∧ size_ s' = MkSize (hasbit_bytes L) (hasbit_bytes L))
  ∧ (∀ f offset, f ∈ Descriptor.fields d → GetFieldOffset L f = Returns offset →
       Size_le (MkSize (hasbit_bytes L) (hasbit_bytes L)) offset).
Proof.
  apply (hasbit_assignment example_message junk).
  - apply (bool_decide_unpack _). vm_compute. exact I.
  - reflexivity.
  - vm_compute. reflexivity.
Defined.

(** ** Independence of the declaration order *)

Lemma HasHasbit_map_entry d1 d2 f :
  Descriptor.map_entry d1 = Descriptor.map_entry d2 →
  HasHasbit d1 f = HasHasbit d2 f.
Proof. intros Hme. unfold HasHasbit. by rewrite Hme. Qed.

Lemma max_of_Permutation l1 l2 : l1 ≡ₚ l2 → max_of l1 = max_of l2.
Proof. induction 1; simpl; lia. Qed.

Lemma oneof_maxsize_Permutation o1 o2 :
  OneofDescriptor.fields o1 ≡ₚ OneofDescriptor.fields o2 →
  oneof_maxsize o1 = oneof_maxsize o2.
Proof.
  intros Hp. rewrite !oneof_maxsize_max. unfold max_member_shape.
  do 2 f_equal; apply max_of_Permutation; by rewrite Hp.
Qed.

Lemma foldl_insert_Permutation (data : Size) l1 l2 (m : gmap N Size) :
  l1 ≡ₚ l2 →
  foldl (λ m f, <[FieldDescriptor.addr f := data]> m) m l1
  = foldl (λ m f, <[FieldDescriptor.addr f := data]> m) m l2.
Proof.
  intros Hp. apply map_eq. intros k. rewrite !lookup_foldl_insert.
  destruct (decide (k ∈ FieldDescriptor.addr <$> l1)) as [H1|H1],
           (decide (k ∈ FieldDescriptor.addr <$> l2)) as [H2|H2]; try done.
  - exfalso. apply H2. by rewrite <- Hp.
  - exfalso. apply H1. by rewrite Hp.
Qed.

Lemma place_oneof_Permutation o1 o2 s :
  OneofDescriptor.addr o1 = OneofDescriptor.addr o2 →
  OneofDescriptor.fields o1 ≡ₚ OneofDescriptor.fields o2 →
  place_oneof o1 s = place_oneof o2 s.
Proof.
  intros Ha Hf. unfold place_oneof.
  rewrite (oneof_maxsize_Permutation o1 o2 Hf), !M_bind_run.
  destruct (Place (oneof_maxsize o2) s) as [[data s1]| | |]; try done.
  rewrite !M_bind_run.
  destruct (Place _ s1) as [[disc s2]| | |]; try done.
  rewrite !M_bind_modify, !set_members_returns, Ha. simpl_state.
  by rewrite (foldl_insert_Permutation _ _ _ _ Hf).
Qed.

Lemma for_each_Forall2 {A} (body : A → M unit) l1 l2 :
  Forall2 (λ x y, ∀ s, body x s = body y s) l1 l2 →
  ∀ s, for_each l1 body s = for_each l2 body s.
Proof.
  induction 1 as [|x y l1 l2 Hxy Hl IH]; intros s; [done|].
  cbn [for_each]. rewrite !M_bind_run, Hxy.
  destruct (body y s) as [[[] s1]| | |]; [apply IH|done..].
Qed.

Lemma find_number_Permutation n l1 l2 :
  NoDup (FieldDescriptor.number <$> l1) → l1 ≡ₚ l2 →
  List.find (λ f, FieldDescriptor.number f =? n) l1
  = List.find (λ f, FieldDescriptor.number f =? n) l2.
Proof.
  intros Hnd Hp.
  destruct (List.find _ l1) as [f|] eqn:E1, (List.find _ l2) as [g|] eqn:E2;
    try done.
  - apply find_some in E1 as [Hf1 Hn1], E2 as [Hg2 Hn2].
    apply list_elem_of_In in Hf1, Hg2. rewrite <- Hp in Hg2.
    f_equal. apply (NoDup_fmap_inj_on FieldDescriptor.number l1); [done..|lia].
  - apply find_some in E1 as [Hf1 Hn1]. apply list_elem_of_In in Hf1.
    rewrite Hp in Hf1. apply list_elem_of_In in Hf1.
    by rewrite (find_none _ _ E2 f Hf1) in Hn1.
  - apply find_some in E2 as [Hg2 Hn2]. apply list_elem_of_In in Hg2.
    rewrite <- Hp in Hg2. apply list_elem_of_In in Hg2.
    by rewrite (find_none _ _ E1 g Hg2) in Hn2.
Qed.

Section declaration_order.
Context (d1 d2 : Descriptor.t).
Context (Hvalid1 : valid d1) (Hvalid2 : valid d2) (Hsame : same_schema d1 d2).

Lemma same_fields : Descriptor.fields d1 ≡ₚ Descriptor.fields d2.
Proof. apply Hsame. Qed.

Lemma same_map_entry : Descriptor.map_entry d1 = Descriptor.map_entry d2.
Proof. apply Hsame. Qed.

Lemma valid_numbers : NoDup (FieldDescriptor.number <$> Descriptor.fields d1).
Proof. apply Hvalid1. Qed.

Lemma valid_number_range f :
  f ∈ Descriptor.fields d1 → 1 ≤ FieldDescriptor.number f < 2 ^ 29.
Proof.
  destruct Hvalid1 as (_ & _ & _ & _ & _ & Hr & _).
  rewrite Forall_forall in Hr. apply Hr.
Qed.

Lemma hotness_order_same : hotness_order d1 = hotness_order d2.
Proof.
  apply insertion_sort_unique; [| | |apply same_fields].
  - intros a b. apply pair_less_asym.
  - intros a b c. unfold not_after. apply pair_less_trans.
  - intros a b Ha Hb Hab Hba.
    pose proof (pair_less_total _ _ Hab Hba) as Hkey.
    apply (NoDup_fmap_inj_on FieldDescriptor.number (Descriptor.fields d1));
      [apply valid_numbers|done..|].
    unfold hotness_key in Hkey. congruence.
Qed.

Lemma tracked_fields_same : tracked_fields d1 = tracked_fields d2.
Proof.
  unfold tracked_fields. rewrite hotness_order_same.
  apply list_filter_iff. intros f.
  by rewrite (HasHasbit_map_entry d1 d2 f same_map_entry).
Qed.

Lemma field_order_same : field_order d1 = field_order d2.
Proof.
  apply insertion_sort_unique.
  - intros a b. lia.
  - intros a b c. unfold not_after. lia.
  - intros a b Ha Hb Hab Hba.
    apply elem_of_non_oneof_fields in Ha as [Ha _], Hb as [Hb _].
    pose proof (valid_number_range a Ha). pose proof (valid_number_range b Hb).
    pose proof (layout_bucket_range a). pose proof (layout_bucket_range b).
    rewrite !rank_key_eq in Hab, Hba by lia.
    apply (NoDup_fmap_inj_on FieldDescriptor.number (Descriptor.fields d1));
      [apply valid_numbers|done..|]. lia.
  - unfold non_oneof_fields. by rewrite same_fields.
Qed.

Lemma after_hasbits_same s : after_hasbits d1 s = after_hasbits d2 s.
Proof.
  unfold after_hasbits, hasbit_bytes_of, tracked_required.
  by rewrite tracked_fields_same.
Qed.

Lemma oneof_order_ids :
  oneof_id <$> oneof_order d1 = oneof_id <$> oneof_order d2.
Proof.
  unfold oneof_order.
  rewrite !(insertion_sort_fmap oneof_id _ (λ a b, String.ltb a.2 b.2)) by done.
  apply insertion_sort_unique; [| | |apply Hsame].
  - intros a b. apply String_ltb_asym.
  - intros a b c. unfold not_after. apply String_ltb_trans.
  - intros a b Ha Hb Hab Hba.
    pose proof (String_ltb_total _ _ Hab Hba) as Hname.
    apply list_elem_of_fmap in Ha as (oa & -> & Ha), Hb as (ob & -> & Hb).
    f_equal. apply (NoDup_fmap_inj_on OneofDescriptor.full_name
                      (Descriptor.oneof_decls d1)); [apply Hvalid1|done..].
Qed.

Lemma oneof_order_related :
  Forall2 (λ o1 o2, OneofDescriptor.addr o1 = OneofDescriptor.addr o2
                    ∧ OneofDescriptor.fields o1 ≡ₚ OneofDescriptor.fields o2)
          (oneof_order d1) (oneof_order d2).
Proof.
  pose proof oneof_order_ids as Hids.
  assert (Forall2 (λ o1 o2, oneof_id o1 = oneof_id o2)
                  (oneof_order d1) (oneof_order d2)) as Hf2.
  { revert Hids. generalize (oneof_order d2).
    induction (oneof_order d1) as [|o1 l1 IH]; intros [|o2 l2]; try done.
    intros Heq. rewrite !fmap_cons in Heq.
    assert (oneof_id o1 = oneof_id o2) as Ho by congruence.
    assert (oneof_id <$> l1 = oneof_id <$> l2) as Hl by congruence.
    constructor; [done|by apply IH]. }
  apply Forall2_same_length_lookup. split; [by eapply Forall2_length|].
  intros i o1 o2 Hi1 Hi2.
  pose proof (Forall2_lookup_lr _ _ _ _ _ _ Hf2 Hi1 Hi2) as [= Haddr _].
  split; [done|].
  apply list_elem_of_lookup_2, (elem_of_oneof_order d1) in Hi1.
  apply list_elem_of_lookup_2, (elem_of_oneof_order d2) in Hi2.
  destruct (valid_oneof_members d1 Hvalid1 o1 Hi1) as [-> _].
  destruct (valid_oneof_members d2 Hvalid2 o2 Hi2) as [-> _].
  rewrite Haddr. by rewrite same_fields.
Qed.

Lemma for_each_place_oneof_same s :
  for_each (oneof_order d1) place_oneof s = for_each (oneof_order d2) place_oneof s.
Proof.
  apply for_each_Forall2.
  eapply Forall2_impl; [apply oneof_order_related|].
  intros o1 o2 [Ha Hf] s'. by apply place_oneof_Permutation.
Qed.

Lemma FindFieldByNumber_same n :
  Descriptor.FindFieldByNumber d1 n = Descriptor.FindFieldByNumber d2 n.
Proof.
  apply find_number_Permutation; [apply valid_numbers|apply same_fields].
Qed.

Lemma ComputeLayout_same_ordinary u1 u2 :
  Descriptor.map_entry d1 = false →
  ComputeLayout d1 (default_initialized u1) = ComputeLayout d2 (default_initialized u2).
Proof.
  intros Hme1. assert (Descriptor.map_entry d2 = false) as Hme2
    by by rewrite <- same_map_entry.
  rewrite !ComputeLayout_ordinary by (done || by apply valid_field_count).
  unfold tracked_required. rewrite tracked_fields_same.
  destruct (_ !! 63%nat); [done|].
  rewrite (after_hasbits_same (default_initialized u1)).
  change (after_hasbits d2 (default_initialized u1))
    with (after_hasbits d2 (default_initialized u2)).
  rewrite field_order_same, !(M_bind_run (for_each (field_order d2) place_field)).
  destruct (for_each (field_order d2) place_field _) as [[[] s3]| | |]; try done.
  by rewrite !(M_bind_run (for_each _ place_oneof)), for_each_place_oneof_same.
Qed.
End declaration_order.

Lemma same_schema_refl d : same_schema d d.
Proof. done. Qed.

(** C8.  The offsets, the hasbit indices and the total size that the
    constructor produces (or the way it fails) do not depend on the
    indeterminate initial values of the object, and for a validated schema
    (distinct field numbers in the valid range, distinct oneof names) they
    do not depend on the order in which the fields and the oneofs are
    declared: two runs on the same message, and runs on two descriptors of
    the message that differ in the declaration order, give the same
    result. *)
Theorem layout_deterministic d1 d2 u1 u2 :
  valid d1 → valid d2 → same_schema d1 d2 →
  observable (constructor u1 d1) = observable (constructor u2 d1)
  ∧ observable (constructor u1 d1) = observable (constructor u2 d2).
Proof.
  assert (∀ d1 d2 u1 u2, valid d1 → valid d2 → same_schema d1 d2 →
            observable (constructor u1 d1) = observable (constructor u2 d2)) as H.
  { clear. intros d1 d2 u1 u2 Hv1 Hv2 Hsame. unfold constructor.
    destruct (Descriptor.map_entry d1) eqn:Hme1.
    - assert (Descriptor.map_entry d2 = true) as Hme2
        by by rewrite <- (same_map_entry d1 d2 Hsame).
      rewrite !ComputeLayout_map_entry by done.
      rewrite !(FindFieldByNumber_same d1 d2 Hv1 Hsame). done.
    - by rewrite (ComputeLayout_same_ordinary d1 d2 Hv1 Hv2 Hsame u1 u2 Hme1). }
  intros Hv1 Hv2 Hsame. split; [|by apply H].
  apply H; [done..|apply same_schema_refl].
Qed.

Lemma layout_deterministic_witness :
  observable (constructor junk example_message)
  = observable (constructor junk2 example_message)
  ∧ observable (constructor junk example_message)
    = observable (constructor junk2 example_message_reversed).
Proof.
  apply layout_deterministic.
  - apply (bool_decide_unpack _). vm_compute. exact I.
  - apply (bool_decide_unpack _). vm_compute. exact I.
  - split; [reflexivity|]. split; [reflexivity|]. split.
    + symmetry. apply reverse_Permutation.
    + apply Permutation_swap.
Defined.

(** ** The buckets of [FieldLayoutRank] *)

(** The rank of a field outside oneofs is its bucket, shifted, plus its
    number; within a bucket it orders the fields by number. *)
Lemma FieldLayoutRank_bucket f :
  FieldDescriptor.containing_oneof f = None →
  0 ≤ FieldDescriptor.number f < 2 ^ 29 →
  FieldLayoutRank f
  = Returns (layout_bucket f * 2 ^ 29 + FieldDescriptor.number f).
Proof.
  intros Hnone Hn. by rewrite FieldLayoutRank_returns, rank_key_eq.
Qed.

Lemma rank_order_within_bucket f g :
  0 ≤ FieldDescriptor.number f < 2 ^ 29 →
  0 ≤ FieldDescriptor.number g < 2 ^ 29 →
  layout_bucket f = layout_bucket g →
  (rank_key f < rank_key g ↔ FieldDescriptor.number f < FieldDescriptor.number g).
Proof. intros Hf Hg Hb. rewrite !rank_key_eq by done. lia. Qed.

(** The buckets of the types other than enum are those of the comment in
    [FieldLayoutRank]. *)
Lemma layout_bucket_table f :
  layout_bucket f =
  if FieldDescriptor.is_repeated f then 6
  else match FieldDescriptor.cpp_type f with
       | CPPTYPE_INT64 | CPPTYPE_UINT64 | CPPTYPE_DOUBLE => 1
       | CPPTYPE_FLOAT | CPPTYPE_INT32 | CPPTYPE_UINT32 => 2
       | CPPTYPE_BOOL => 3
       | CPPTYPE_STRING => 4
       | CPPTYPE_MESSAGE => 5
       | CPPTYPE_ENUM => 1
       end.
Proof.
  unfold layout_bucket, FieldDescriptor.is_repeated.
  case_bool_decide; [done|]. by destruct (FieldDescriptor.cpp_type f).
Qed.

(** C2 (the code at the failing input).  A singular enum field outside
    oneofs takes four bytes, like the 32-bit scalars, but [FieldLayoutRank]
    puts it in bucket 1, that of the 64-bit scalars, not in bucket 2: the
    [switch] has no case for [CPPTYPE_ENUM], which falls to [default]. *)
Theorem enum_field_rank :
  let f := mk_field 3 "pkg.M.kind" LABEL_OPTIONAL CPPTYPE_ENUM true None in
  let i := mk_field 1 "pkg.M.id" LABEL_REQUIRED CPPTYPE_INT32 true None in
  FieldDescriptor.containing_oneof f = None
  ∧ SizeOf f = SizeOf i
  ∧ FieldLayoutRank i = Returns (2 * 2 ^ 29 + 1)
  ∧ FieldLayoutRank f = Returns (1 * 2 ^ 29 + 3)
  ∧ FieldLayoutRank f ≠ Returns (2 * 2 ^ 29 + 3)
  ∧ field_order example_message !! 0%nat = Some f.
Proof. cbn zeta. repeat split; try done. Qed.

(** ** The power-of-two assertion of [Align] *)

(** C9 (the code at the failing input).  For the validated message with 65
    optional [int32] fields, all with a hasbit and none required, the hasbit
    region has 9 bytes; placing it raises the running maximum alignment to
    [{9,9}], which stays until the last statement of [ComputeLayout], where
    [Align] is called with the value 272 and the alignment 9 and its
    assertion fails. *)
Theorem optionals65_assertion_fails :
  let d := optionals 65 in
  valid d ∧ Descriptor.map_entry d = false ∧ tracked_required d = []
  ∧ hasbit_bytes_of d = 9
  ∧ (∃ s, (for_each (field_order d) place_field ;;
           for_each (oneof_order d) place_oneof)
            (after_hasbits d (default_initialized junk)) = Returns (tt, s)
          ∧ size_ s = MkSize 272 272
          ∧ maxalign_ s = MkSize 9 9
          ∧ IsPowerOfTwo 9 = false
          ∧ align_overall_size s = AssertionFails)
  ∧ constructor junk d = AssertionFails.
Proof.
  cbn zeta. split; [apply (bool_decide_unpack _); by vm_compute|].
  do 3 (split; [by vm_compute|]). split; [|by vm_compute].
  eexists. split; [vm_compute; reflexivity|]. by vm_compute.
Qed.

(** ** When the constructor returns *)

Lemma Align_progress val al :
  0 ≤ val < 2 ^ 62 → small_power_of_two al → ∃ r, Align val al = Returns r.
Proof.
  intros Hv [->|[->|[->|[->| ->]]]]; eexists.
  - apply (Align_pow2 val 0); lia.
  - apply (Align_pow2 val 1); lia.
  - apply (Align_pow2 val 2); lia.
  - apply (Align_pow2 val 3); lia.
  - apply (Align_pow2 val 4); lia.
Qed.

Lemma AlignUp_progress this al :
  Size_in 0 (2 ^ 60) this →
  small_power_of_two (size32 al) → small_power_of_two (size64 al) →
  ∃ r, Size_.AlignUp this al = Returns r.
Proof.
  intros [H32 H64] A32 A64. unfold Size_.AlignUp.
  assert (∀ z, small_power_of_two z → wrap_size_t z = z) as Hw.
  { intros z Hz. apply wrap_size_t_small. unfold small_power_of_two in Hz. lia. }
  rewrite (Hw _ A32), (Hw _ A64).
  rewrite (wrap_size_t_small (size32 this)), (wrap_size_t_small (size64 this)) by lia.
  destruct (Align_progress (size32 this) (size32 al)) as [r32 ->]; [lia|done|].
  destruct (Align_progress (size64 this) (size64 al)) as [r64 ->]; [lia|done|].
  by eexists.
Qed.

Lemma Place_progress sa s :
  Size_in 0 (2 ^ 60) (size_ s) →
  small_power_of_two (size32 (align sa)) → small_power_of_two (size64 (align sa)) →
  ∃ offset s', Place sa s = Returns (offset, s').
Proof.
  intros Hs A32 A64. rewrite Place_unfold.
  destruct (AlignUp_progress (size_ s) (align sa)) as [r ->]; [done..|].
  by do 2 eexists.
Qed.

Lemma SizeOf_power_of_two f : power_of_two_shape (SizeOf f).
Proof.
  unfold SizeOf, SizeOfUnwrapped, power_of_two_shape, small_power_of_two.
  destruct (FieldDescriptor.is_repeated f); [simpl; lia|].
  destruct (FieldDescriptor.cpp_type f); simpl; lia.
Qed.

Lemma max_of_power_of_two l :
  l ≠ [] → Forall small_power_of_two l → small_power_of_two (max_of l).
Proof.
  intros Hne Hl. induction Hl as [|x l Hx Hl IH]; [done|].
  destruct l as [|y l].
  - simpl. unfold small_power_of_two in *. lia.
  - specialize (IH ltac:(done)). cbn [max_of foldr] in *.
    unfold small_power_of_two in *. lia.
Qed.

Lemma oneof_maxsize_power_of_two o :
  OneofDescriptor.fields o ≠ [] → power_of_two_shape (oneof_maxsize o).
Proof.
  intros Hne. rewrite oneof_maxsize_max.
  unfold power_of_two_shape, max_member_shape. cbn [size align size32 size64].
  assert (SizeOf <$> OneofDescriptor.fields o ≠ []) as Hne'.
  { by destruct (OneofDescriptor.fields o). }
  repeat split; (apply max_of_power_of_two; [by intros ?%fmap_nil_inv|]);
    apply Forall_fmap, Forall_fmap, Forall_forall; intros f _;
    apply (SizeOf_power_of_two f).
Qed.

Lemma good_maxalign_MaxFrom a sz :
  good_maxalign a →
  small_power_of_two (size32 sz) → small_power_of_two (size64 sz) →
  good_maxalign (Size_.MaxFrom a sz).
Proof.
  unfold good_maxalign, small_power_of_two, Size_.MaxFrom. simpl. lia.
Qed.

Lemma place_field_progress f s :
  Size_in 0 (2 ^ 60) (size_ s) → ∃ s', place_field f s = Returns (tt, s').
Proof.
  intros Hs. destruct (SizeOf_power_of_two f) as (_ & _ & A32 & A64).
  destruct (Place_progress (SizeOf f) s Hs A32 A64) as (off & s1 & HP).
  unfold place_field. rewrite M_bind_run, HP. by eexists.
Qed.

Lemma place_fields_progress l : ∀ s B,
  Size_in 0 B (size_ s) → B + 32 * Z.of_nat (length l) ≤ 2 ^ 60 →
  good_maxalign (maxalign_ s) →
  ∃ s', for_each l place_field s = Returns (tt, s')
        ∧ Size_in 0 (B + 32 * Z.of_nat (length l)) (size_ s')
        ∧ good_maxalign (maxalign_ s').
Proof.
  induction l as [|f l IH]; intros s B Hs HB Hm.
  { exists s. split; [done|]. split; [|done]. unfold Size_in in *; simpl; lia. }
  rewrite length_cons, Nat2Z.inj_succ in *. cbn [for_each].
  rewrite M_bind_run.
  destruct (SizeOf_power_of_two f) as (S32 & S64 & A32 & A64).
  pose proof (SizeOf_shape f) as [Hsz Hal].
  assert (Size_in 0 (2 ^ 60) (size_ s)) as Hs' by (unfold Size_in in *; lia).
  destruct (place_field_progress f s Hs') as [s1 HP]. rewrite HP.
  apply place_field_returns in HP as (off & -> & Hd & Hle & Hlt); [|done].
  match goal with |- context [for_each l place_field ?s1] =>
    destruct (IH s1 (B + 32)) as (s' & Hrun & Hsz' & Hm') end; simpl_state.
  - unfold Size_in, Size_le, Size_lt, Size_plus in *; simpl in *. lia.
  - lia.
  - by apply good_maxalign_MaxFrom.
  - exists s'. split; [done|]. split; [|done]. unfold Size_in in *; lia.
Qed.

Lemma place_oneof_progress o s :
  Size_in 0 (2 ^ 60 - 32) (size_ s) → OneofDescriptor.fields o ≠ [] →
  ∃ s', place_oneof o s = Returns (tt, s').
Proof.
  intros Hs Hne.
  destruct (oneof_maxsize_power_of_two o Hne) as (S32 & S64 & A32 & A64).
  pose proof (oneof_maxsize_shape o Hne) as [Hsz Hal].
  assert (Size_in 0 (2 ^ 60) (size_ s)) as Hs' by (unfold Size_in in *; lia).
  destruct (Place_progress (oneof_maxsize o) s Hs' A32 A64) as (data & s1 & HP).
  unfold place_oneof. rewrite M_bind_run, HP.
  apply Place_returns in HP as (-> & Hd & Hle & Hlt);
    [|done|unfold Size_in in *; lia..].
  rewrite M_bind_run.
  match goal with |- context [Place ?sa ?s1] =>
    destruct (Place_progress sa s1) as (disc & s2 & HP2) end.
  { unfold Size_in, Size_le, Size_lt, Size_plus in *; simpl in *. lia. }
  { simpl. unfold small_power_of_two. lia. }
  { simpl. unfold small_power_of_two. lia. }
  rewrite HP2, M_bind_modify, set_members_returns. by eexists.
Qed.

Lemma place_oneofs_progress l : ∀ s B,
  Forall (λ o, OneofDescriptor.fields o ≠ []) l →
  Size_in 0 B (size_ s) → B + 32 * Z.of_nat (length l) ≤ 2 ^ 60 →
  good_maxalign (maxalign_ s) →
  ∃ s', for_each l place_oneof s = Returns (tt, s')
        ∧ Size_in 0 (B + 32 * Z.of_nat (length l)) (size_ s')
        ∧ good_maxalign (maxalign_ s').
Proof.
  induction l as [|o l IH]; intros s B Hne Hs HB Hm.
  { exists s. split; [done|]. split; [|done]. unfold Size_in in *; simpl; lia. }
  apply Forall_cons in Hne as [Hne1 Hne].
  rewrite length_cons, Nat2Z.inj_succ in *. cbn [for_each].
  rewrite M_bind_run.
  destruct (oneof_maxsize_power_of_two o Hne1) as (S32 & S64 & A32 & A64).
  pose proof (oneof_maxsize_shape o Hne1) as [Hsz Hal].
  assert (Size_in 0 (2 ^ 60 - 32) (size_ s)) as Hs' by (unfold Size_in in *; lia).
  destruct (place_oneof_progress o s Hs' Hne1) as [s1 HP]. rewrite HP.
  apply place_oneof_returns in HP
    as (data & disc & -> & Hd1 & Hle1 & Hlt1 & Hd2 & Hle2 & Hlt2); [|done..].
  match goal with |- context [for_each l place_oneof ?s2] =>
    destruct (IH s2 (B + 32)) as (s' & Hrun & Hsz' & Hm') end; simpl_state.
  - done.
  - unfold Size_in, Size_le, Size_lt, Size_plus in *; simpl in *. lia.
  - lia.
  - apply good_maxalign_MaxFrom; [by apply good_maxalign_MaxFrom|..];
      simpl; unfold small_power_of_two; lia.
  - exists s'. split; [done|]. split; [|done]. unfold Size_in in *; lia.
Qed.

(** The constructor returns a layout for every validated ordinary message
    with at most 63 required fields with a hasbit and at most 64 hasbits. *)
Theorem constructor_returns d u :
  valid d → Descriptor.map_entry d = false →
  (length (tracked_required d) ≤ 63)%nat →
  (length (tracked_fields d) ≤ 64)%nat →
  ∃ L, constructor u d = Returns L.
Proof.
  intros Hvalid Hme Hreq Htr.
  pose proof (valid_field_count d Hvalid) as Hfc.
  pose proof (valid_oneof_count d Hvalid) as Hoc.
  pose proof (field_order_length d) as Hfl.
  pose proof (oneof_order_length d) as Hol.
  assert (0 ≤ hasbit_bytes_of d ≤ 8) as Hhb.
  { unfold hasbit_bytes_of. rewrite Z.quot_div_nonneg by lia.
    pose proof (Z.div_mod (Z.of_nat (length (tracked_fields d)) + 7) 8 ltac:(lia)).
    pose proof (Z.mod_pos_bound (Z.of_nat (length (tracked_fields d)) + 7) 8
                  ltac:(lia)). lia. }
  setoid_rewrite constructor_Returns. rewrite ComputeLayout_ordinary by done.
  rewrite (lookup_ge_None_2 (tracked_required d)) by lia.
  rewrite M_bind_run.
  destruct (place_fields_progress (field_order d)
              (after_hasbits d (default_initialized u)) 8)
    as (s3 & -> & Hs3 & Hm3).
  { unfold after_hasbits, Size_in; simpl; lia. }
  { lia. }
  { unfold after_hasbits, good_maxalign; simpl. lia. }
  rewrite M_bind_run.
  destruct (place_oneofs_progress (oneof_order d) s3
              (8 + 32 * Z.of_nat (length (field_order d))))
    as (s4 & -> & Hs4 & Hm4);
    [by apply oneof_order_nonempty|done|lia|done|].
  unfold align_overall_size. rewrite !M_bind_get, M_bind_run. unfold lift.
  destruct (AlignUp_progress (size_ s4) (maxalign_ s4)) as [r ->].
  - unfold Size_in in *; lia.
  - unfold good_maxalign, small_power_of_two in *. lia.
  - unfold good_maxalign, small_power_of_two in *. lia.
  - by eexists.
Qed.

(** * Further properties of the code *)

(** ** [IsPowerOfTwo], [Align] and [DivRoundUp] *)

(** X1.  [IsPowerOfTwo] accepts zero and the powers of two below 2^64, and
    no other [size_t] value. *)
Theorem IsPowerOfTwo_iff val :
  0 ≤ val < 2 ^ 64 →
  (IsPowerOfTwo val = true ↔ val = 0 ∨ ∃ k, 0 ≤ k < 64 ∧ val = 2 ^ k).
Proof.
  intros Hv. split.
  - intros Hp. destruct (decide (val = 0)) as [|Hne]; [by left|right].
    apply IsPowerOfTwo_spec; [lia|done].
  - intros [->|(k & Hk & ->)]; [done|by apply IsPowerOfTwo_pow2].
Qed.

Lemma IsPowerOfTwo_iff_witness :
  (IsPowerOfTwo 0 = true ↔ 0 = 0 ∨ ∃ k, 0 ≤ k < 64 ∧ 0 = 2 ^ k)
  ∧ (IsPowerOfTwo 12 = true ↔ 12 = 0 ∨ ∃ k, 0 ≤ k < 64 ∧ 12 = 2 ^ k).
Proof.
  split; [apply (IsPowerOfTwo_iff 0)|apply (IsPowerOfTwo_iff 12)]; lia.
Defined.

(** X2.  For an alignment that is a power of two, [Align] returns the least
    multiple of the alignment that is not below [val]; a [val] that is a
    multiple already is returned unchanged, and aligning the result again
    changes nothing. *)
Theorem Align_rounds_up val k :
  0 ≤ k < 62 → 0 ≤ val < 2 ^ 62 →
  ∃ r, Align val (2 ^ k) = Returns r
    ∧ (2 ^ k | r) ∧ val ≤ r < val + 2 ^ k
    ∧ (∀ m, (2 ^ k | m) → val ≤ m → r ≤ m)
    ∧ ((2 ^ k | val) → r = val)
    ∧ Align r (2 ^ k) = Returns r.
Proof.
  intros Hk Hv.
  assert (0 < 2 ^ k < 2 ^ 62) as Hp.
  { split; [lia|]. apply Z.pow_lt_mono_r; lia. }
  assert (∀ v, 0 ≤ v → (2 ^ k | v) → 2 ^ k * ((v + 2 ^ k - 1) / 2 ^ k) = v) as Hfix.
  { intros v Hv0 [q ->].
    replace (q * 2 ^ k + 2 ^ k - 1) with (2 ^ k - 1 + q * 2 ^ k) by lia.
    rewrite Z.div_add by lia. rewrite (Z.div_small (2 ^ k - 1)) by lia. lia. }
  eexists. split; [apply Align_pow2; lia|].
  pose proof (Z.div_mod (val + 2 ^ k - 1) (2 ^ k) ltac:(lia)) as Hdm.
  pose proof (Z.mod_pos_bound (val + 2 ^ k - 1) (2 ^ k) ltac:(lia)) as Hmod.
  set (r := 2 ^ k * ((val + 2 ^ k - 1) / 2 ^ k)) in *.
  assert ((2 ^ k | r)) as Hdiv by apply Z.divide_factor_l.
  split_and!; [done|lia|lia| | |].
  - intros m [q ->] Hle. destruct Hdiv as [q' Hq']. rewrite Hq' in *.
    assert (q' - 1 < q) by nia. nia.
  - intros Hd. apply Hfix; [lia|done].
  - rewrite Align_pow2 by lia. f_equal. apply Hfix; [lia|done].
Qed.

Lemma Align_rounds_up_witness :
  ∃ r, Align 13 (2 ^ 3) = Returns r
    ∧ (2 ^ 3 | r) ∧ 13 ≤ r < 13 + 2 ^ 3
    ∧ (∀ m, (2 ^ 3 | m) → 13 ≤ m → r ≤ m)
    ∧ ((2 ^ 3 | 13) → r = 13)
    ∧ Align r (2 ^ 3) = Returns r.
Proof. apply (Align_rounds_up 13 3); lia. Defined.

(** X3.  An alignment of 0 passes the assertion of [Align], and the result
    is 0 whatever [val] is; any other alignment that is not a power of two
    fails the assertion. *)
Theorem Align_not_power_of_two val :
  ∀ al, 0 ≤ al < 2 ^ 64 →
  (al = 0 → Align val al = Returns 0)
  ∧ (al ≠ 0 → (∀ k, al ≠ 2 ^ k) → Align val al = AssertionFails).
Proof.
  intros al Hal. split.
  - intros ->. unfold Align. simpl. unfold mret, outcome_ret. f_equal.
    change (wrap_size_t (Z.lnot (wrap_size_t (0 - 1)))) with 0.
    apply Z.land_0_r.
  - intros Hne Hk. unfold Align.
    destruct (IsPowerOfTwo al) eqn:Hp; [|done].
    apply IsPowerOfTwo_spec in Hp as (k & _ & ->); [|lia]. by destruct (Hk k).
Qed.

Lemma Align_not_power_of_two_witness :
  ((0 = 0 → Align 13 0 = Returns 0)
   ∧ (0 ≠ 0 → (∀ k, 0 ≠ 2 ^ k) → Align 13 0 = AssertionFails))
  ∧ ((12 = 0 → Align 13 12 = Returns 0)
     ∧ (12 ≠ 0 → (∀ k, 12 ≠ 2 ^ k) → Align 13 12 = AssertionFails)).
Proof.
  split; [apply (Align_not_power_of_two 13 0)|apply (Align_not_power_of_two 13 12)];
    lia.
Defined.

(** X4.  [DivRoundUp a b] is the quotient rounded up when [a] is not
    negative and [b] is positive; a negative [a] or a [b] that is not
    positive fails an assertion. *)
Theorem DivRoundUp_ceiling a b :
  - 2 ^ 62 ≤ a < 2 ^ 62 → - 2 ^ 62 ≤ b < 2 ^ 62 →
  (0 ≤ a → 0 < b → ∃ q, DivRoundUp a b = Returns q ∧ b * (q - 1) < a ≤ b * q)
  ∧ (a < 0 ∨ b ≤ 0 → DivRoundUp a b = AssertionFails).
Proof.
  intros Ha Hb. split.
  - intros Ha0 Hb0. unfold DivRoundUp.
    replace (0 <=? a) with true by lia. replace (0 <? b) with true by lia. simpl.
    eexists. split; [done|].
    rewrite (wrap_int64_small (a + b)) by lia.
    rewrite wrap_int64_small by lia.
    rewrite Z.quot_div_nonneg by lia.
    pose proof (Z.div_mod (a + b - 1) b ltac:(lia)).
    pose proof (Z.mod_pos_bound (a + b - 1) b ltac:(lia)). nia.
  - intros Hneg. unfold DivRoundUp.
    destruct (0 <=? a) eqn:Hae; [|done].
    replace (0 <? b) with false by lia. done.
Qed.

Lemma DivRoundUp_ceiling_witness :
  (0 ≤ 9 → 0 < 8 → ∃ q, DivRoundUp 9 8 = Returns q ∧ 8 * (q - 1) < 9 ≤ 8 * q)
  ∧ (9 < 0 ∨ 8 ≤ 0 → DivRoundUp 9 8 = AssertionFails).
Proof. apply (DivRoundUp_ceiling 9 8); lia. Defined.

(** ** The rank order of the fields *)

Lemma rank_key_before f g :
  0 ≤ FieldDescriptor.number f < 2 ^ 29 →
  0 ≤ FieldDescriptor.number g < 2 ^ 29 →
  (rank_key f < rank_key g ↔ rank_before f g).
Proof.
  intros Hf Hg. rewrite !rank_key_eq by done. unfold rank_before.
  pose proof (layout_bucket_range f). pose proof (layout_bucket_range g). lia.
Qed.

(** X5.  [FieldLayoutRank] aborts on a field inside a oneof (synthetic or
    not), and so does the comparator built from it.  On fields outside
    oneofs with numbers below 2^29 the ranks order the fields by bucket
    first and by field number within a bucket; two fields get the same rank
    only when bucket and number agree. *)
Theorem FieldLayoutRank_order f g :
  (is_Some (FieldDescriptor.containing_oneof f) →
   FieldLayoutRank f = Aborts ("shouldn't have oneofs here." +:+ endl)
   ∧ rank_less f g = Aborts ("shouldn't have oneofs here." +:+ endl))
  ∧ (FieldDescriptor.containing_oneof f = None →
     FieldDescriptor.containing_oneof g = None →
     0 ≤ FieldDescriptor.number f < 2 ^ 29 →
     0 ≤ FieldDescriptor.number g < 2 ^ 29 →
     ∃ rf rg, FieldLayoutRank f = Returns rf ∧ FieldLayoutRank g = Returns rg
       ∧ (rf < rg ↔ rank_before f g)
       ∧ (rf = rg ↔ layout_bucket f = layout_bucket g
                    ∧ FieldDescriptor.number f = FieldDescriptor.number g)
       ∧ rank_less f g = Returns (bool_decide (rank_before f g))).
Proof.
  split.
  - intros [o Ho]. unfold rank_less, FieldLayoutRank. by rewrite Ho.
  - intros Hf Hg Hnf Hng. exists (rank_key f), (rank_key g).
    rewrite rank_less_returns by done.
    rewrite !FieldLayoutRank_returns by done.
    split_and!; [done|done|by apply rank_key_before| |].
    + rewrite !rank_key_eq by done.
      pose proof (layout_bucket_range f). pose proof (layout_bucket_range g). lia.
    + f_equal. pose proof (rank_key_before f g Hnf Hng) as Hiff.
      destruct (Z.ltb_spec (rank_key f) (rank_key g)); case_bool_decide;
        [done|tauto| |done].
      assert (rank_key f < rank_key g) by tauto. lia.
Qed.

Lemma FieldLayoutRank_order_witness :
  let f := mk_field 7 "pkg.M.flag" LABEL_OPTIONAL CPPTYPE_BOOL true None in
  let g := mk_field 2 "pkg.M.name" LABEL_OPTIONAL CPPTYPE_STRING true None in
  ∃ rf rg, FieldLayoutRank f = Returns rf ∧ FieldLayoutRank g = Returns rg
    ∧ (rf < rg ↔ rank_before f g)
    ∧ (rf = rg ↔ layout_bucket f = layout_bucket g
                 ∧ FieldDescriptor.number f = FieldDescriptor.number g)
    ∧ rank_less f g = Returns (bool_decide (rank_before f g)).
Proof.
  apply (FieldLayoutRank_order
           (mk_field 7 "pkg.M.flag" LABEL_OPTIONAL CPPTYPE_BOOL true None)
           (mk_field 2 "pkg.M.name" LABEL_OPTIONAL CPPTYPE_STRING true None));
    [reflexivity|reflexivity|simpl; lia|simpl; lia].
Defined.

Lemma field_order_StronglySorted d :
  StronglySorted (not_after (λ a b, rank_key a <? rank_key b)) (field_order d).
Proof.
  apply insertion_sort_StronglySorted.
  - intros a b. lia.
  - intros a b c. unfold not_after. lia.
Qed.

(** A field with the smaller rank is placed first. *)
Lemma field_order_position d f g :
  f ∈ field_order d → g ∈ field_order d → rank_key f < rank_key g →
  ∃ i j, (i < j)%nat ∧ field_order d !! i = Some f ∧ field_order d !! j = Some g.
Proof.
  intros Hf Hg Hlt.
  apply list_elem_of_lookup_1 in Hf as [i Hi], Hg as [j Hj].
  exists i, j. split; [|done].
  destruct (decide (i < j)%nat) as [|Hge]; [done|exfalso].
  destruct (decide (i = j)) as [->|Hne].
  - rewrite Hi in Hj. injection Hj as ->. lia.
  - assert (j < i)%nat as Hji by lia.
    pose proof (StronglySorted_lookup _ _ _ _ _ _
                  (field_order_StronglySorted d) Hji Hj Hi) as Hna.
    unfold not_after in Hna. lia.
Qed.

(** X6.  In a returned layout of an ordinary message the fields outside
    oneofs lie in the order of (bucket, field number): a field that comes
    before another in that order ends where the other starts, or earlier. *)
Theorem fields_placed_by_rank d u L f g :
  valid d → Descriptor.map_entry d = false →
  constructor u d = Returns L →
  f ∈ Descriptor.fields d → g ∈ Descriptor.fields d →
  FieldDescriptor.containing_oneof f = None →
  FieldDescriptor.containing_oneof g = None →
  rank_before f g →
  ∃ offset_f offset_g,
    GetFieldOffset L f = Returns offset_f
    ∧ GetFieldOffset L g = Returns offset_g
    ∧ Size_le (Size_plus offset_f (size (SizeOf f))) offset_g.
Proof.
  intros Hvalid Hme HL Hf Hg Hnf Hng Hlt.
  assert (f ∈ field_order d) as Hfo by by apply elem_of_field_order.
  assert (g ∈ field_order d) as Hgo by by apply elem_of_field_order.
  apply rank_key_before in Hlt.
  2,3: pose proof (valid_number_range d Hvalid) as Hr;
       match goal with |- _ ≤ FieldDescriptor.number ?x < _ =>
         specialize (Hr x ltac:(done)) end; lia.
  destruct (field_order_position d f g Hfo Hgo Hlt) as (i & j & Hij & Hi & Hj).
  exists (field_offset L f), (field_offset L g).
  rewrite !(GetFieldOffset_non_oneof d u L) by done.
  split_and!; [done..|].
  destruct (ordinary_regions_chain d u L Hvalid Hme HL) as (unaligned & Hch & _).
  apply (chain_ordered _ _ _ (S i) (S j) _ _ _ _ Hch ltac:(lia)
           (layout_regions_field d L i f Hi) (layout_regions_field d L j g Hj)).
Qed.

Lemma fields_placed_by_rank_witness :
  let f := mk_field 7 "pkg.M.flag" LABEL_OPTIONAL CPPTYPE_BOOL true None in
  let g := mk_field 2 "pkg.M.name" LABEL_OPTIONAL CPPTYPE_STRING true None in
  ∃ offset_f offset_g,
    GetFieldOffset (layout_of example_message) f = Returns offset_f
    ∧ GetFieldOffset (layout_of example_message) g = Returns offset_g
    ∧ Size_le (Size_plus offset_f (size (SizeOf f))) offset_g.
Proof.
  apply (fields_placed_by_rank example_message junk);
    [apply (bool_decide_unpack _); vm_compute; exact I
    |reflexivity
    |vm_compute; reflexivity
    |apply (bool_decide_unpack _); vm_compute; exact I
    |apply (bool_decide_unpack _); vm_compute; exact I
    |reflexivity
    |reflexivity
    |left; vm_compute; reflexivity].
Defined.

(** ** The hotness order of any message *)

(** X7.  [FieldHotnessOrder] returns for every message, validated or not:
    a permutation of the fields in which no field that is not required
    stands before a required one and, among the required and among the
    other fields, the numbers never decrease. *)
Theorem FieldHotnessOrder_sorted d :
  ∃ order, FieldHotnessOrder d = Returns order
    ∧ order ≡ₚ Descriptor.fields d
    ∧ ∀ i j f g, (i < j)%nat → order !! i = Some f → order !! j = Some g →
        (FieldDescriptor.is_required g = true → FieldDescriptor.is_required f = true)
        ∧ (FieldDescriptor.is_required f = FieldDescriptor.is_required g →
           FieldDescriptor.number f ≤ FieldDescriptor.number g).
Proof.
  exists (hotness_order d). split; [apply FieldHotnessOrder_returns|].
  split; [apply hotness_order_Permutation|].
  intros i j f g Hij Hi Hj.
  pose proof (StronglySorted_lookup _ _ _ _ _ _
                (hotness_order_StronglySorted d) Hij Hi Hj) as Hna.
  unfold not_after, pair_less, hotness_key in Hna. simpl in Hna.
  destruct (FieldDescriptor.is_required f), (FieldDescriptor.is_required g);
    simpl in Hna; split; try done; intros _; lia.
Qed.

(** ** Queries that abort *)

Lemma GetMapValue_None {V} (m : gmap N V) k :
  m !! k = None → GetMapValue m k = Aborts no_value.
Proof. intros H. unfold GetMapValue. by rewrite H. Qed.

Lemma GetMapValue_Some {V} (m : gmap N V) k v :
  m !! k = Some v → GetMapValue m k = Returns v.
Proof. intros H. unfold GetMapValue. by rewrite H. Qed.

Lemma elem_of_tracked_fields d f :
  f ∈ tracked_fields d ↔ f ∈ Descriptor.fields d ∧ HasHasbit d f = true.
Proof.
  unfold tracked_fields. rewrite list_elem_of_filter, hotness_order_Permutation.
  tauto.
Qed.

(** X8.  [GetHasbitIndex] on a returned layout of an ordinary message: for a
    field that has a hasbit it returns an index between 1 and
    [hasbit_count], which no other field of the message has; for a field of
    the message without hasbit it does not return 0 but aborts with the
    diagnostic of [GetMapValue]. *)
Theorem GetHasbitIndex_tracked_only d u L f :
  valid d → Descriptor.map_entry d = false →
  constructor u d = Returns L →
  f ∈ Descriptor.fields d →
  (HasHasbit d f = true →
   ∃ index, GetHasbitIndex L f = Returns index
     ∧ 1 ≤ index ≤ hasbit_count L
     ∧ ∀ g, g ∈ Descriptor.fields d → GetHasbitIndex L g = Returns index → g = f)
  ∧ (HasHasbit d f = false → GetHasbitIndex L f = Aborts no_value).
Proof.
  intros Hvalid Hme HL Hf.
  pose proof (ordinary_inv d u L HL) as Hrun.
  destruct (ordinary_layout_inv d _ L Hvalid Hme Hrun)
    as (_ & Hidx & Hcount & _).
  change (hasbit_indexes_ (default_initialized u)) with (∅ : gmap N Z) in Hidx.
  destruct (lookup_assign_indexes (tracked_fields d) 0 ∅
              (tracked_fields_addrs d Hvalid)) as [Hin Hout].
  assert (∀ g, g ∈ Descriptor.fields d → HasHasbit d g = false →
               hasbit_indexes_ L !! FieldDescriptor.addr g = None) as Hnone.
  { intros g Hg Hno. rewrite Hidx, Hout; [done|]. intros Hmem.
    apply list_elem_of_fmap in Hmem as (h & Heq & Hh).
    apply elem_of_tracked_fields in Hh as [Hh Hyes].
    apply (field_addr_inj d Hvalid) in Heq; [|done..]. congruence. }
  unfold GetHasbitIndex, hasbit_count. rewrite Hcount. split.
  - intros Hyes.
    assert (f ∈ tracked_fields d) as Ht by by apply elem_of_tracked_fields.
    apply list_elem_of_lookup_1 in Ht as [i Hi].
    pose proof (lookup_lt_Some _ _ _ Hi) as Hlt.
    exists (Z.of_nat i + 1). split_and!.
    + apply GetMapValue_Some. rewrite Hidx, (Hin i f Hi). f_equal; lia.
    + lia.
    + lia.
    + intros g Hg Hgi.
      destruct (HasHasbit d g) eqn:Hgy.
      * assert (g ∈ tracked_fields d) as Hgt by by apply elem_of_tracked_fields.
        apply list_elem_of_lookup_1 in Hgt as [j Hj].
        unfold GetMapValue in Hgi. rewrite Hidx, (Hin j g Hj) in Hgi.
        assert (j = i) as -> by (injection Hgi; lia). congruence.
      * unfold GetMapValue in Hgi. by rewrite (Hnone g Hg Hgy) in Hgi.
  - intros Hno. apply GetMapValue_None. by apply Hnone.
Qed.

Lemma GetHasbitIndex_tracked_only_witness :
  let L := layout_of example_message in
  let f := mk_field 4 "pkg.M.values" LABEL_REPEATED CPPTYPE_INT64 false None in
  (HasHasbit example_message f = true →
   ∃ index, GetHasbitIndex L f = Returns index
     ∧ 1 ≤ index ≤ hasbit_count L
     ∧ ∀ g, g ∈ Descriptor.fields example_message →
            GetHasbitIndex L g = Returns index → g = f)
  ∧ (HasHasbit example_message f = false → GetHasbitIndex L f = Aborts no_value).
Proof.
  apply (GetHasbitIndex_tracked_only example_message junk);
    [apply (bool_decide_unpack _); vm_compute; exact I
    |reflexivity
    |vm_compute; reflexivity
    |apply (bool_decide_unpack _); vm_compute; exact I].
Defined.

(** X9.  [GetFieldOffset] returns for every field of the message that is
    outside oneofs or in a declared oneof, and [GetOneofCaseOffset] for
    every declared oneof; for a field whose oneof is not declared, for a
    field that is not of the message and for a oneof that is not of the
    message they abort with the diagnostic of [GetMapValue]. *)
Theorem offset_queries_defined d u L :
  valid d → Descriptor.map_entry d = false →
  constructor u d = Returns L →
  (∀ f, f ∈ Descriptor.fields d →
     (FieldDescriptor.containing_oneof f = None
      ∨ ∃ o, o ∈ Descriptor.oneof_decls d
             ∧ FieldDescriptor.containing_oneof f = Some (OneofDescriptor.addr o)) →
     ∃ offset, GetFieldOffset L f = Returns offset)
  ∧ (∀ f a, f ∈ Descriptor.fields d →
       FieldDescriptor.containing_oneof f = Some a →
       a ∉ OneofDescriptor.addr <$> Descriptor.oneof_decls d →
       GetFieldOffset L f = Aborts no_value)
  ∧ (∀ f, FieldDescriptor.addr f ∉ FieldDescriptor.addr <$> Descriptor.fields d →
       GetFieldOffset L f = Aborts no_value)
  ∧ (∀ o, o ∈ Descriptor.oneof_decls d →
       ∃ offset, GetOneofCaseOffset L o = Returns offset)
  ∧ (∀ o, OneofDescriptor.addr o ∉ OneofDescriptor.addr <$> Descriptor.oneof_decls d →
       GetOneofCaseOffset L o = Aborts no_value).
Proof.
  intros Hvalid Hme HL.
  pose proof (ordinary_inv d u L HL) as Hrun.
  destruct (ordinary_layout_inv d _ L Hvalid Hme Hrun)
    as (_ & _ & _ & _ & _ & _ & _ & _ & _ & _ & _ & Hframe & Hcframe).
  change (field_offsets_ (default_initialized u)) with (∅ : gmap N Size) in Hframe.
  change (oneof_case_offsets_ (default_initialized u)) with (∅ : gmap N Size)
    in Hcframe.
  split_and!.
  - intros f Hf [Hnone|(o & Ho & Hsome)].
    + exists (field_offset L f). apply (GetFieldOffset_non_oneof d u L); [done..|].
      by apply elem_of_field_order.
    + exists (data_offset L o). apply (GetFieldOffset_member d u L); [done..|].
      destruct (valid_oneof_members d Hvalid o Ho) as [-> _].
      by apply list_elem_of_filter.
  - intros f a Hf Hsome Hnot. apply GetMapValue_None.
    apply (field_offsets_unplaced d u L); [done..|congruence|].
    intros Hin. destruct (member_of_addr d Hvalid f Hf Hin) as (o & Ho & Hfo).
    destruct (valid_member d Hvalid o f Ho Hfo) as [_ Hc].
    apply Hnot. apply list_elem_of_fmap. exists o. split; [congruence|done].
  - intros f Hnot. apply GetMapValue_None. rewrite Hframe; [done| |].
    + intros Hin. apply Hnot. apply list_elem_of_fmap in Hin as (g & Heq & Hg).
      apply elem_of_field_order in Hg as [Hg _].
      apply list_elem_of_fmap. by exists g.
    + intros Hin. apply Hnot. apply list_elem_of_bind in Hin as (o & Ha & Ho).
      apply (elem_of_oneof_order d) in Ho.
      apply list_elem_of_fmap in Ha as (g & Heq & Hg).
      destruct (valid_member d Hvalid o g Ho Hg) as [Hgd _].
      apply list_elem_of_fmap. by exists g.
  - intros o Ho. exists (case_offset L o).
    by apply (GetOneofCaseOffset_returns d u L).
  - intros o Hnot. apply GetMapValue_None. rewrite Hcframe; [done|].
    intros Hin. apply Hnot. apply list_elem_of_fmap in Hin as (o' & Heq & Ho').
    apply (elem_of_oneof_order d) in Ho'. apply list_elem_of_fmap. by exists o'.
Qed.

Lemma offset_queries_defined_witness :
  let d := example_message in
  let L := layout_of example_message in
  (∀ f, f ∈ Descriptor.fields d →
     (FieldDescriptor.containing_oneof f = None
      ∨ ∃ o, o ∈ Descriptor.oneof_decls d
             ∧ FieldDescriptor.containing_oneof f = Some (OneofDescriptor.addr o)) →
     ∃ offset, GetFieldOffset L f = Returns offset)
  ∧ (∀ f a, f ∈ Descriptor.fields d →
       FieldDescriptor.containing_oneof f = Some a →
       a ∉ OneofDescriptor.addr <$> Descriptor.oneof_decls d →
       GetFieldOffset L f = Aborts no_value)
  ∧ (∀ f, FieldDescriptor.addr f ∉ FieldDescriptor.addr <$> Descriptor.fields d →
       GetFieldOffset L f = Aborts no_value)
  ∧ (∀ o, o ∈ Descriptor.oneof_decls d →
       ∃ offset, GetOneofCaseOffset L o = Returns offset)
  ∧ (∀ o, OneofDescriptor.addr o ∉ OneofDescriptor.addr <$> Descriptor.oneof_decls d →
       GetOneofCaseOffset L o = Aborts no_value).
Proof.
  apply (offset_queries_defined example_message junk);
    [apply (bool_decide_unpack _); vm_compute; exact I
    |reflexivity
    |vm_compute; reflexivity].
Defined.

(** X10.  On the layout of a map entry [GetHasbitIndex] and
    [GetOneofCaseOffset] abort for every argument, and [GetFieldOffset]
    aborts for every field but the ones numbered 1 and 2.  When the entry
    has neither field, both insertions go to the null key, which keeps the
    second offset. *)
Theorem map_entry_queries d u :
  Descriptor.map_entry d = true →
  ∃ L, constructor u d = Returns L
    ∧ (∀ f, GetHasbitIndex L f = Aborts no_value)
    ∧ (∀ o, GetOneofCaseOffset L o = Aborts no_value)
    ∧ (∀ f, FieldDescriptor.addr f ≠ field_ptr (Descriptor.FindFieldByNumber d 1) →
            FieldDescriptor.addr f ≠ field_ptr (Descriptor.FindFieldByNumber d 2) →
            GetFieldOffset L f = Aborts no_value)
    ∧ (∀ f, Descriptor.FindFieldByNumber d 2 = Some f →
            GetFieldOffset L f = Returns (MkSize 8 16))
    ∧ (Descriptor.FindFieldByNumber d 1 = None →
       Descriptor.FindFieldByNumber d 2 = None →
       field_offsets_ L = {[0%N := MkSize 8 16]}).
Proof.
  intros Hme. eexists. split.
  { apply constructor_Returns. by apply ComputeLayout_map_entry. }
  unfold GetHasbitIndex, GetOneofCaseOffset, GetFieldOffset. simpl.
  split_and!.
  - intros f. by apply GetMapValue_None.
  - intros o. by apply GetMapValue_None.
  - intros f H1 H2. apply GetMapValue_None.
    rewrite !lookup_insert_ne by done. done.
  - intros f ->. apply GetMapValue_Some. simpl. by rewrite lookup_insert_eq.
  - intros -> ->. simpl. by rewrite insert_insert_eq.
Qed.

Lemma map_entry_queries_witness :
  ∃ L, constructor junk example_map_entry = Returns L
    ∧ (∀ f, GetHasbitIndex L f = Aborts no_value)
    ∧ (∀ o, GetOneofCaseOffset L o = Aborts no_value)
    ∧ (∀ f, FieldDescriptor.addr f
              ≠ field_ptr (Descriptor.FindFieldByNumber example_map_entry 1) →
            FieldDescriptor.addr f
              ≠ field_ptr (Descriptor.FindFieldByNumber example_map_entry 2) →
            GetFieldOffset L f = Aborts no_value)
    ∧ (∀ f, Descriptor.FindFieldByNumber example_map_entry 2 = Some f →
            GetFieldOffset L f = Returns (MkSize 8 16))
    ∧ (Descriptor.FindFieldByNumber example_map_entry 1 = None →
       Descriptor.FindFieldByNumber example_map_entry 2 = None →
       field_offsets_ L = {[0%N := MkSize 8 16]}).
Proof. apply (map_entry_queries example_map_entry junk). reflexivity. Defined.

(** X11.  The counters of a returned layout of an ordinary message:
    [hasbit_count] is the number of fields with a hasbit, [required_count]
    the number of required fields with a hasbit; [required_count] is at
    most 63 and at most [hasbit_count], which is at most the number of
    fields; [hasbit_bytes] is [hasbit_count] divided by 8, rounded up. *)
Theorem counters_of_returned_layout d u L :
  valid d → Descriptor.map_entry d = false →
  constructor u d = Returns L →
  hasbit_count L
  = Z.of_nat (length (filter (λ f, HasHasbit d f = true) (Descriptor.fields d)))
  ∧ required_count L
    = Z.of_nat (length (filter (λ f, FieldDescriptor.is_required f = true
                                     ∧ HasHasbit d f = true) (Descriptor.fields d)))
  ∧ 0 ≤ required_count L ≤ 63
  ∧ required_count L ≤ hasbit_count L
  ∧ hasbit_count L ≤ Z.of_nat (length (Descriptor.fields d))
  ∧ hasbit_bytes L = (hasbit_count L + 7) / 8.
Proof.
  intros Hvalid Hme HL.
  pose proof (ordinary_inv d u L HL) as Hrun.
  destruct (ordinary_layout_inv d _ L Hvalid Hme Hrun)
    as (Hover & _ & Hcount & Hbytes & Hreq & _).
  unfold hasbit_count, hasbit_bytes, required_count.
  rewrite Hcount, Hbytes, Hreq.
  apply lookup_ge_None_1 in Hover.
  assert (length (tracked_fields d)
          = length (filter (λ f, HasHasbit d f = true) (Descriptor.fields d)))
    as Htl.
  { unfold tracked_fields. apply Permutation_length.
    by rewrite hotness_order_Permutation. }
  pose proof (length_filter (λ f, FieldDescriptor.is_required f = true)
                (tracked_fields d)) as Hrl.
  fold (tracked_required d) in Hrl.
  pose proof (length_filter (λ f, HasHasbit d f = true) (Descriptor.fields d)).
  split_and!.
  - by rewrite Htl.
  - by rewrite tracked_required_length.
  - lia.
  - lia.
  - lia.
  - lia.
  - unfold hasbit_bytes_of. rewrite Z.quot_div_nonneg by lia. done.
Qed.

Lemma counters_of_returned_layout_witness :
  let d := example_message in
  let L := layout_of example_message in
  hasbit_count L
  = Z.of_nat (length (filter (λ f, HasHasbit d f = true) (Descriptor.fields d)))
  ∧ required_count L
    = Z.of_nat (length (filter (λ f, FieldDescriptor.is_required f = true
                                     ∧ HasHasbit d f = true) (Descriptor.fields d)))
  ∧ 0 ≤ required_count L ≤ 63
  ∧ required_count L ≤ hasbit_count L
  ∧ hasbit_count L ≤ Z.of_nat (length (Descriptor.fields d))
  ∧ hasbit_bytes L = (hasbit_count L + 7) / 8.
Proof.
  apply (counters_of_returned_layout example_message junk);
    [apply (bool_decide_unpack _); vm_compute; exact I
    |reflexivity
    |vm_compute; reflexivity].
Defined.

(** ** Alignment of the offsets *)

Lemma SizeOf_alignment f :
  field_alignment (size32 (align (SizeOf f)))
  ∧ field_alignment (size64 (align (SizeOf f))).
Proof.
  unfold SizeOf, SizeOfUnwrapped, field_alignment.
  destruct (FieldDescriptor.is_repeated f); [simpl; lia|].
  destruct (FieldDescriptor.cpp_type f); simpl; lia.
Qed.

Lemma max_of_ge l x : x ∈ l → x ≤ max_of l.
Proof.
  induction l as [|y l IH]; [by intros ?%elem_of_nil|].
  intros [->|Hx]%elem_of_cons; simpl; [lia|]. specialize (IH Hx). lia.
Qed.

Lemma max_of_alignment l :
  l ≠ [] → Forall field_alignment l → field_alignment (max_of l).
Proof.
  intros Hne Hl. induction Hl as [|x l Hx Hl IH]; [done|].
  destruct l as [|y l].
  - simpl. unfold field_alignment in *. lia.
  - specialize (IH ltac:(done)). cbn [max_of foldr] in *.
    unfold field_alignment in *. lia.
Qed.

Lemma field_alignment_divides a b :
  field_alignment a → field_alignment b → a ≤ b → (a | b).
Proof.
  unfold field_alignment.
  intros [-> | [-> | ->]] [-> | [-> | ->]] Hle; try lia;
    (apply Z.mod_divide; [lia|reflexivity]).
Qed.

(** The alignment of a member divides that of the data slot of its oneof. *)
Lemma member_alignment_divides o f :
  f ∈ OneofDescriptor.fields o →
  Size_divides (align (SizeOf f)) (align (oneof_maxsize o)).
Proof.
  intros Hf. rewrite oneof_maxsize_max.
  assert (OneofDescriptor.fields o ≠ []) as Hne.
  { intros Hnil. rewrite Hnil in Hf. by apply elem_of_nil in Hf. }
  unfold Size_divides, max_member_shape. cbn [size align size32 size64].
  rewrite <- !list_fmap_compose.
  split; apply field_alignment_divides.
  - apply SizeOf_alignment.
  - apply max_of_alignment; [by intros ?%fmap_nil_inv|].
    apply Forall_fmap, Forall_forall. intros g _. apply (SizeOf_alignment g).
  - apply max_of_ge. apply list_elem_of_fmap. by exists f.
  - apply SizeOf_alignment.
  - apply max_of_alignment; [by intros ?%fmap_nil_inv|].
    apply Forall_fmap, Forall_forall. intros g _. apply (SizeOf_alignment g).
  - apply max_of_ge. apply list_elem_of_fmap. by exists f.
Qed.

Lemma Size_divides_trans a b c :
  Size_divides a b → Size_divides b c → Size_divides a c.
Proof. intros [] []. split; by etrans. Qed.

(** X12.  In every returned layout (map entry or not) each offset that
    [GetFieldOffset] returns for a field of the message is a multiple of the
    alignment of the field's own shape, in both components (also for the
    members of a oneof, which share a slot), and each offset that
    [GetOneofCaseOffset] returns is a multiple of 4. *)
Theorem offsets_aligned d u L :
  valid d → constructor u d = Returns L →
  (∀ f offset, f ∈ Descriptor.fields d → GetFieldOffset L f = Returns offset →
     Size_divides (align (SizeOf f)) offset)
  ∧ (∀ o offset, o ∈ Descriptor.oneof_decls d →
       GetOneofCaseOffset L o = Returns offset →
       Size_divides (MkSize 4 4) offset).
Proof.
  intros Hvalid HL.
  destruct (Descriptor.map_entry d) eqn:Hme.
  { apply constructor_Returns in HL.
    rewrite ComputeLayout_map_entry in HL by done. injection HL as <-.
    unfold GetFieldOffset, GetOneofCaseOffset, GetMapValue. simpl. split.
    - intros f offset _ Hoff.
      destruct (SizeOf_alignment f) as [H32 H64].
      assert (offset = MkSize 0 0 ∨ offset = MkSize 8 16) as Hcases.
      { destruct (decide (field_ptr (Descriptor.FindFieldByNumber d 2)
                          = FieldDescriptor.addr f)) as [Heq2|Hne2].
        { rewrite <- Heq2, lookup_insert_eq in Hoff. right. congruence. }
        rewrite lookup_insert_ne in Hoff by done.
        destruct (decide (field_ptr (Descriptor.FindFieldByNumber d 1)
                          = FieldDescriptor.addr f)) as [Heq1|Hne1].
        { rewrite <- Heq1, lookup_insert_eq in Hoff. left. congruence. }
        rewrite lookup_insert_ne in Hoff by done. done. }
      unfold Size_divides, field_alignment in *.
      destruct Hcases as [-> | ->]; simpl;
        (split; [destruct H32 as [-> | [-> | ->]]|destruct H64 as [-> | [-> | ->]]]);
        (apply Z.mod_divide; [lia|reflexivity]).
    - intros o offset _ Hoff. done. }
  pose proof (ordinary_inv d u L HL) as Hrun.
  destruct (ordinary_layout_inv d _ L Hvalid Hme Hrun)
    as (_ & _ & _ & _ & _ & _ & _ & _ & Hfields & _ & Hcase & _).
  split.
  - intros f offset Hf Hoff.
    destruct (FieldDescriptor.containing_oneof f) as [a|] eqn:Hc.
    + destruct (decide (FieldDescriptor.addr f ∈ oneof_order d ≫= member_addrs))
        as [Hin|Hnot].
      * destruct (member_of_addr d Hvalid f Hf Hin) as (o & Ho & Hfo).
        rewrite (GetFieldOffset_member d u L Hvalid Hme HL o f Ho Hfo) in Hoff.
        injection Hoff as <-.
        apply (elem_of_oneof_order d) in Ho.
        destruct (Hcase o Ho) as (_ & Hdiv & _).
        eapply Size_divides_trans; [by apply member_alignment_divides|done].
      * unfold GetFieldOffset, GetMapValue in Hoff.
        rewrite (field_offsets_unplaced d u L) in Hoff; [done..|congruence|done].
    + assert (f ∈ field_order d) as Hfo by by apply elem_of_field_order.
      rewrite (GetFieldOffset_non_oneof d u L Hvalid Hme HL f Hfo) in Hoff.
      injection Hoff as <-. by apply Hfields.
  - intros o offset Ho Hoff.
    rewrite (GetOneofCaseOffset_returns d u L Hvalid Hme HL o Ho) in Hoff.
    injection Hoff as <-.
    apply (elem_of_oneof_order d) in Ho. by destruct (Hcase o Ho) as (_ & _ & ? & _).
Qed.

Lemma offsets_aligned_witness :
  let d := example_message in
  let L := layout_of example_message in
  (∀ f offset, f ∈ Descriptor.fields d → GetFieldOffset L f = Returns offset →
     Size_divides (align (SizeOf f)) offset)
  ∧ (∀ o offset, o ∈ Descriptor.oneof_decls d →
       GetOneofCaseOffset L o = Returns offset →
       Size_divides (MkSize 4 4) offset).
Proof.
  apply (offsets_aligned example_message junk);
    [apply (bool_decide_unpack _); vm_compute; exact I
    |vm_compute; reflexivity].
Defined.

(** ** Members of synthetic oneofs *)

(** X13.  A member of a declared oneof with presence gets the data slot of
    the oneof.  If the oneof is synthetic (the field has a containing oneof
    but no real one) the field gets a hasbit as well; if the oneof is real
    it gets none and [GetHasbitIndex] aborts. *)
Theorem synthetic_oneof_member d u L o f :
  valid d → Descriptor.map_entry d = false →
  constructor u d = Returns L →
  o ∈ Descriptor.oneof_decls d → f ∈ OneofDescriptor.fields o →
  FieldDescriptor.has_presence f = true →
  (FieldDescriptor.real_containing_oneof f = None →
   ∃ index, GetHasbitIndex L f = Returns index ∧ 1 ≤ index ≤ hasbit_count L
     ∧ GetFieldOffset L f = Returns (data_offset L o)
     ∧ GetOneofCaseOffset L o = Returns (case_offset L o))
  ∧ (is_Some (FieldDescriptor.real_containing_oneof f) →
     GetHasbitIndex L f = Aborts no_value
     ∧ GetFieldOffset L f = Returns (data_offset L o)
     ∧ GetOneofCaseOffset L o = Returns (case_offset L o)).
Proof.
  intros Hvalid Hme HL Ho Hf Hp.
  pose proof (ordinary_inv d u L HL) as Hrun.
  destruct (ordinary_layout_inv d _ L Hvalid Hme Hrun)
    as (_ & Hidx & Hcount & _).
  change (hasbit_indexes_ (default_initialized u)) with (∅ : gmap N Z) in Hidx.
  destruct (lookup_assign_indexes (tracked_fields d) 0 ∅
              (tracked_fields_addrs d Hvalid)) as [Hin Hout].
  destruct (valid_member d Hvalid o f Ho Hf) as [Hfd _].
  pose proof (GetFieldOffset_member d u L Hvalid Hme HL o f Ho Hf) as Hoff.
  pose proof (GetOneofCaseOffset_returns d u L Hvalid Hme HL o Ho) as Hcase.
  split.
  - intros Hreal.
    assert (f ∈ tracked_fields d) as Ht.
    { apply elem_of_tracked_fields. split; [done|].
      unfold HasHasbit. rewrite Hp, Hreal, Hme.
      rewrite bool_decide_false by (by intros [? ?]). done. }
    apply list_elem_of_lookup_1 in Ht as [i Hi].
    pose proof (lookup_lt_Some _ _ _ Hi) as Hlt.
    exists (Z.of_nat i + 1). unfold hasbit_count. rewrite Hcount.
    split_and!; [|lia|lia|done|done].
    unfold GetHasbitIndex. apply GetMapValue_Some.
    rewrite Hidx, (Hin i f Hi). f_equal; lia.
  - intros Hreal. split_and!; [|done|done].
    unfold GetHasbitIndex. apply GetMapValue_None.
    rewrite Hidx, Hout; [done|]. intros Hmem.
    apply list_elem_of_fmap in Hmem as (h & Heq & Hh).
    apply elem_of_tracked_fields in Hh as [Hh Hyes].
    apply (field_addr_inj d Hvalid) in Heq; [|done..]. subst h.
    unfold HasHasbit in Hyes. rewrite bool_decide_true in Hyes by done.
    by rewrite andb_false_r in Hyes.
Qed.

Lemma synthetic_oneof_member_witness :
  let d := example_proto3_optional in
  let L := layout_of example_proto3_optional in
  let f := FieldDescriptor.Make 1001 "pkg.P.x" 1 LABEL_OPTIONAL CPPTYPE_INT32
             true (Some 1%N) None in
  let o := OneofDescriptor.Make 1 "pkg.P._x" [f] in
  (FieldDescriptor.real_containing_oneof f = None →
   ∃ index, GetHasbitIndex L f = Returns index ∧ 1 ≤ index ≤ hasbit_count L
     ∧ GetFieldOffset L f = Returns (data_offset L o)
     ∧ GetOneofCaseOffset L o = Returns (case_offset L o))
  ∧ (is_Some (FieldDescriptor.real_containing_oneof f) →
     GetHasbitIndex L f = Aborts no_value
     ∧ GetFieldOffset L f = Returns (data_offset L o)
     ∧ GetOneofCaseOffset L o = Returns (case_offset L o)).
Proof.
  apply (synthetic_oneof_member example_proto3_optional junk);
    [apply (bool_decide_unpack _); vm_compute; exact I
    |reflexivity
    |vm_compute; reflexivity
    |apply list_elem_of_here
    |apply list_elem_of_here
    |reflexivity].
Defined.

(** ** A oneof without members *)

(** X14.  A oneof without member fields has alignment 0, which [Align]
    accepts: whatever the running size was, the discriminator of such a
    oneof is placed at offset 0 and the running size becomes 4. *)
Theorem place_oneof_empty o s :
  OneofDescriptor.fields o = [] →
  ∃ s', place_oneof o s = Returns (tt, s')
    ∧ oneof_case_offsets_ s' !! OneofDescriptor.addr o = Some (MkSize 0 0)
    ∧ size_ s' = MkSize 4 4
    ∧ field_offsets_ s' = field_offsets_ s.
Proof.
  intros Hnil. unfold place_oneof, oneof_maxsize. rewrite Hnil. cbn [foldl for_each].
  rewrite M_bind_run, Place_unfold. cbn [align size].
  assert (∀ v, Align v (wrap_size_t 0) = Returns 0) as Hzero.
  { intros v. unfold Align. change (IsPowerOfTwo (wrap_size_t 0)) with true. simpl.
    unfold mret, outcome_ret. f_equal.
    change (wrap_size_t (Z.lnot (wrap_size_t (wrap_size_t 0 - 1)))) with 0.
    apply Z.land_0_r. }
  unfold Size_.AlignUp at 1. cbn [size32 size64]. rewrite !Hzero. simpl.
  eexists. split; [reflexivity|]. simpl.
  split_and!; [|done|done]. by rewrite lookup_insert_eq.
Qed.

Lemma place_oneof_empty_witness :
  ∃ s', place_oneof (OneofDescriptor.Make 7 "pkg.M.none" []) junk = Returns (tt, s')
    ∧ oneof_case_offsets_ s' !! 7%N = Some (MkSize 0 0)
    ∧ size_ s' = MkSize 4 4
    ∧ field_offsets_ s' = field_offsets_ junk.
Proof.
  apply (place_oneof_empty (OneofDescriptor.Make 7 "pkg.M.none" []) junk).
  reflexivity.
Defined.

(** ** The outcomes of the constructor *)

(** X15.  The constructor never aborts: [FieldLayoutRank] is only called on
    fields outside oneofs.  It returns, fails an assertion, or (ordinary
    messages only) exits with status 1 and the diagnostic that names a
    required field of the message. *)
Theorem constructor_never_aborts d u :
  Z.of_nat (length (Descriptor.fields d)) < 2 ^ 31 →
  match constructor u d with
  | Returns _ | AssertionFails => True
  | Aborts _ => False
  | Exits status cerr =>
      Descriptor.map_entry d = false ∧ status = 1
      ∧ ∃ f, f ∈ Descriptor.fields d ∧ FieldDescriptor.is_required f = true
             ∧ cerr = too_many_required f
  end.
Proof.
  intros Hlen. unfold constructor.
  destruct (Descriptor.map_entry d) eqn:Hme.
  { by rewrite ComputeLayout_map_entry. }
  rewrite ComputeLayout_ordinary by done.
  destruct (tracked_required d !! 63%nat) as [f|] eqn:Hf.
  - split; [done|]. split; [done|]. exists f.
    apply list_elem_of_lookup_2 in Hf.
    apply list_elem_of_filter in Hf as [Hreq Hf].
    apply list_elem_of_filter in Hf as [_ Hf].
    rewrite hotness_order_Permutation in Hf. done.
  - pose proof (placement_returns_or_asserts d
                  (after_hasbits d (default_initialized u))) as Hr.
    destruct ((for_each (field_order d) place_field ;;
               for_each (oneof_order d) place_oneof ;;
               align_overall_size) (after_hasbits d (default_initialized u)))
      as [[[] L]| | |]; done.
Qed.

Lemma constructor_never_aborts_witness :
  match constructor junk required64 with
  | Returns _ | AssertionFails => True
  | Aborts _ => False
  | Exits status cerr =>
      Descriptor.map_entry required64 = false ∧ status = 1
      ∧ ∃ f, f ∈ Descriptor.fields required64
             ∧ FieldDescriptor.is_required f = true
             ∧ cerr = too_many_required f
  end.
Proof. apply (constructor_never_aborts required64 junk). vm_compute. reflexivity. Defined.

Lemma max_of_le_bound l b : 0 ≤ b → Forall (λ x, x ≤ b) l → max_of l ≤ b.
Proof. intros Hb Hl. induction Hl; simpl; lia. Qed.

Lemma max_of_fmap_mono {A} (f g : A → Z) l :
  (∀ x, f x ≤ g x) → max_of (f <$> l) ≤ max_of (g <$> l).
Proof.
  intros Hfg. unfold max_of. induction l as [|x l IH]; [done|].
  rewrite !fmap_cons. cbn [foldr]. specialize (Hfg x). lia.
Qed.

Lemma SizeOf_widths f :
  size32 (size (SizeOf f)) ≤ 8 ∧ wider64 (size (SizeOf f))
  ∧ (size32 (align (SizeOf f)) | size64 (align (SizeOf f))).
Proof.
  pose proof (SizeOf_alignment f) as [H32 H64]. split_and!.
  - unfold SizeOf, SizeOfUnwrapped.
    destruct (FieldDescriptor.is_repeated f); [simpl; lia|].
    destruct (FieldDescriptor.cpp_type f); simpl; lia.
  - unfold wider64, SizeOf, SizeOfUnwrapped.
    destruct (FieldDescriptor.is_repeated f); [simpl; lia|].
    destruct (FieldDescriptor.cpp_type f); simpl; lia.
  - apply field_alignment_divides; [done..|].
    unfold SizeOf, SizeOfUnwrapped.
    destruct (FieldDescriptor.is_repeated f); [simpl; lia|].
    destruct (FieldDescriptor.cpp_type f); simpl; lia.
Qed.

Lemma oneof_maxsize_widths o :
  OneofDescriptor.fields o ≠ [] →
  size32 (size (oneof_maxsize o)) ≤ 8 ∧ wider64 (size (oneof_maxsize o))
  ∧ (size32 (align (oneof_maxsize o)) | size64 (align (oneof_maxsize o))).
Proof.
  intros Hne. rewrite oneof_maxsize_max.
  unfold wider64, max_member_shape. cbn [size align size32 size64].
  rewrite <- !list_fmap_compose. split_and!.
  - apply max_of_le_bound; [lia|]. apply Forall_fmap, Forall_forall.
    intros f _. apply (SizeOf_widths f).
  - apply max_of_fmap_mono. intros f. apply (SizeOf_widths f).
  - apply field_alignment_divides.
    + apply max_of_alignment; [by intros ?%fmap_nil_inv|].
      apply Forall_fmap, Forall_forall. intros g _. apply (SizeOf_alignment g).
    + apply max_of_alignment; [by intros ?%fmap_nil_inv|].
      apply Forall_fmap, Forall_forall. intros g _. apply (SizeOf_alignment g).
    + apply max_of_fmap_mono. intros f. simpl.
      pose proof (SizeOf_widths f) as (_ & _ & Hd).
      pose proof (SizeOf_alignment f) as [H32 H64].
      apply Z.divide_pos_le in Hd; [done|]. unfold field_alignment in H64. lia.
Qed.

(** Rounding up to a coarser alignment from a later position ends later. *)
Lemma aligned_wider s32 s64 a32 a64 o32 o64 :
  s32 ≤ s64 → 0 < a32 → (a32 | a64) →
  (a32 | o32) → (a64 | o64) → o32 < s32 + a32 → s64 ≤ o64 → o32 ≤ o64.
Proof.
  intros Hs Ha Hd [p ->] Ho64 Hlt Hle.
  assert ((a32 | o64)) as [q ->] by by etrans.
  destruct (decide (p ≤ q)) as [|Hn]; [nia|].
  assert (q ≤ p - 1) by lia. nia.
Qed.

Lemma maxalign_for_MaxFrom bytes a sz :
  maxalign_for bytes a →
  small_power_of_two (size32 sz) → size32 sz ≤ 8 →
  small_power_of_two (size64 sz) →
  maxalign_for bytes (Size_.MaxFrom a sz).
Proof.
  unfold maxalign_for, small_power_of_two, Size_.MaxFrom. simpl. lia.
Qed.

Lemma place_fields_state l : ∀ s B bytes,
  Size_in 0 B (size_ s) → B + 32 * Z.of_nat (length l) ≤ 2 ^ 60 →
  placement_state bytes s →
  ∃ s', for_each l place_field s = Returns (tt, s')
        ∧ Size_in 0 (B + 32 * Z.of_nat (length l)) (size_ s')
        ∧ placement_state bytes s'.
Proof.
  induction l as [|f l IH]; intros s B bytes Hs HB Hok.
  { exists s. split; [done|]. split; [|done]. unfold Size_in in *; simpl; lia. }
  rewrite length_cons, Nat2Z.inj_succ in *. cbn [for_each].
  rewrite M_bind_run.
  destruct (SizeOf_power_of_two f) as (S32 & S64 & A32 & A64).
  pose proof (SizeOf_shape f) as [Hsz Hal].
  pose proof (SizeOf_widths f) as (Hs8 & Hw & Hdiv).
  assert (Size_in 0 (2 ^ 60) (size_ s)) as Hs' by (unfold Size_in in *; lia).
  destruct (place_field_progress f s Hs') as [s1 HP]. rewrite HP.
  apply place_field_returns in HP as (off & -> & Hd & Hle & Hlt); [|done].
  destruct Hok as (Hma & Hws & Hfo & Hco).
  assert (wider64 off) as Hwo.
  { unfold wider64, Size_in, Size_le, Size_lt, Size_plus, Size_divides in *.
    simpl in *. eapply (aligned_wider (size32 (size_ s)) (size64 (size_ s)));
      [exact Hws| |exact Hdiv|apply Hd|apply Hd|lia|lia]. lia. }
  match goal with |- context [for_each l place_field ?s1] =>
    destruct (IH s1 (B + 32) bytes) as (s' & Hrun & Hsz' & Hok') end; simpl_state.
  - unfold Size_in, Size_le, Size_lt, Size_plus in *; simpl in *. lia.
  - lia.
  - split_and!; simpl_state.
    + by apply maxalign_for_MaxFrom.
    + unfold wider64, Size_plus in *. simpl. lia.
    + by apply map_Forall_insert_2.
    + done.
  - exists s'. split; [done|]. split; [|done]. unfold Size_in in *; lia.
Qed.

Lemma map_Forall_foldl_insert (P : Size → Prop) (data : Size) l (m : gmap N Size) :
  map_Forall (λ _, P) m → P data →
  map_Forall (λ _, P) (foldl (λ m f, <[FieldDescriptor.addr f := data]> m) m l).
Proof.
  intros Hm Hd k v. rewrite lookup_foldl_insert.
  case_decide; [by intros [= <-]|apply Hm].
Qed.

Lemma place_oneofs_state l : ∀ s B bytes,
  Forall (λ o, OneofDescriptor.fields o ≠ []) l →
  Size_in 0 B (size_ s) → B + 32 * Z.of_nat (length l) ≤ 2 ^ 60 →
  placement_state bytes s →
  ∃ s', for_each l place_oneof s = Returns (tt, s')
        ∧ Size_in 0 (B + 32 * Z.of_nat (length l)) (size_ s')
        ∧ placement_state bytes s'.
Proof.
  induction l as [|o l IH]; intros s B bytes Hne Hs HB Hok.
  { exists s. split; [done|]. split; [|done]. unfold Size_in in *; simpl; lia. }
  apply Forall_cons in Hne as [Hne1 Hne].
  rewrite length_cons, Nat2Z.inj_succ in *. cbn [for_each].
  rewrite M_bind_run.
  destruct (oneof_maxsize_power_of_two o Hne1) as (S32 & S64 & A32 & A64).
  pose proof (oneof_maxsize_shape o Hne1) as [Hsz Hal].
  pose proof (oneof_maxsize_widths o Hne1) as (Hs8 & Hw & Hdiv).
  assert (Size_in 0 (2 ^ 60 - 32) (size_ s)) as Hs' by (unfold Size_in in *; lia).
  destruct (place_oneof_progress o s Hs' Hne1) as [s1 HP]. rewrite HP.
  apply place_oneof_returns in HP
    as (data & disc & -> & Hd1 & Hle1 & Hlt1 & Hd2 & Hle2 & Hlt2); [|done..].
  destruct Hok as (Hma & Hws & Hfo & Hco).
  assert (wider64 data) as Hwd.
  { unfold wider64, Size_in, Size_le, Size_lt, Size_plus, Size_divides in *.
    simpl in *. eapply (aligned_wider (size32 (size_ s)) (size64 (size_ s)));
      [exact Hws| |exact Hdiv|apply Hd1|apply Hd1|lia|lia]. lia. }
  assert (wider64 disc) as Hwc.
  { unfold wider64, Size_in, Size_le, Size_lt, Size_plus, Size_divides in *.
    simpl in *.
    eapply (aligned_wider (size32 data + size32 (size (oneof_maxsize o)))
                          (size64 data + size64 (size (oneof_maxsize o))) 4 4);
      [lia|lia|done|apply Hd2|apply Hd2|lia|lia]. }
  match goal with |- context [for_each l place_oneof ?s2] =>
    destruct (IH s2 (B + 32) bytes) as (s' & Hrun & Hsz' & Hok') end; simpl_state.
  - done.
  - unfold Size_in, Size_le, Size_lt, Size_plus in *; simpl in *. lia.
  - lia.
  - split_and!; simpl_state.
    + apply maxalign_for_MaxFrom; [by apply maxalign_for_MaxFrom|..];
        simpl; unfold small_power_of_two; lia.
    + unfold wider64, Size_plus in *. simpl. lia.
    + by apply map_Forall_foldl_insert.
    + by apply map_Forall_insert_2.
  - exists s'. split; [done|]. split; [|done]. unfold Size_in in *; lia.
Qed.

(** The state in which an ordinary message reaches the final
    [size_.AlignUp(maxalign_)]. *)
Lemma ordinary_run d u :
  valid d → Descriptor.map_entry d = false →
  (length (tracked_required d) ≤ 63)%nat →
  ∃ s, ComputeLayout d (default_initialized u) = align_overall_size s
       ∧ Size_in 0 (2 ^ 59) (size_ s)
       ∧ placement_state (hasbit_bytes_of d) s.
Proof.
  intros Hvalid Hme Hreq.
  pose proof (valid_field_count d Hvalid) as Hfc.
  pose proof (valid_oneof_count d Hvalid) as Hoc.
  pose proof (field_order_length d) as Hfl.
  pose proof (oneof_order_length d) as Hol.
  pose proof (hasbit_bytes_of_range d Hfc) as [Hhb _].
  rewrite ComputeLayout_ordinary by done.
  rewrite (lookup_ge_None_2 (tracked_required d)) by lia.
  rewrite M_bind_run.
  destruct (place_fields_state (field_order d)
              (after_hasbits d (default_initialized u)) (2 ^ 29)
              (hasbit_bytes_of d))
    as (s3 & -> & Hs3 & Hm3).
  { unfold after_hasbits, Size_in; simpl; lia. }
  { lia. }
  { unfold after_hasbits, placement_state, maxalign_for, wider64; simpl.
    split_and!; [done|by left|done|apply map_Forall_empty..]. }
  rewrite M_bind_run.
  destruct (place_oneofs_state (oneof_order d) s3
              (2 ^ 29 + 32 * Z.of_nat (length (field_order d)))
              (hasbit_bytes_of d))
    as (s4 & -> & Hs4 & Hm4);
    [by apply oneof_order_nonempty|done|lia|done|].
  exists s4. split; [done|]. split; [|done]. unfold Size_in in *. lia.
Qed.

Lemma pow2_divides a b : 0 ≤ a ≤ b → (2 ^ a | 2 ^ b).
Proof.
  intros Hab. exists (2 ^ (b - a)). rewrite <- Z.pow_add_r by lia. f_equal. lia.
Qed.

(** [AlignUp] returns only for alignments that pass the assertion. *)
Lemma AlignUp_Returns_inv this al r :
  Size_.AlignUp this al = Returns r →
  IsPowerOfTwo (wrap_size_t (size32 al)) = true
  ∧ IsPowerOfTwo (wrap_size_t (size64 al)) = true.
Proof.
  unfold Size_.AlignUp, Align.
  destruct (IsPowerOfTwo (wrap_size_t (size32 al))); [|done].
  destruct (IsPowerOfTwo (wrap_size_t (size64 al))); done.
Qed.

Lemma AlignUp_AssertionFails this al :
  IsPowerOfTwo (wrap_size_t (size32 al)) = false →
  Size_.AlignUp this al = AssertionFails.
Proof. intros H. unfold Size_.AlignUp, Align. by rewrite H. Qed.

Lemma AlignUp_pow2 this k32 k64 :
  Size_in 0 (2 ^ 60) this → 0 ≤ k32 ≤ 60 → 0 ≤ k64 ≤ 60 →
  ∃ r, Size_.AlignUp this (MkSize (2 ^ k32) (2 ^ k64)) = Returns r.
Proof.
  intros [H32 H64] Hk32 Hk64. unfold Size_.AlignUp. cbn [size32 size64].
  assert (∀ k, 0 ≤ k ≤ 60 → 0 < 2 ^ k ≤ 2 ^ 60) as Hp.
  { intros k Hk. split; [lia|]. apply Z.pow_le_mono_r; lia. }
  pose proof (Hp k32 Hk32). pose proof (Hp k64 Hk64).
  rewrite !wrap_size_t_small by lia.
  rewrite !Align_pow2 by lia. by eexists.
Qed.

(** The final [size_.AlignUp(maxalign_)] of an ordinary message. *)
Lemma align_overall_size_outcome s bytes :
  Size_in 0 (2 ^ 59) (size_ s) → 0 ≤ bytes < 2 ^ 29 →
  placement_state bytes s →
  ((bytes ≤ 8 ∨ ∃ k, bytes = 2 ^ k) → ∃ L, align_overall_size s = Returns (tt, L))
  ∧ (8 < bytes → (∀ k, bytes ≠ 2 ^ k) → align_overall_size s = AssertionFails)
  ∧ (∀ L, align_overall_size s = Returns (tt, L) →
       L = set_size_ (size_ L) s
       ∧ Size_divides (MkSize 8 8) (size_ L) ∧ wider64 (size_ L)).
Proof.
  intros Hs Hb (Hma & Hws & _).
  assert (Size_in 0 (2 ^ 60) (size_ s)) as Hs' by (unfold Size_in in *; lia).
  unfold align_overall_size. rewrite !M_bind_get, !M_bind_run. unfold lift, modify.
  destruct Hma as [Hm32 Hm64].
  split_and!.
  - intros Hcase.
    assert (∃ k32 k64, 0 ≤ k32 ≤ 60 ∧ 0 ≤ k64 ≤ 60
                       ∧ maxalign_ s = MkSize (2 ^ k32) (2 ^ k64))
      as (k32 & k64 & Hk32 & Hk64 & ->).
    { destruct (decide (bytes ≤ 8)) as [Hle|Hgt].
      - rewrite !Z.max_l in Hm32, Hm64 by lia.
        destruct Hm64 as [Hm64|Hm64].
        + exists 3, 3. split_and!; [lia..|]. apply Size_eq; simpl; lia.
        + exists 3, 4. split_and!; [lia..|]. apply Size_eq; simpl; lia.
      - destruct Hcase as [|[k Hk]]; [lia|].
        assert (3 < k < 29).
        { split.
          - apply (Z.pow_lt_mono_r_iff 2); [lia|  | lia].
            destruct (decide (0 ≤ k)); [done|]. rewrite Z.pow_neg_r in Hk; lia.
          - apply (Z.pow_lt_mono_r_iff 2); lia. }
        assert (2 ^ 4 ≤ 2 ^ k) by (apply Z.pow_le_mono_r; lia).
        exists k, k. split_and!; [lia..|]. apply Size_eq; simpl; lia. }
    destruct (AlignUp_pow2 (size_ s) k32 k64) as [r ->]; [done..|]. by eexists.
  - intros Hgt Hnot. rewrite AlignUp_AssertionFails; [done|].
    rewrite Hm32, Z.max_r, wrap_size_t_small by lia.
    destruct (IsPowerOfTwo bytes) eqn:Hp; [|done].
    apply IsPowerOfTwo_spec in Hp as (k & _ & Hk); [|lia]. by destruct (Hnot k).
  - intros L HL.
    destruct (Size_.AlignUp (size_ s) (maxalign_ s)) as [r| | |] eqn:EA; try done.
    injection HL as <-. simpl_state. split; [done|].
    pose proof (AlignUp_Returns_inv _ _ _ EA) as [Hp32 Hp64].
    assert (8 ≤ size32 (maxalign_ s) < 2 ^ 29 ∧ size32 (maxalign_ s) ≤ size64 (maxalign_ s)
            ∧ size64 (maxalign_ s) < 2 ^ 29) as (Hr32 & Hle & Hr64) by lia.
    rewrite wrap_size_t_small in Hp32, Hp64 by lia.
    apply IsPowerOfTwo_spec in Hp32 as (k32 & Hk32 & Hp32); [|lia].
    apply IsPowerOfTwo_spec in Hp64 as (k64 & Hk64 & Hp64); [|lia].
    assert (3 ≤ k32).
    { apply (Z.pow_le_mono_r_iff 2); [lia..|]. rewrite <- Hp32. lia. }
    assert (k32 ≤ k64).
    { apply (Z.pow_le_mono_r_iff 2); [lia..|]. rewrite <- Hp32, <- Hp64. lia. }
    apply AlignUp_returns in EA as ([Hd32 Hd64] & [Hl32 Hl64] & [Hu32 Hu64]); [|done|].
    2:{ unfold Size_in. lia. }
    simpl in Hu32, Hu64.
    assert ((8 | size32 (maxalign_ s))) as H8.
    { rewrite Hp32. apply (pow2_divides 3 k32). lia. }
    assert ((size32 (maxalign_ s) | size64 (maxalign_ s))) as H3264.
    { rewrite Hp32, Hp64. apply pow2_divides. lia. }
    split; [split; simpl|].
    + by etrans.
    + etrans; [exact H8|]. by etrans.
    + unfold wider64 in *.
      eapply (aligned_wider (size32 (size_ s)) (size64 (size_ s)));
        [exact Hws| |exact H3264|exact Hd32|exact Hd64|lia|lia]. lia.
Qed.

(** X16.  For a validated ordinary message with at most 63 required fields
    with hasbit, the constructor returns exactly when the hasbit region
    has at most 8 bytes or a power of two of bytes; with more than 8 bytes
    that are not a power of two the assertion of the final [AlignUp]
    fails. *)
Theorem constructor_outcome d u :
  valid d → Descriptor.map_entry d = false →
  (length (tracked_required d) ≤ 63)%nat →
  ((hasbit_bytes_of d ≤ 8 ∨ ∃ k, hasbit_bytes_of d = 2 ^ k) →
   ∃ L, constructor u d = Returns L)
  ∧ (8 < hasbit_bytes_of d → (∀ k, hasbit_bytes_of d ≠ 2 ^ k) →
     constructor u d = AssertionFails).
Proof.
  intros Hvalid Hme Hreq.
  destruct (ordinary_run d u Hvalid Hme Hreq) as (s & Hrun & Hs & Hok).
  pose proof (hasbit_bytes_of_range d (valid_field_count d Hvalid)) as [Hhb _].
  destruct (align_overall_size_outcome s _ Hs Hhb Hok) as (Hret & Hfail & _).
  unfold constructor. rewrite Hrun. split.
  - intros Hcase. destruct (Hret Hcase) as [L ->]. by eexists.
  - intros Hgt Hnot. by rewrite (Hfail Hgt Hnot).
Qed.

Lemma constructor_outcome_witness :
  ((hasbit_bytes_of (optionals 65) ≤ 8 ∨ ∃ k, hasbit_bytes_of (optionals 65) = 2 ^ k) →
   ∃ L, constructor junk (optionals 65) = Returns L)
  ∧ (8 < hasbit_bytes_of (optionals 65) →
     (∀ k, hasbit_bytes_of (optionals 65) ≠ 2 ^ k) →
     constructor junk (optionals 65) = AssertionFails).
Proof.
  apply (constructor_outcome (optionals 65) junk);
    [apply (bool_decide_unpack _); vm_compute; exact I
    |reflexivity
    |vm_compute; lia].
Defined.

(** A returned layout of an ordinary message, from the state before the
    final [AlignUp]. *)
Lemma returned_layout_state d u L :
  valid d → Descriptor.map_entry d = false →
  constructor u d = Returns L →
  ∃ s, placement_state (hasbit_bytes_of d) s
       ∧ L = set_size_ (size_ L) s
       ∧ Size_divides (MkSize 8 8) (size_ L) ∧ wider64 (size_ L).
Proof.
  intros Hvalid Hme HL. apply constructor_Returns in HL.
  destruct (ordinary_layout_inv d _ L Hvalid Hme HL) as (Hover & _).
  apply lookup_ge_None_1 in Hover.
  destruct (ordinary_run d u Hvalid Hme) as (s & Hrun & Hs & Hok); [lia|].
  pose proof (hasbit_bytes_of_range d (valid_field_count d Hvalid)) as [Hhb _].
  destruct (align_overall_size_outcome s _ Hs Hhb Hok) as (_ & _ & Hres).
  rewrite Hrun in HL. destruct (Hres L HL) as (HLs & H8 & Hw).
  by exists s.
Qed.

(** X17.  The size of every returned layout is a multiple of 8, in both
    components. *)
Theorem message_size_multiple_of_8 d u L :
  valid d → constructor u d = Returns L →
  Size_divides (MkSize 8 8) (message_size L).
Proof.
  intros Hvalid HL. destruct (Descriptor.map_entry d) eqn:Hme.
  - apply constructor_Returns in HL.
    rewrite ComputeLayout_map_entry in HL by done. injection HL as <-.
    unfold message_size, Size_divides. simpl.
    split; (apply Z.mod_divide; [lia|reflexivity]).
  - by destruct (returned_layout_state d u L Hvalid Hme HL) as (s & _ & _ & H8 & _).
Qed.

Lemma message_size_multiple_of_8_witness :
  Size_divides (MkSize 8 8) (message_size (layout_of example_message)).
Proof.
  apply (message_size_multiple_of_8 example_message junk);
    [apply (bool_decide_unpack _); vm_compute; exact I
    |vm_compute; reflexivity].
Defined.

(** X18.  In every returned layout the 64-bit component of the message
    size, of every field offset and of every oneof discriminator offset is
    not below the 32-bit component. *)
Theorem layout64_not_smaller d u L :
  valid d → constructor u d = Returns L →
  wider64 (message_size L)
  ∧ (∀ f offset, GetFieldOffset L f = Returns offset → wider64 offset)
  ∧ (∀ o offset, GetOneofCaseOffset L o = Returns offset → wider64 offset).
Proof.
  intros Hvalid HL.
  assert (wider64 (size_ L) ∧ map_Forall (λ _, wider64) (field_offsets_ L)
          ∧ map_Forall (λ _, wider64) (oneof_case_offsets_ L)) as (Hw & Hfo & Hco).
  { destruct (Descriptor.map_entry d) eqn:Hme.
    - apply constructor_Returns in HL.
      rewrite ComputeLayout_map_entry in HL by done. injection HL as <-.
      simpl. split_and!.
      + unfold wider64. simpl. lia.
      + apply map_Forall_insert_2; [unfold wider64; simpl; lia|].
        apply map_Forall_insert_2; [unfold wider64; simpl; lia|].
        apply map_Forall_empty.
      + apply map_Forall_empty.
    - destruct (returned_layout_state d u L Hvalid Hme HL)
        as (s & (_ & _ & Hfo & Hco) & -> & _ & Hw).
      done. }
  unfold message_size, GetFieldOffset, GetOneofCaseOffset, GetMapValue.
  split_and!; [done| |].
  - intros f offset Hoff.
    destruct (field_offsets_ L !! FieldDescriptor.addr f) as [v|] eqn:Hl; [|done].
    injection Hoff as <-. by apply (Hfo _ _ Hl).
  - intros o offset Hoff.
    destruct (oneof_case_offsets_ L !! OneofDescriptor.addr o) as [v|] eqn:Hl; [|done].
    injection Hoff as <-. by apply (Hco _ _ Hl).
Qed.

Lemma layout64_not_smaller_witness :
  let L := layout_of example_message in
  wider64 (message_size L)
  ∧ (∀ f offset, GetFieldOffset L f = Returns offset → wider64 offset)
  ∧ (∀ o offset, GetOneofCaseOffset L o = Returns offset → wider64 offset).
Proof.
  apply (layout64_not_smaller example_message junk);
    [apply (bool_decide_unpack _); vm_compute; exact I
    |vm_compute; reflexivity].
Defined.

(** ** The layout is packed *)

(** X19.  The layout of an ordinary message is packed: the hasbits at 0,
    then the fields outside oneofs in rank order, then for each oneof in
    name order its data slot and its discriminator, each at the first
    multiple of its alignment at or after the end of the slot before it;
    the message size is the first multiple of the maximum alignment at or
    after the end of the last slot. *)
Theorem layout_packed d u L :
  valid d → Descriptor.map_entry d = false →
  constructor u d = Returns L →
  ∃ unaligned,
    packed (MkSize 0 0) (ordinary_slots d L) unaligned
    ∧ Size_divides (maxalign_ L) (message_size L)
    ∧ Size_le unaligned (message_size L)
    ∧ Size_lt (message_size L) (Size_plus unaligned (maxalign_ L)).
Proof.
  intros Hvalid Hme HL. apply constructor_Returns in HL.
  by apply (ordinary_slots_packed d (default_initialized u)).
Qed.

Lemma layout_packed_witness :
  let L := layout_of example_message in
  ∃ unaligned,
    packed (MkSize 0 0) (ordinary_slots example_message L) unaligned
    ∧ Size_divides (maxalign_ L) (message_size L)
    ∧ Size_le unaligned (message_size L)
    ∧ Size_lt (message_size L) (Size_plus unaligned (maxalign_ L)).
Proof.
  apply (layout_packed example_message junk);
    [apply (bool_decide_unpack _); vm_compute; exact I
    |reflexivity
    |vm_compute; reflexivity].
Defined.

(** Every size of [SizeOf] is a multiple of its alignment. *)
Lemma SizeOf_size_multiple f : Size_divides (align (SizeOf f)) (size (SizeOf f)).
Proof.
  unfold Size_divides, SizeOf, SizeOfUnwrapped.
  destruct (FieldDescriptor.is_repeated f);
    [split; (apply Z.mod_divide; [simpl; lia|reflexivity])|].
  destruct (FieldDescriptor.cpp_type f);
    split; (apply Z.mod_divide; [simpl; lia|reflexivity]).
Qed.

Lemma aligned_already a x y : 0 < a → (a | x) → (a | y) → x ≤ y < x + a → y = x.
Proof. intros Ha [p ->] [q ->] Hr. assert (q = p) by nia. by subst. Qed.

(** X20.  Between two fields that are placed one after the other there is
    no padding when the alignment of the second divides that of the first:
    the second starts where the first ends. *)
Theorem no_padding_between_fields d u L i f g :
  valid d → Descriptor.map_entry d = false →
  constructor u d = Returns L →
  field_order d !! i = Some f → field_order d !! S i = Some g →
  Size_divides (align (SizeOf g)) (align (SizeOf f)) →
  ∃ offset, GetFieldOffset L f = Returns offset
    ∧ GetFieldOffset L g = Returns (Size_plus offset (size (SizeOf f))).
Proof.
  intros Hvalid Hme HL Hi HSi Hdiv.
  pose proof (list_elem_of_lookup_2 _ _ _ Hi) as Hf.
  pose proof (list_elem_of_lookup_2 _ _ _ HSi) as Hg.
  exists (field_offset L f).
  rewrite !(GetFieldOffset_non_oneof d u L) by done. split; [done|]. f_equal.
  destruct (ordinary_slots_packed d _ L Hvalid Hme (ordinary_inv d u L HL))
    as (unaligned & Hp & _).
  destruct (ordinary_layout_inv d _ L Hvalid Hme (ordinary_inv d u L HL))
    as (_ & _ & _ & _ & _ & _ & _ & _ & Hfields & _).
  destruct (Hfields f Hf) as [_ Hdf].
  assert (ordinary_slots d L !! S i = Some (field_slot L f)) as H1.
  { unfold ordinary_slots. cbn [lookup list_lookup].
    apply lookup_app_l_Some. by rewrite list_lookup_fmap, Hi. }
  assert (ordinary_slots d L !! S (S i) = Some (field_slot L g)) as H2.
  { unfold ordinary_slots. cbn [lookup list_lookup].
    apply lookup_app_l_Some. by rewrite list_lookup_fmap, HSi. }
  destruct (packed_consecutive _ _ _ _ _ _ _ _ Hp H1 H2) as (Hdg & Hle & Hlt).
  pose proof (Size_divides_trans _ _ _ Hdiv Hdf) as Hgf.
  pose proof (Size_divides_trans _ _ _ Hdiv (SizeOf_size_multiple f)) as Hgs.
  pose proof (SizeOf_shape g) as [_ Hal].
  unfold Size_divides, Size_le, Size_lt, Size_plus, Size_in in *. simpl in *.
  apply Size_eq; simpl.
  - apply (aligned_already (size32 (align (SizeOf g)))); [lia| |apply Hdg|lia].
    apply Z.divide_add_r; [apply Hgf|apply Hgs].
  - apply (aligned_already (size64 (align (SizeOf g)))); [lia| |apply Hdg|lia].
    apply Z.divide_add_r; [apply Hgf|apply Hgs].
Qed.

Lemma no_padding_between_fields_witness :
  let f := mk_field 1 "pkg.M.id" LABEL_REQUIRED CPPTYPE_INT32 true None in
  let g := mk_field 7 "pkg.M.flag" LABEL_OPTIONAL CPPTYPE_BOOL true None in
  ∃ offset, GetFieldOffset (layout_of example_message) f = Returns offset
    ∧ GetFieldOffset (layout_of example_message) g
      = Returns (Size_plus offset (size (SizeOf f))).
Proof.
  apply (no_padding_between_fields example_message junk _ 1%nat);
    [apply (bool_decide_unpack _); vm_compute; exact I
    |reflexivity
    |vm_compute; reflexivity
    |vm_compute; reflexivity
    |vm_compute; reflexivity
    |split; exists 4; reflexivity].
Defined.

(** ** The smallest layouts *)

(** A validated message without fields has no oneofs. *)
Lemma valid_no_fields d :
  valid d → Descriptor.fields d = [] → Descriptor.oneof_decls d = [].
Proof.
  intros Hvalid Hnil.
  destruct (Descriptor.oneof_decls d) as [|o os] eqn:Ho; [done|exfalso].
  destruct (valid_oneof_members d Hvalid o) as [Hmem Hne].
  { rewrite Ho. left. }
  rewrite Hnil in Hmem. done.
Qed.

(** X21.  The layout of a validated ordinary message without fields has
    size 0; as soon as the message has a hasbit, a field outside oneofs or
    a oneof, the size is at least 8 in both components. *)
Theorem message_size_zero_or_8 d u L :
  valid d → Descriptor.map_entry d = false →
  constructor u d = Returns L →
  (Descriptor.fields d = [] → message_size L = MkSize 0 0)
  ∧ (hasbit_count L ≠ 0
     ∨ (∃ f, f ∈ Descriptor.fields d ∧ FieldDescriptor.containing_oneof f = None)
     ∨ Descriptor.oneof_decls d ≠ [] →
     Size_le (MkSize 8 8) (message_size L)).
Proof.
  intros Hvalid Hme HL. split.
  - intros Hnil. pose proof (valid_no_fields d Hvalid Hnil) as Hno.
    destruct d as [name me fs os]. simpl in *. subst.
    injection HL as <-. done.
  - intros Hcase.
    destruct (returned_layout_state d u L Hvalid Hme HL) as (_ & _ & _ & H8 & _).
    destruct (ordinary_regions_chain d u L Hvalid Hme HL) as (unaligned & Hch & Hun).
    destruct (ordinary_layout_inv d _ L Hvalid Hme (ordinary_inv d u L HL))
      as (_ & _ & Hcount & Hbytes & _ & (un' & Hch' & _) & _).
    assert (Size_le (MkSize 1 1) unaligned) as Hpos.
    { destruct Hcase as [Hhb|[(f & Hf & Hnone)|Hone]].
      - pose proof (hasbit_bytes_of_range d (valid_field_count d Hvalid)) as [_ Hr].
        unfold hasbit_count in Hhb. rewrite Hcount in Hhb.
        destruct (chain_lookup _ _ _ 0%nat _ _ Hch (layout_regions_hasbits d L))
          as (_ & _ & Hend).
        unfold Size_le, Size_plus in *. simpl in *. rewrite Hbytes in Hend. lia.
      - assert (f ∈ field_order d) as Hfo by by apply elem_of_field_order.
        apply list_elem_of_lookup_1 in Hfo as [i Hi].
        destruct (chain_lookup _ _ _ _ _ _ Hch (layout_regions_field d L i f Hi))
          as (Hlo & _ & Hend).
        pose proof (SizeOf_shape f) as [Hsz _].
        unfold Size_le, Size_plus, Size_in in *. simpl in *. lia.
      - destruct (Descriptor.oneof_decls d) as [|o os] eqn:Ho; [done|].
        assert (o ∈ oneof_order d) as Hoo.
        { apply (elem_of_oneof_order d). rewrite Ho. left. }
        pose proof Hoo as Hoo'. apply list_elem_of_lookup_1 in Hoo' as [j Hj].
        destruct (chain_lookup _ _ _ _ _ _ Hch (layout_regions_oneof d L j o Hj))
          as (Hlo & _ & Hend).
        unfold ordinary_items in Hch'. cbn [chain] in Hch'.
        destruct Hch' as (_ & _ & Hch').
        apply chain_app_r in Hch' as [mid Hch'].
        pose proof (chain_oneof_adjacent L o _ _ _ Hch' Hoo) as Hadj.
        pose proof (oneof_maxsize_shape o) as [Hsz _].
        { apply (valid_oneof_members d Hvalid o). rewrite Ho. left. }
        unfold Size_le, Size_plus, Size_minus, Size_in in *. simpl in *. lia. }
    unfold message_size.
    destruct H8 as [[q32 H32] [q64 H64]]. simpl in H32, H64.
    unfold Size_le in *. simpl in *. lia.
Qed.

Lemma message_size_zero_or_8_witness :
  let d := example_proto3_optional in
  let L := layout_of example_proto3_optional in
  (Descriptor.fields d = [] → message_size L = MkSize 0 0)
  ∧ (hasbit_count L ≠ 0
     ∨ (∃ f, f ∈ Descriptor.fields d ∧ FieldDescriptor.containing_oneof f = None)
     ∨ Descriptor.oneof_decls d ≠ [] →
     Size_le (MkSize 8 8) (message_size L)).
Proof.
  apply (message_size_zero_or_8 example_proto3_optional junk);
    [apply (bool_decide_unpack _); vm_compute; exact I
    |reflexivity
    |vm_compute; reflexivity].
Defined.

(** ** The maximum alignment *)

Lemma place_fields_maxalign l : ∀ s s' B,
  Size_in 0 B (size_ s) → B + 32 * Z.of_nat (length l) ≤ 2 ^ 60 →
  for_each l place_field s = Returns (tt, s') →
  maxalign_ s'
  = foldl Size_.MaxFrom (maxalign_ s) ((λ f, size (SizeOf f)) <$> l).
Proof.
  induction l as [|f l IH]; intros s s' B Hs HB Hrun.
  { by injection Hrun as <-. }
  cbn [for_each] in Hrun. rewrite M_bind_run in Hrun.
  destruct (place_field f s) as [[[] s1]| | |] eqn:E1; try done.
  rewrite length_cons, Nat2Z.inj_succ in *.
  pose proof (SizeOf_shape f) as [Hsz Hal].
  apply place_field_returns in E1 as (off & -> & Hd & Hle & Hlt);
    [|unfold Size_in in *; lia].
  apply (IH _ _ (B + 32)) in Hrun; [| |lia]; simpl_state.
  - by rewrite Hrun.
  - unfold Size_in, Size_le, Size_lt, Size_plus in *; simpl in *. lia.
Qed.

Lemma place_oneofs_maxalign l : ∀ s s' B,
  Forall (λ o, OneofDescriptor.fields o ≠ []) l →
  Size_in 0 B (size_ s) → B + 32 * Z.of_nat (length l) ≤ 2 ^ 60 →
  for_each l place_oneof s = Returns (tt, s') →
  maxalign_ s'
  = foldl Size_.MaxFrom (maxalign_ s)
          (l ≫= λ o, [size (oneof_maxsize o); MkSize 4 4]).
Proof.
  induction l as [|o l IH]; intros s s' B Hne Hs HB Hrun.
  { by injection Hrun as <-. }
  apply Forall_cons in Hne as [Hne1 Hne].
  cbn [for_each] in Hrun. rewrite M_bind_run in Hrun.
  destruct (place_oneof o s) as [[[] s1]| | |] eqn:E1; try done.
  rewrite length_cons, Nat2Z.inj_succ in *.
  pose proof (oneof_maxsize_shape o Hne1) as [Hsz Hal].
  apply place_oneof_returns in E1
    as (data & disc & -> & Hd1 & Hle1 & Hlt1 & Hd2 & Hle2 & Hlt2);
    [|unfold Size_in in *; lia|done].
  apply (IH _ _ (B + 32)) in Hrun; [|done| |lia]; simpl_state.
  - by rewrite Hrun.
  - unfold Size_in, Size_le, Size_lt, Size_plus in *; simpl in *. lia.
Qed.

Lemma foldl_MaxFrom_ge l : ∀ a x,
  x ∈ l ∨ x = a → Size_le x (foldl Size_.MaxFrom a l).
Proof.
  induction l as [|y l IH]; intros a x Hx; simpl.
  - destruct Hx as [Hx| ->]; [by apply elem_of_nil in Hx|apply Size_le_refl].
  - destruct Hx as [[-> | Hx]%elem_of_cons| ->].
    + eapply Size_le_trans; [|apply IH; by right].
      unfold Size_le, Size_.MaxFrom. simpl. lia.
    + apply IH. by left.
    + eapply Size_le_trans; [|apply IH; by right].
      unfold Size_le, Size_.MaxFrom. simpl. lia.
Qed.

(** The maximum alignment of a returned layout is a pair of powers of two. *)
Lemma returned_maxalign d u L :
  valid d → Descriptor.map_entry d = false →
  constructor u d = Returns L →
  ∃ k32 k64, 3 ≤ k32 ≤ k64 ∧ k64 < 64 ∧ maxalign_ L = MkSize (2 ^ k32) (2 ^ k64).
Proof.
  intros Hvalid Hme HL. apply constructor_Returns in HL.
  destruct (ordinary_layout_inv d _ L Hvalid Hme HL) as (Hover & _).
  apply lookup_ge_None_1 in Hover.
  destruct (ordinary_run d u Hvalid Hme) as (s & Hrun & Hs & Hok); [lia|].
  pose proof (hasbit_bytes_of_range d (valid_field_count d Hvalid)) as [Hhb _].
  rewrite Hrun in HL. unfold align_overall_size in HL.
  rewrite !M_bind_get, !M_bind_run in HL. unfold lift, modify in HL.
  destruct (Size_.AlignUp (size_ s) (maxalign_ s)) as [r| | |] eqn:EA; try done.
  injection HL as <-. simpl_state.
  destruct Hok as ([Hm32 Hm64] & _).
  pose proof (AlignUp_Returns_inv _ _ _ EA) as [Hp32 Hp64].
  assert (8 ≤ size32 (maxalign_ s) < 2 ^ 29 ∧ size32 (maxalign_ s) ≤ size64 (maxalign_ s)
          ∧ size64 (maxalign_ s) < 2 ^ 29) as (Hr32 & Hle & Hr64) by lia.
  rewrite wrap_size_t_small in Hp32, Hp64 by lia.
  apply IsPowerOfTwo_spec in Hp32 as (k32 & Hk32 & Hp32); [|lia].
  apply IsPowerOfTwo_spec in Hp64 as (k64 & Hk64 & Hp64); [|lia].
  exists k32, k64. split_and!.
  - apply (Z.pow_le_mono_r_iff 2); [lia..|]. rewrite <- Hp32. lia.
  - apply (Z.pow_le_mono_r_iff 2); [lia..|]. rewrite <- Hp32, <- Hp64. lia.
  - lia.
  - by apply Size_eq.
Qed.

Lemma maxalign_of_slots d s0 L :
  valid d → Descriptor.map_entry d = false →
  ComputeLayout d s0 = Returns (tt, L) →
  maxalign_ L = foldl Size_.MaxFrom (MkSize 8 8) (slot_sizes d L).
Proof.
  intros Hvalid Hme Hrun.
  pose proof (valid_field_count d Hvalid) as Hfc.
  pose proof (valid_oneof_count d Hvalid) as Hoc.
  pose proof (field_order_length d) as Hfl.
  pose proof (oneof_order_length d) as Hol.
  pose proof (hasbit_bytes_of_range d Hfc) as [Hhb _].
  destruct (ordinary_layout_inv d _ L Hvalid Hme Hrun) as (_ & _ & _ & Hbytes & _).
  rewrite ComputeLayout_ordinary in Hrun by done.
  destruct (tracked_required d !! 63%nat) as [f|]; [done|].
  rewrite M_bind_run in Hrun.
  destruct (for_each (field_order d) place_field _) as [[[] s3]| | |] eqn:E3;
    try done.
  rewrite M_bind_run in Hrun.
  destruct (for_each (oneof_order d) place_oneof s3) as [[[] s4]| | |] eqn:E4;
    try done.
  pose proof E3 as Hm3.
  apply (place_fields_maxalign _ _ _ (2 ^ 29)) in Hm3;
    [|unfold after_hasbits, Size_in; simpl; lia|lia].
  apply (place_fields_returns _ _ _ (2 ^ 29)) in E3
    as (fo3 & ma3 & sz3 & -> & _ & Hsz3 & _ & _ & _ & Hma3 & Hma3');
    [|by apply field_order_addrs|unfold after_hasbits, Size_in; simpl; lia|lia].
  pose proof E4 as Hm4.
  apply (place_oneofs_maxalign _ _ _
           (2 ^ 29 + 32 * Z.of_nat (length (field_order d)))) in Hm4;
    [|by apply oneof_order_nonempty|done|lia].
  apply (place_oneofs_returns _ _ _ (2 ^ 29 + 32 * Z.of_nat (length (field_order d))))
    in E4
    as (fo4 & co4 & ma4 & sz4 & -> & _ & Hsz4 & _ & _ & _ & _ & _ & Hma4 & Hma4');
    [|by apply oneof_order_addrs|by apply oneof_order_member_addrs
     |by apply oneof_order_nonempty|done|lia].
  unfold after_hasbits in *. simpl_state.
  apply align_overall_size_tight in Hrun as (HLeq & _); simpl_state.
  2:{ unfold Size_in in *; lia. }
  2:{ unfold Size_in, Size_le, Size_.MaxFrom in *; simpl in *; lia. }
  assert (maxalign_ L = ma4) as -> by (by rewrite HLeq).
  unfold slot_sizes, ordinary_slots. rewrite Hbytes.
  rewrite fmap_cons, fmap_app. cbn [foldl snd size].
  rewrite foldl_app, <- list_fmap_compose, fmap_list_bind.
  rewrite Hm4, Hm3. done.
Qed.

(** X22.  [Place] takes the running maximum alignment from the size of what
    it places, not from the alignment: the maximum alignment of a returned
    layout of an ordinary message is the maximum of 8 and the sizes of all
    slots.  The message size is a multiple of it; so the 64-bit size of a
    message with a placed singular string field (16 bytes, alignment 8) is
    a multiple of 16. *)
Theorem maxalign_from_sizes d u L :
  valid d → Descriptor.map_entry d = false →
  constructor u d = Returns L →
  maxalign_ L = foldl Size_.MaxFrom (MkSize 8 8) (slot_sizes d L)
  ∧ Size_divides (maxalign_ L) (message_size L)
  ∧ (∀ f, f ∈ Descriptor.fields d →
       FieldDescriptor.cpp_type f = CPPTYPE_STRING →
       FieldDescriptor.is_repeated f = false →
       (FieldDescriptor.containing_oneof f = None
        ∨ ∃ o, o ∈ Descriptor.oneof_decls d ∧ f ∈ OneofDescriptor.fields o) →
       (16 | size64 (message_size L))).
Proof.
  intros Hvalid Hme HL.
  pose proof (maxalign_of_slots d _ L Hvalid Hme (ordinary_inv d u L HL)) as Hmax.
  destruct (ordinary_layout_inv d _ L Hvalid Hme (ordinary_inv d u L HL))
    as (_ & _ & _ & _ & _ & _ & Hdiv & _).
  split; [done|]. split; [done|].
  intros f Hf Hstr Hrep Hplaced.
  destruct (returned_maxalign d u L Hvalid Hme HL) as (k32 & k64 & Hk & Hk64 & Hpow).
  assert (size (SizeOf f) = MkSize 8 16) as Hsize.
  { unfold SizeOf, SizeOfUnwrapped. by rewrite Hrep, Hstr. }
  assert (∃ x, x ∈ slot_sizes d L ∧ 16 ≤ size64 x) as (x & Hx & H16).
  { unfold slot_sizes, ordinary_slots.
    destruct Hplaced as [Hnone|(o & Ho & Hfo)].
    - exists (size (SizeOf f)). split; [|rewrite Hsize; simpl; lia].
      apply list_elem_of_fmap. exists (field_slot L f). split; [done|].
      right. apply elem_of_app. left.
      apply list_elem_of_fmap. exists f. split; [done|].
      by apply elem_of_field_order.
    - exists (size (oneof_maxsize o)). split.
      + apply list_elem_of_fmap. exists (data_offset L o, oneof_maxsize o).
        split; [done|]. right. apply elem_of_app. right.
        apply list_elem_of_bind. exists o. split; [left|].
        by apply (elem_of_oneof_order d).
      + rewrite oneof_maxsize_max. unfold max_member_shape. cbn [size size64].
        etrans; [|apply max_of_ge].
        2:{ rewrite <- list_fmap_compose. apply list_elem_of_fmap.
            exists f. split; [reflexivity|done]. }
        simpl. rewrite Hsize. simpl. lia. }
  pose proof (foldl_MaxFrom_ge (slot_sizes d L) (MkSize 8 8) x (or_introl Hx))
    as [_ Hge].
  rewrite <- Hmax, Hpow in Hge. simpl in Hge.
  assert (4 ≤ k64).
  { apply (Z.pow_le_mono_r_iff 2); [lia..|]. lia. }
  destruct Hdiv as [_ Hd64]. rewrite Hpow in Hd64. simpl in Hd64.
  unfold message_size. etrans; [|exact Hd64]. apply (pow2_divides 4 k64). lia.
Qed.

Lemma maxalign_from_sizes_witness :
  let d := example_message in
  let L := layout_of example_message in
  maxalign_ L = foldl Size_.MaxFrom (MkSize 8 8) (slot_sizes d L)
  ∧ Size_divides (maxalign_ L) (message_size L)
  ∧ (∀ f, f ∈ Descriptor.fields d →
       FieldDescriptor.cpp_type f = CPPTYPE_STRING →
       FieldDescriptor.is_repeated f = false →
       (FieldDescriptor.containing_oneof f = None
        ∨ ∃ o, o ∈ Descriptor.oneof_decls d ∧ f ∈ OneofDescriptor.fields o) →
       (16 | size64 (message_size L))).
Proof.
  apply (maxalign_from_sizes example_message junk);
    [apply (bool_decide_unpack _); vm_compute; exact I
    |reflexivity
    |vm_compute; reflexivity].
Defined.
